(** * go-lsystems: rewriting engines and turtle-graphics compilers

    A shallow embedding of package [lsystems] (the package text that follows
    the example program in [examples3.go]) together with the properties the
    specification states about it.

    Conventions.
    - A Go [string] is a sequence of bytes: [gostring := list ascii].
    - A Go [int] is a [Z]; a Go [float64] is a primitive binary64 [float].
    - A function that can end the process ([halt], which calls
      [log.Fatalln], or a run-time panic) returns an [outcome].
    - Package-level variables and closure variables are threaded
      explicitly. *)

From Stdlib Require Import ZArith List Ascii String Bool Lia.
From Stdlib Require Import Floats SpecFloat FloatOps DecimalString.
From stdpp Require Import base option list gmap strings.
Import ListNotations.

Local Open Scope Z_scope.
Local Open Scope list_scope.

(** ** Go strings *)

Definition gostring := list ascii.

(** A string literal of the source, as its bytes. *)
Definition go (s : string) : gostring := list_ascii_of_string s.

Definition byte_eqb (a b : ascii) : bool := Ascii.eqb a b.
Arguments byte_eqb : simpl never.

(** [string(b)] for a byte [b]: Go converts the integer to the UTF-8
    encoding of the code point of that value, so a byte below 0x80 gives
    a one-byte string and any other byte a two-byte string.  Every
    [symbol := string(cmds[pos])] of the package goes through this. *)
Definition string_of_byte (b : ascii) : gostring :=
  let n := N_of_ascii b in
  if (n <? 128)%N then [b]
  else [ascii_of_N (192 + N.shiftr n 6); ascii_of_N (128 + N.land n 63)].

(** ** Outcomes *)

Inductive failure : Type :=
| halted (msg : string)      (* halt(msg): log.Fatalln ends the process *)
| panicked (msg : string)    (* a run-time panic ends the process *)
| loops_forever              (* a loop comes back to the very same state *)
| out_of_fuel.               (* the model's iteration bound was too small *)

(** The run-time panic of an index expression [a[i]] with [i] outside
    [0 <= i < len(a)]. *)
Definition index_out_of_range : failure := panicked "index out of range".

Inductive outcome (A : Type) : Type :=
| Returns (a : A)
| Fails (f : failure).
Arguments Returns {A} a.
Arguments Fails {A} f.

#[global] Instance outcome_ret : MRet outcome := fun A a => Returns a.
#[global] Instance outcome_bind : MBind outcome := fun A B k o =>
  match o with
  | Returns a => k a
  | Fails f => Fails f
  end.

#[global] Instance outcome_fmap : FMap outcome := fun A B f o =>
  match o with
  | Returns a => Returns (f a)
  | Fails e => Fails e
  end.

Definition halt {A} (msg : string) : outcome A := Fails (halted msg).

(** [fmt.Sprintf("the symbol '%s' is not supported", symbol)]. *)
Definition not_supported (symbol : gostring) : string :=
  "the symbol '" ++ string_of_list_ascii symbol ++ "' is not supported".

(** ** [strings.Replacer] with empty replacements

    [strings.NewReplacer(old1, "", old2, "", ...).Replace(s)] scans [s]
    from the left; at each position the [old] strings are compared in
    argument order, a match is dropped and the scan resumes after it,
    otherwise the byte is copied.  Matches do not overlap and the result
    is not scanned again.  Every replacer of the package has non-empty
    [old] strings and empty replacements. *)

Fixpoint has_prefix (old s : gostring) : bool :=
  match old, s with
  | [], _ => true
  | _ :: _, [] => false
  | a :: old', b :: s' => byte_eqb a b && has_prefix old' s'
  end.

(** [skip] counts the bytes of the current match still to be dropped. *)
Fixpoint Replace_from (olds : list gostring) (skip : nat) (s : gostring)
  : gostring :=
  match s with
  | [] => []
  | c :: s' =>
      match skip with
      | S k => Replace_from olds k s'
      | O =>
          match List.find (fun old => has_prefix old s) olds with
          | Some old => Replace_from olds (Nat.pred (List.length old)) s'
          | None => c :: Replace_from olds 0 s'
          end
      end
  end.

Definition Replace (olds : list gostring) (s : gostring) : gostring :=
  Replace_from olds 0 s.

(** [strings.NewReplacer("+-", "", "-+", "").Replace]: "remove pointless
    turns", the first statement of each of the three turtle walks. *)
Definition remove_pointless_turns (s : gostring) : gostring :=
  Replace [go "+-"; go "-+"] s.

(** An adjacent cancelling pair of turns somewhere in [s]. *)
Fixpoint has_turn_pair (s : gostring) : bool :=
  match s with
  | [] => false
  | x :: t =>
      (has_prefix (go "+-") s || has_prefix (go "-+") s) || has_turn_pair t
  end.

(** ** [strings.Replacer] in general

    A replacer built by [strings.NewReplacer(old1, new1, old2, new2, ...)]
    is its pairs in argument order.  [Replace] scans the text from the
    left; at each position, of the [old] strings that match there, the
    one given first wins; its [new] string is written and the scan
    resumes after the match, otherwise the byte is copied.  An empty
    [old] string matches at every position, the end of the text
    included, but not twice in a row: after it the same position is
    tried once more for the other [old] strings. *)

Definition Replacer := list (gostring * gostring).

Definition Replacer_lookup (r : Replacer) (s : gostring) (ignoreRoot : bool)
  : option (gostring * gostring) :=
  List.find (fun on => has_prefix on.1 s
                       && negb (ignoreRoot && bool_decide (on.1 = []))) r.

(** What is written at a position where no match is in progress, and
    the length of the match that starts there, if any. *)
Definition Replacer_at (r : Replacer) (s : gostring) : gostring * option nat :=
  match Replacer_lookup r s false with
  | None => ([], None)
  | Some ([], new) =>
      match Replacer_lookup r s true with
      | Some (old, new') => (new ++ new', Some (length old))
      | None => (new, None)
      end
  | Some (old, new) => (new, Some (length old))
  end.

Fixpoint Replacer_from (r : Replacer) (skip : nat) (s : gostring) : gostring :=
  match s with
  | [] =>
      match skip with
      | O => (Replacer_at r []).1
      | S _ => []
      end
  | c :: s' =>
      match skip with
      | S k => Replacer_from r k s'
      | O =>
          match Replacer_at r s with
          | (out, Some n) => out ++ Replacer_from r (Nat.pred n) s'
          | (out, None) => out ++ c :: Replacer_from r 0 s'
          end
      end
  end.

(** [rules.Replace(s)] through a [*strings.Replacer]; [None] is the nil
    pointer, whose dereference is a run-time panic. *)
Definition Replacer_Replace (rules : option Replacer) (s : gostring)
  : outcome gostring :=
  match rules with
  | Some r => Returns (Replacer_from r 0 s)
  | None => Fails (panicked "invalid memory address or nil pointer dereference")
  end.

(** ** [float64] and the library functions the package calls

    Arithmetic, comparison and negation are the IEEE 754 binary64
    operations of [PrimFloat].  The functions below stand for
    [math.Mod], [math.Min], [math.Max], [math.Abs],
    [strconv.ParseFloat] and the verb [%f] of [fmt.Sprintf]; they are
    computed exactly on the value [m * 2^e] of a finite float. *)

Definition float64 := float.
Bind Scope float_scope with float64.

(** The binary64 nearest to [m * 2^e] (ties to even). *)
Definition float64_of_dyadic (m e : Z) : spec_float :=
  binary_normalize prec emax m e false.

(** [math.Mod(x, y)]: the remainder of [x/y] with the sign of [x]; it is
    always representable, so no rounding takes place. *)
Definition math_Mod (x y : float64) : float64 :=
  match Prim2SF x, Prim2SF y with
  | S754_nan, _ | _, S754_nan | S754_infinity _, _ | _, S754_zero _ => nan
  | S754_zero _, _ => x
  | S754_finite _ _ _, S754_infinity _ => x
  | S754_finite sx mx ex, S754_finite _ my ey =>
      let e := Z.min ex ey in
      let r := (Z.pos mx * 2 ^ (ex - e)) mod (Z.pos my * 2 ^ (ey - e)) in
      let f := SF2Prim (float64_of_dyadic r e) in
      if sx then (- f)%float else f
  end.

Definition math_Abs (x : float64) : float64 := PrimFloat.abs x.

Definition math_Max (x y : float64) : float64 :=
  if (x =? infinity)%float || (y =? infinity)%float then infinity
  else if is_nan x || is_nan y then nan
  else if (x =? 0)%float && (x =? y)%float
       then (if get_sign x then y else x)
  else if (y <? x)%float then x else y.

Definition math_Min (x y : float64) : float64 :=
  if (x =? neg_infinity)%float || (y =? neg_infinity)%float then neg_infinity
  else if is_nan x || is_nan y then nan
  else if (x =? 0)%float && (x =? y)%float
       then (if get_sign x then x else y)
  else if (x <? y)%float then x else y.

(** Decimal digits of a natural number, and of [n] in a field of six
    digits filled with zeros on the left. *)
Definition decimal (n : Z) : gostring :=
  go (NilZero.string_of_uint (N.to_uint (Z.to_N n))).

Definition decimal6 (n : Z) : gostring :=
  List.tl (decimal (1000000 + n)).

(** [fmt.Sprintf("%f", x)]: six digits after the point, the exact value
    rounded to nearest, ties to even. *)
Definition fmt_f (x : float64) : gostring :=
  match Prim2SF x with
  | S754_nan => go "NaN"
  | S754_infinity s => go (if s then "-Inf" else "+Inf")
  | S754_zero s => (if s then go "-" else []) ++ go "0.000000"
  | S754_finite s m e =>
      let num := Z.pos m * 1000000 * 2 ^ (Z.max e 0) in
      let den := 2 ^ (Z.max (- e) 0) in
      let q := num / den in
      let r := num mod den in
      let n := if 2 * r <? den then q
               else if den <? 2 * r then q + 1
               else if Z.even q then q else q + 1 in
      (if s then go "-" else [])
        ++ decimal (n / 1000000) ++ go "." ++ decimal6 (n mod 1000000)
  end.

(** [strconv.ParseFloat(s, 64)] on the strings the heading pattern lets
    through (bytes among [+ - . 0..9]): an optional sign, digits with at
    most one point and at least one digit.  [None] is a non-nil [err]:
    a syntax error, or a range error when the value rounds to infinity. *)
Definition digit_of (c : ascii) : option Z :=
  let n := Z.of_N (N_of_ascii c) in
  if (48 <=? n) && (n <=? 57) then Some (n - 48) else None.

Fixpoint read_decimal (s : gostring) (mant frac : Z) (point digits : bool)
  : option (Z * Z) :=
  match s with
  | [] => if digits then Some (mant, frac) else None
  | c :: s' =>
      if byte_eqb c "." then
        if point then None else read_decimal s' mant frac true digits
      else
        match digit_of c with
        | Some d =>
            read_decimal s' (10 * mant + d)
                         (if point then frac + 1 else frac) point true
        | None => None
        end
  end.

Definition strconv_ParseFloat (s : gostring) : option float64 :=
  let '(neg, body) :=
    match s with
    | c :: r => if byte_eqb c "+" then (false, r)
                else if byte_eqb c "-" then (true, r) else (false, s)
    | [] => (false, s)
    end in
  match read_decimal body 0 0 false false with
  | None => None
  | Some (mant, frac) =>
      if mant =? 0 then Some (if neg then neg_zero else zero)
      else
        let den := 10 ^ frac in
        let shift := Z.max 0 (Z.log2 den - Z.log2 mant + 64) in
        let q := (mant * 2 ^ shift) / den in
        let inexact := negb ((mant * 2 ^ shift) mod den =? 0) in
        let m := if inexact then Z.lor q 1 else q in
        match float64_of_dyadic m (- shift) with
        | S754_infinity _ => None
        | f => Some (if neg then (- SF2Prim f)%float else SF2Prim f)
        end
  end.

(** [_degs2rads = math.Pi / 180.]: a constant expression, rounded once. *)
Definition _degs2rads : float64 := 0x1.1df46a2529d39p-6%float.

(** ** The rewriting engines *)

(** *** The process-wide random source

    [init] seeds the global source of math/rand from the clock
    ([rand.Seed(time.Now().UnixNano())]) and no function of the package
    takes a seed, so the state of the source at a call is not known.
    It is modelled by the sequence of variates it is going to deliver
    and the number already drawn; [rand.Intn(n)] delivers the next one
    reduced into [0, n) and panics when [n <= 0]. *)

Record rand_Source := { variates : nat -> Z; drawn : nat }.

Definition rand_Intn (r : rand_Source) (n : Z) : outcome (Z * rand_Source) :=
  if n <=? 0 then Fails (panicked "invalid argument to Intn")
  else Returns (variates r (drawn r) mod n,
                {| variates := variates r; drawn := S (drawn r) |}).

(** *** Package variables *)

Record package := {
  TurtleCmds : gostring;                    (* exported: generated commands *)
  _colorNames : gmap gostring gostring;     (* filled by init from gnuplot *)
  rand_global : rand_Source                 (* math/rand's global source *)
}.

Definition set_TurtleCmds (cmds : gostring) (p : package) : package :=
  {| TurtleCmds := cmds; _colorNames := _colorNames p;
     rand_global := rand_global p |}.

Definition set_rand (r : rand_Source) (p : package) : package :=
  {| TurtleCmds := TurtleCmds p; _colorNames := _colorNames p;
     rand_global := r |}.

(** [a[i]] on a slice. *)
Definition index {A} (a : list A) (i : Z) : outcome A :=
  if i <? 0 then Fails index_out_of_range
  else match a !! Z.to_nat i with
       | Some x => Returns x
       | None => Fails index_out_of_range
       end.

(** *** Deterministic *)

Fixpoint Deterministic_generations (n : nat) (rules : option Replacer)
    (cmds : gostring) : outcome gostring :=
  match n with
  | O => Returns cmds
  | S n' =>
      newCmds ← Replacer_Replace rules cmds;
      Deterministic_generations n' rules newCmds
  end.

Definition Deterministic (order : Z) (axiom : gostring)
    (rules : option Replacer) (p : package) : outcome package :=
  if order <? 0 then halt "curve order must be non-negative"
  else if decide (axiom = []) then halt "axiom was not specified"
  else
    cmds ← Deterministic_generations (Z.to_nat order) rules axiom;
    Returns (set_TurtleCmds cmds p).

(** *** Stochastic *)

(** The lottery: index [k] is entered [weights[k]] times, for every [k]
    of [range weights]. *)
Fixpoint make_selectors (k : Z) (weights : list Z) : outcome (list Z) :=
  match weights with
  | [] => Returns []
  | v :: rest =>
      if 0 <? v then
        more ← make_selectors (k + 1) rest;
        Returns (repeat k (Z.to_nat v) ++ more)
      else halt "weights must be postive"
  end.

(** One generation.  [strings.Split(TurtleCmds, "")] cuts the text into
    its characters; only the one-byte character [F] is rewritten and the
    others are appended as they are, so for text in UTF-8 the generation
    is this byte-wise map. *)
Fixpoint Stochastic_generation (rules : list gostring) (selectors : list Z)
    (cmds : gostring) (r : rand_Source) : outcome (gostring * rand_Source) :=
  match cmds with
  | [] => Returns ([], r)
  | symbol :: rest =>
      if byte_eqb symbol "F" then
        '(n, r1) ← rand_Intn r (Z.of_nat (length selectors));
        k ← index selectors n;
        rule ← index rules k;
        '(newCmds, r2) ← Stochastic_generation rules selectors rest r1;
        Returns (rule ++ newCmds, r2)
      else
        '(newCmds, r1) ← Stochastic_generation rules selectors rest r;
        Returns (symbol :: newCmds, r1)
  end.

Fixpoint Stochastic_generations (n : nat) (rules : list gostring)
    (selectors : list Z) (cmds : gostring) (r : rand_Source)
  : outcome (gostring * rand_Source) :=
  match n with
  | O => Returns (cmds, r)
  | S n' =>
      '(newCmds, r1) ← Stochastic_generation rules selectors cmds r;
      Stochastic_generations n' rules selectors newCmds r1
  end.

Definition Stochastic (order : Z) (axiom : gostring) (rules : list gostring)
    (weights : list Z) (p : package) : outcome package :=
  if order <? 0 then halt "curve order must be non-negative"
  else if decide (axiom = []) then halt "axiom was not specified"
  else if decide (rules = []) then halt "rules were not specified"
  else if decide (weights = []) then halt "weights were not specified"
  else if (length weights <? length rules)%nat
       then halt "fewer weights specified than the number of rules"
  else
    selectors ← make_selectors 0 weights;
    '(cmds, r) ← Stochastic_generations (Z.to_nat order) rules selectors
                   axiom (rand_global p);
    Returns (set_rand r (set_TurtleCmds cmds p)).

(** *** HogewegHesper *)

(** [getContextLHS]: the scan walks the text before the symbol from its
    right end; the argument is that text reversed, so that the head of
    the list is [lhs[pos]].  [unmatched] is [unmatchedBrakets] while the
    inner loop skips a branch and 0 in the outer loop.  Walking off the
    left end inside the inner loop is [lhs[-1]]. *)
Fixpoint getContextLHS_scan (unmatched : nat) (rev_lhs : gostring)
  : outcome gostring :=
  match rev_lhs with
  | [] =>
      match unmatched with
      | O => Returns []
      | S _ => Fails index_out_of_range
      end
  | c :: more =>
      match unmatched with
      | S u =>
          if byte_eqb c "[" then getContextLHS_scan u more
          else if byte_eqb c "]" then getContextLHS_scan (S (S u)) more
          else getContextLHS_scan (S u) more
      | O =>
          if byte_eqb c "F" || byte_eqb c "+" || byte_eqb c "-"
             || byte_eqb c "$" then getContextLHS_scan 0 more
          else if byte_eqb c "[" then getContextLHS_scan 0 more
          else if byte_eqb c "]" then getContextLHS_scan 1 more
          else if byte_eqb c "0" || byte_eqb c "1" then Returns [c]
          else halt (not_supported (string_of_byte c))
      end
  end.

Definition getContextLHS (lhs : gostring) : outcome gostring :=
  getContextLHS_scan 0 (rev lhs).

(** [getContextRHS]: the same walk to the right; a [']'] met in the
    outer loop is the top of the current branch and ends the search. *)
Fixpoint getContextRHS_scan (unmatched : nat) (rhs : gostring)
  : outcome gostring :=
  match rhs with
  | [] =>
      match unmatched with
      | O => Returns []
      | S _ => Fails index_out_of_range
      end
  | c :: more =>
      match unmatched with
      | S u =>
          if byte_eqb c "[" then getContextRHS_scan (S (S u)) more
          else if byte_eqb c "]" then getContextRHS_scan u more
          else getContextRHS_scan (S u) more
      | O =>
          if byte_eqb c "F" || byte_eqb c "+" || byte_eqb c "-"
             || byte_eqb c "$" then getContextRHS_scan 0 more
          else if byte_eqb c "]" then Returns []
          else if byte_eqb c "[" then getContextRHS_scan 1 more
          else if byte_eqb c "0" || byte_eqb c "1" then Returns [c]
          else halt (not_supported (string_of_byte c))
      end
  end.

Definition getContextRHS (rhs : gostring) : outcome gostring :=
  getContextRHS_scan 0 rhs.

(** [regexp.MatchString("^(0|1) < (0|1) > (0|1)$", k)]. *)
Definition is_variable (c : ascii) : bool := byte_eqb c "0" || byte_eqb c "1".

Definition rule_key_matches (k : gostring) : bool :=
  match k with
  | [l; s1; lt; s2; a; s3; gt; s4; r] =>
      is_variable l && byte_eqb s1 " " && byte_eqb lt "<" && byte_eqb s2 " "
      && is_variable a && byte_eqb s3 " " && byte_eqb gt ">"
      && byte_eqb s4 " " && is_variable r
  | _ => false
  end.

(** The check of the rule table at the head of [HogewegHesper]. *)
Definition rules_specified_correctly (rules : gmap gostring gostring) : bool :=
  forallb (fun kv => rule_key_matches kv.1 && negb (bool_decide (kv.2 = [])))
          (map_to_list rules).

(** [fmt.Sprintf("%s < %s > %s", lhs, symbol, rhs)]. *)
Definition context_key (lhs symbol rhs : gostring) : gostring :=
  lhs ++ go " < " ++ symbol ++ go " > " ++ rhs.

(** What one symbol contributes to [newCmds]; [rev_lhs] is
    [TurtleCmds[:pos]] reversed and [rhs] is [TurtleCmds[pos+1:]].  Both
    coroutines are asked before either answer is read; a failure of
    either ends the process. *)
Definition HogewegHesper_symbol (rules : gmap gostring gostring)
    (rev_lhs : gostring) (c : ascii) (rhs : gostring) : outcome gostring :=
  if byte_eqb c "F" || byte_eqb c "[" || byte_eqb c "]" || byte_eqb c "$"
  then Returns [c]
  else if byte_eqb c "+" then Returns (go "-")
  else if byte_eqb c "-" then Returns (go "+")
  else if byte_eqb c "0" || byte_eqb c "1" then
    l ← getContextLHS_scan 0 rev_lhs;
    r ← getContextRHS_scan 0 rhs;
    match rules !! context_key l [c] r with
    | Some replacement => Returns replacement
    | None => Returns [c]
    end
  else halt (not_supported (string_of_byte c)).

Fixpoint HogewegHesper_generation (rules : gmap gostring gostring)
    (rev_lhs : gostring) (rest : gostring) : outcome gostring :=
  match rest with
  | [] => Returns []
  | c :: rhs =>
      piece ← HogewegHesper_symbol rules rev_lhs c rhs;
      newCmds ← HogewegHesper_generation rules (c :: rev_lhs) rhs;
      Returns (piece ++ newCmds)
  end.

Fixpoint HogewegHesper_generations (n : nat) (rules : gmap gostring gostring)
    (cmds : gostring) : outcome gostring :=
  match n with
  | O => Returns cmds
  | S n' =>
      newCmds ← HogewegHesper_generation rules [] cmds;
      HogewegHesper_generations n' rules newCmds
  end.

Definition HogewegHesper (order : Z) (axiom : gostring)
    (rules : gmap gostring gostring) (p : package) : outcome package :=
  if order <? 0 then halt "curve order must be non-negative"
  else if decide (axiom = []) then halt "axiom was not specified"
  else if negb (rules_specified_correctly rules)
       then halt "the rules were not specified correctly"
  else
    cmds ← HogewegHesper_generations (Z.to_nat order) rules axiom;
    Returns (set_TurtleCmds cmds p).

(** ** The turtle *)

Record _turtleStatus := {
  HEADING : float64;   (* turtle's heading in degrees *)
  X : float64;         (* turtle's x ordinate *)
  Y : float64          (* turtle's y ordinate *)
}.

Definition _turtleHistory := list _turtleStatus.

Definition push (lifoStack : _turtleHistory) (turtle : _turtleStatus)
  : _turtleHistory :=
  lifoStack ++ [turtle].

Definition pop (lifoStack : _turtleHistory)
  : outcome (_turtleStatus * _turtleHistory) :=
  let lastIdx := Z.of_nat (length lifoStack) - 1 in
  turtle ← index lifoStack lastIdx;
  Returns (turtle, take (Z.to_nat lastIdx) lifoStack).

(** The four closure variables [xMin, xMax, yMin, yMax] of
    [makeLogo2Gnuplot] and [makeLogo2Hpgl]. *)
Record bounds := {
  xMin : float64; xMax : float64; yMin : float64; yMax : float64
}.

Definition bounds0 : bounds := {| xMin := 0; xMax := 0; yMin := 0; yMax := 0 |}.

(** [_reHeading = ^\(([\+\-0-9.]+?)\)] on the text from the parenthesis
    on: the whole match and its group.  No byte of the class is a closing
    parenthesis, so the lazy repetition ends at the first byte outside
    the class, which has to be the closing parenthesis. *)
Definition heading_byte (c : ascii) : bool :=
  byte_eqb c "+" || byte_eqb c "-" || byte_eqb c "."
  || match digit_of c with Some _ => true | None => false end.

Fixpoint heading_bytes (s : gostring) : gostring * gostring :=
  match s with
  | c :: s' =>
      if heading_byte c
      then let '(num, rest) := heading_bytes s' in (c :: num, rest)
      else ([], s)
  | [] => ([], [])
  end.

Definition _reHeading (s : gostring) : option (gostring * gostring) :=
  match s with
  | c :: s' =>
      if byte_eqb c "(" then
        match heading_bytes s' with
        | (d :: num, close :: _) =>
            if byte_eqb close ")"
            then Some (c :: (d :: num) ++ [close], d :: num)
            else None
        | _ => None
        end
      else None
  | [] => None
  end.

Definition getHeading (cmds : gostring) (posLP : Z) : outcome (float64 * Z) :=
  match _reHeading (drop (Z.to_nat posLP) cmds) with
  | None => halt "the specified angle is not syntactically well-formed"
  | Some (whole, num) =>
      match strconv_ParseFloat num with
      | None => halt "the specified angle is not syntactically well-formed"
      | Some heading =>
          Returns (heading, posLP + Z.of_nat (length whole) - 1)
      end
  end.

Definition dquote : gostring := [ascii_of_nat 34].
Definition newline : gostring := [ascii_of_nat 10].

(** The closure of [makeConvert2Gnuplot]; [polygon] is its variable. *)
Definition convert2Gnuplot (fillColor polygon symbol : gostring)
    (coords : list float64) : outcome (gostring * gostring) :=
  if decide (symbol = go "{") then
    x ← index coords 0; y ← index coords 1;
    Returns ([], go "set object polygon fc rgb " ++ dquote ++ fillColor
                 ++ dquote ++ go " from " ++ fmt_f x ++ go "," ++ fmt_f y)
  else if decide (symbol = go "}") then Returns (polygon, [])
  else if negb (bool_decide (polygon = [])) then
    x ← index coords 2; y ← index coords 3;
    Returns ([], polygon ++ go " to " ++ fmt_f x ++ go "," ++ fmt_f y)
  else if decide (symbol = go "F") then
    x0 ← index coords 0; y0 ← index coords 1;
    x1 ← index coords 2; y1 ← index coords 3;
    Returns (go "set arrow as 1 from " ++ fmt_f x0 ++ go "," ++ fmt_f y0
               ++ go " to " ++ fmt_f x1 ++ go "," ++ fmt_f y1, polygon)
  else Returns ([], polygon).

(** The closure of [makeConvert2Hpgl]; [penCmdPrev] is its variable. *)
Definition convert2Hpgl (penCmdPrev symbol : gostring) (x y : float64)
  : gostring * gostring :=
  let penCmd := if decide (symbol = go "F") then go "PD" else go "PU" in
  if decide (symbol = go "{") then (go ";" ++ newline ++ go "PM0;" ++ newline, [])
  else if decide (symbol = go "}")
       then (go ";" ++ newline ++ go "PM2;EP;FP;" ++ newline, [])
  else if decide (penCmdPrev = penCmd)
       then (go "," ++ fmt_f x ++ go "," ++ fmt_f y, penCmdPrev)
  else if negb (bool_decide (penCmdPrev = []))
       then (go ";" ++ newline ++ penCmd ++ fmt_f x ++ go "," ++ fmt_f y, penCmd)
  else (penCmd ++ fmt_f x ++ go "," ++ fmt_f y, penCmd).

(** The default case of the three walks: "remove all instances of a
    production variable", then [pos--] and the common [pos++].  When the
    text has no instance of [symbol] (a byte from 0x80 on is not the
    two-byte [symbol] made from it) nothing has changed and the loop
    comes back to the same state. *)
Definition remove_variable (symbol cmds : gostring) : outcome gostring :=
  let cmds' := Replace [symbol] cmds in
  if decide (cmds' = cmds) then Fails loops_forever else Returns cmds'.

Section Turtle.

(** [math.Cos] and [math.Sin], reached only for a heading that is not a
    multiple of 90 degrees. *)
Variables math_Cos math_Sin : float64 -> float64.

(** The case ["F", "f"] of [makeLogo2Gnuplot] and [makeLogo2Hpgl]: the
    move and the update of the bounds. *)
Definition forward (turtle : _turtleStatus) (b : bounds)
  : _turtleStatus * bounds :=
  let m := math_Mod (HEADING turtle) 360 in
  if (m =? 0)%float then
    let x := (X turtle + 1)%float in
    ({| HEADING := HEADING turtle; X := x; Y := Y turtle |},
     {| xMin := xMin b; xMax := math_Max (xMax b) x;
        yMin := yMin b; yMax := yMax b |})
  else if (m =? 90)%float || (m =? -270)%float then
    let y := (Y turtle + 1)%float in
    ({| HEADING := HEADING turtle; X := X turtle; Y := y |},
     {| xMin := xMin b; xMax := xMax b;
        yMin := yMin b; yMax := math_Max (yMax b) y |})
  else if (m =? 180)%float || (m =? -180)%float then
    let x := (X turtle - 1)%float in
    ({| HEADING := HEADING turtle; X := x; Y := Y turtle |},
     {| xMin := math_Min (xMin b) x; xMax := xMax b;
        yMin := yMin b; yMax := yMax b |})
  else if (m =? 270)%float || (m =? -90)%float then
    let y := (Y turtle - 1)%float in
    ({| HEADING := HEADING turtle; X := X turtle; Y := y |},
     {| xMin := xMin b; xMax := xMax b;
        yMin := math_Min (yMin b) y; yMax := yMax b |})
  else
    let radians := (HEADING turtle * _degs2rads)%float in
    let x := (X turtle + math_Cos radians)%float in
    let y := (Y turtle + math_Sin radians)%float in
    ({| HEADING := HEADING turtle; X := x; Y := y |},
     {| xMin := math_Min (xMin b) x; xMax := math_Max (xMax b) x;
        yMin := math_Min (yMin b) y; yMax := math_Max (yMax b) y |}).

(** The turns, shared by the three walks: cases ["+"], ["-"], ["|"]
    and ["$"]. *)
Definition set_heading (h : float64) (turtle : _turtleStatus) : _turtleStatus :=
  {| HEADING := h; X := X turtle; Y := Y turtle |}.

(** *** [makeLogo2Gnuplot] *)

Record gnuplot_walk := {
  gp_cmds : gostring;               (* *turtleCmds *)
  gp_pos : Z;
  gp_turtle : _turtleStatus;
  gp_stack : _turtleHistory;
  gp_bounds : bounds;               (* xMin, xMax, yMin, yMax *)
  gp_polygon : gostring;            (* of convert2Gnuplot *)
  gp_plotCmds : list gostring
}.

(** One turn of the loop at the byte [c] found at [pos] in the text. *)
Definition gnuplot_step (lineColor : gostring) (angle : float64)
    (w : gnuplot_walk) (c : ascii) : outcome gnuplot_walk :=
  let next cmds pos turtle stack b polygon plotCmds :=
    {| gp_cmds := cmds; gp_pos := pos + 1; gp_turtle := turtle;
       gp_stack := stack; gp_bounds := b; gp_polygon := polygon;
       gp_plotCmds := plotCmds |} in
  let turn h :=
    Returns (next (gp_cmds w) (gp_pos w) (set_heading h (gp_turtle w))
                  (gp_stack w) (gp_bounds w) (gp_polygon w) (gp_plotCmds w)) in
  let turtle := gp_turtle w in
  if byte_eqb c "F" || byte_eqb c "f" then
    let '(moved, b) := forward turtle (gp_bounds w) in
    '(cmd, polygon) ← convert2Gnuplot lineColor (gp_polygon w) [c]
                        [X turtle; Y turtle; X moved; Y moved];
    Returns (next (gp_cmds w) (gp_pos w) moved (gp_stack w) b polygon
                  (if decide (cmd = []) then gp_plotCmds w
                   else gp_plotCmds w ++ [cmd]))
  else if byte_eqb c "+" then turn (HEADING turtle + angle)%float
  else if byte_eqb c "-" then turn (HEADING turtle - angle)%float
  else if byte_eqb c "|" then turn (HEADING turtle + 180)%float
  else if byte_eqb c "$" then turn 90%float
  else if byte_eqb c "(" then
    '(heading, pos) ← getHeading (gp_cmds w) (gp_pos w);
    Returns (next (gp_cmds w) pos (set_heading heading turtle) (gp_stack w)
                  (gp_bounds w) (gp_polygon w) (gp_plotCmds w))
  else if byte_eqb c "[" then
    Returns (next (gp_cmds w) (gp_pos w) turtle (push (gp_stack w) turtle)
                  (gp_bounds w) (gp_polygon w) (gp_plotCmds w))
  else if byte_eqb c "]" then
    '(restored, stack) ← pop (gp_stack w);
    Returns (next (gp_cmds w) (gp_pos w) restored stack
                  (gp_bounds w) (gp_polygon w) (gp_plotCmds w))
  else if byte_eqb c "{" then
    '(_, polygon) ← convert2Gnuplot lineColor (gp_polygon w) [c]
                      [X turtle; Y turtle];
    Returns (next (gp_cmds w) (gp_pos w) turtle (gp_stack w)
                  (gp_bounds w) polygon (gp_plotCmds w))
  else if byte_eqb c "}" then
    '(cmd, polygon) ← convert2Gnuplot lineColor (gp_polygon w) [c] [];
    Returns (next (gp_cmds w) (gp_pos w) turtle (gp_stack w)
                  (gp_bounds w) polygon (gp_plotCmds w ++ [cmd]))
  else
    cmds ← remove_variable (string_of_byte c) (gp_cmds w);
    Returns (next cmds (gp_pos w - 1) turtle (gp_stack w)
                  (gp_bounds w) (gp_polygon w) (gp_plotCmds w)).

(** One turn of the loop [for pos < len(text) { ... }], and the loop. *)
Definition gnuplot_turn (lineColor : gostring) (angle : float64)
    (w : gnuplot_walk) : outcome gnuplot_walk :=
  c ← index (gp_cmds w) (gp_pos w);
  gnuplot_step lineColor angle w c.

Fixpoint gnuplot_loop (fuel : nat) (lineColor : gostring) (angle : float64)
    (w : gnuplot_walk) : outcome gnuplot_walk :=
  match fuel with
  | O => Fails out_of_fuel
  | S fuel' =>
      if gp_pos w <? Z.of_nat (length (gp_cmds w)) then
        w' ← gnuplot_turn lineColor angle w;
        gnuplot_loop fuel' lineColor angle w'
      else Returns w
  end.

(** The walk after its first [n] turns. *)
Fixpoint gnuplot_turns (n : nat) (lineColor : gostring) (angle : float64)
    (w : gnuplot_walk) : outcome gnuplot_walk :=
  match n with
  | O => Returns w
  | S n' =>
      w' ← gnuplot_turn lineColor angle w;
      gnuplot_turns n' lineColor angle w'
  end.

(** The variables of the closure when the loop is entered. *)
Definition gnuplot_start (b : bounds) (cmds : gostring) (xOrigin : float64)
  : gnuplot_walk :=
  {| gp_cmds := cmds; gp_pos := 0;
     gp_turtle := {| HEADING := 0; X := xOrigin; Y := 0 |};
     gp_stack := []; gp_bounds := b; gp_polygon := [];
     gp_plotCmds := [] |}.

(** The closure returned by [makeLogo2Gnuplot(lineColor)], called with
    the closure variables [b]; it gives back the commands, the bounds
    (the four results are the closure variables after the walk) and the
    text it leaves behind its argument [turtleCmds], a pointer.  Every turn of the loop brings
    [pos] nearer to the end of the text or reports the loop stuck, so
    the length of the text bounds the number of turns. *)
Definition logo2Gnuplot (lineColor : gostring) (b : bounds)
    (turtleCmds : gostring) (xOrigin angle : float64)
  : outcome (list gostring * bounds * gostring) :=
  let cmds := remove_pointless_turns turtleCmds in
  w ← gnuplot_loop (S (length cmds)) lineColor angle
        (gnuplot_start b cmds xOrigin);
  Returns (gp_plotCmds w, gp_bounds w, gp_cmds w).

(** *** [makeLogo2Hpgl] *)

Record hpgl_walk := {
  hp_cmds : gostring;
  hp_pos : Z;
  hp_turtle : _turtleStatus;
  hp_stack : _turtleHistory;
  hp_bounds : bounds;
  hp_penCmdPrev : gostring;          (* of convert2Hpgl *)
  hp_plotCmds : gostring
}.

Definition hpgl_step (angle : float64) (w : hpgl_walk) (c : ascii)
  : outcome hpgl_walk :=
  let next cmds pos turtle stack b pen plotCmds :=
    {| hp_cmds := cmds; hp_pos := pos + 1; hp_turtle := turtle;
       hp_stack := stack; hp_bounds := b; hp_penCmdPrev := pen;
       hp_plotCmds := plotCmds |} in
  let turn h :=
    Returns (next (hp_cmds w) (hp_pos w) (set_heading h (hp_turtle w))
                  (hp_stack w) (hp_bounds w) (hp_penCmdPrev w)
                  (hp_plotCmds w)) in
  let turtle := hp_turtle w in
  if byte_eqb c "F" || byte_eqb c "f" then
    let '(moved, b) := forward turtle (hp_bounds w) in
    let '(cmd, pen) := convert2Hpgl (hp_penCmdPrev w) [c] (X moved) (Y moved) in
    Returns (next (hp_cmds w) (hp_pos w) moved (hp_stack w) b pen
                  (hp_plotCmds w ++ cmd))
  else if byte_eqb c "+" then turn (HEADING turtle + angle)%float
  else if byte_eqb c "-" then turn (HEADING turtle - angle)%float
  else if byte_eqb c "|" then turn (HEADING turtle + 180)%float
  else if byte_eqb c "$" then turn 90%float
  else if byte_eqb c "(" then
    '(heading, pos) ← getHeading (hp_cmds w) (hp_pos w);
    Returns (next (hp_cmds w) pos (set_heading heading turtle) (hp_stack w)
                  (hp_bounds w) (hp_penCmdPrev w) (hp_plotCmds w))
  else if byte_eqb c "[" then
    Returns (next (hp_cmds w) (hp_pos w) turtle (push (hp_stack w) turtle)
                  (hp_bounds w) (hp_penCmdPrev w) (hp_plotCmds w))
  else if byte_eqb c "]" then
    '(restored, stack) ← pop (hp_stack w);
    let '(cmd, pen) :=
      convert2Hpgl (hp_penCmdPrev w) (go "f") (X restored) (Y restored) in
    Returns (next (hp_cmds w) (hp_pos w) restored stack (hp_bounds w) pen
                  (hp_plotCmds w ++ cmd))
  else if byte_eqb c "{" || byte_eqb c "}" then
    let '(cmd, pen) :=
      convert2Hpgl (hp_penCmdPrev w) [c] (X turtle) (Y turtle) in
    Returns (next (hp_cmds w) (hp_pos w) turtle (hp_stack w) (hp_bounds w)
                  pen (hp_plotCmds w ++ cmd))
  else
    cmds ← remove_variable (string_of_byte c) (hp_cmds w);
    Returns (next cmds (hp_pos w - 1) turtle (hp_stack w) (hp_bounds w)
                  (hp_penCmdPrev w) (hp_plotCmds w)).

Definition hpgl_turn (angle : float64) (w : hpgl_walk) : outcome hpgl_walk :=
  c ← index (hp_cmds w) (hp_pos w);
  hpgl_step angle w c.

Fixpoint hpgl_loop (fuel : nat) (angle : float64) (w : hpgl_walk)
  : outcome hpgl_walk :=
  match fuel with
  | O => Fails out_of_fuel
  | S fuel' =>
      if hp_pos w <? Z.of_nat (length (hp_cmds w)) then
        w' ← hpgl_turn angle w;
        hpgl_loop fuel' angle w'
      else Returns w
  end.

(** The walk after its first [n] turns. *)
Fixpoint hpgl_turns (n : nat) (angle : float64) (w : hpgl_walk)
  : outcome hpgl_walk :=
  match n with
  | O => Returns w
  | S n' =>
      w' ← hpgl_turn angle w;
      hpgl_turns n' angle w'
  end.

(** The closure returned by [makeLogo2Hpgl()], called with the closure
    variables [b]: the pen commands, the bounds and the text left behind
    the pointer [turtleCmds]. *)
Definition hpgl_start (b : bounds) (cmds : gostring) (xOrigin : float64)
  : hpgl_walk :=
  let '(first, pen) := convert2Hpgl [] (go "f") xOrigin 0 in
  {| hp_cmds := cmds; hp_pos := 0;
     hp_turtle := {| HEADING := 0; X := xOrigin; Y := 0 |};
     hp_stack := []; hp_bounds := b; hp_penCmdPrev := pen;
     hp_plotCmds := first |}.

Definition logo2Hpgl (b : bounds) (turtleCmds : gostring)
    (xOrigin angle : float64) : outcome (gostring * bounds * gostring) :=
  let cmds := remove_pointless_turns turtleCmds in
  w ← hpgl_loop (S (length cmds)) angle (hpgl_start b cmds xOrigin);
  Returns (hp_plotCmds w ++ go ";", hp_bounds w, hp_cmds w).

(** *** [calcXoffset]

    The coroutine keeps [stack] and [turtle] from one request to the
    next; each request resets [HEADING], [X] and its own [xMin]. *)

Record offset_walk := {
  ox_cmds : gostring;
  ox_pos : Z;
  ox_turtle : _turtleStatus;
  ox_stack : _turtleHistory;
  ox_xMin : float64
}.

Definition offset_step (angle : float64) (w : offset_walk) (c : ascii)
  : outcome offset_walk :=
  let next cmds pos turtle stack xmin :=
    {| ox_cmds := cmds; ox_pos := pos + 1; ox_turtle := turtle;
       ox_stack := stack; ox_xMin := xmin |} in
  let turn h :=
    Returns (next (ox_cmds w) (ox_pos w) (set_heading h (ox_turtle w))
                  (ox_stack w) (ox_xMin w)) in
  let turtle := ox_turtle w in
  let at_x x := {| HEADING := HEADING turtle; X := x; Y := Y turtle |} in
  if byte_eqb c "F" || byte_eqb c "f" then
    let m := math_Mod (HEADING turtle) 360 in
    let '(moved, xmin) :=
      if (m =? 0)%float then (at_x (X turtle + 1)%float, ox_xMin w)
      else if (m =? 90)%float || (m =? -270)%float then (turtle, ox_xMin w)
      else if (m =? 180)%float || (m =? -180)%float then
        let x := (X turtle - 1)%float in (at_x x, math_Min (ox_xMin w) x)
      else if (m =? 270)%float || (m =? -90)%float then (turtle, ox_xMin w)
      else
        let x := (X turtle + math_Cos (HEADING turtle * _degs2rads))%float in
        (at_x x, math_Min (ox_xMin w) x) in
    Returns (next (ox_cmds w) (ox_pos w) moved (ox_stack w) xmin)
  else if byte_eqb c "+" then turn (HEADING turtle + angle)%float
  else if byte_eqb c "-" then turn (HEADING turtle - angle)%float
  else if byte_eqb c "|" then turn (HEADING turtle + 180)%float
  else if byte_eqb c "$" then turn 90%float
  else if byte_eqb c "(" then
    '(heading, pos) ← getHeading (ox_cmds w) (ox_pos w);
    Returns (next (ox_cmds w) pos (set_heading heading turtle) (ox_stack w)
                  (ox_xMin w))
  else if byte_eqb c "[" then
    Returns (next (ox_cmds w) (ox_pos w) turtle (push (ox_stack w) turtle)
                  (ox_xMin w))
  else if byte_eqb c "]" then
    '(restored, stack) ← pop (ox_stack w);
    Returns (next (ox_cmds w) (ox_pos w) restored stack (ox_xMin w))
  else if byte_eqb c "{" || byte_eqb c "}" then
    Returns (next (ox_cmds w) (ox_pos w) turtle (ox_stack w) (ox_xMin w))
  else
    cmds ← remove_variable (string_of_byte c) (ox_cmds w);
    Returns (next cmds (ox_pos w - 1) turtle (ox_stack w) (ox_xMin w)).

Definition offset_turn (angle : float64) (w : offset_walk)
  : outcome offset_walk :=
  c ← index (ox_cmds w) (ox_pos w);
  offset_step angle w c.

Fixpoint offset_loop (fuel : nat) (angle : float64) (w : offset_walk)
  : outcome offset_walk :=
  match fuel with
  | O => Fails out_of_fuel
  | S fuel' =>
      if ox_pos w <? Z.of_nat (length (ox_cmds w)) then
        w' ← offset_turn angle w;
        offset_loop fuel' angle w'
      else Returns w
  end.

Definition xNudge : float64 := 2.

(** The dry run of one request: the walk from the local origin. *)
Definition calcXoffset_walk (stack : _turtleHistory) (turtle : _turtleStatus)
    (turtleCmds : gostring) (angle : float64) : outcome offset_walk :=
  let cmds := remove_pointless_turns turtleCmds in
  offset_loop (S (length cmds)) angle
    {| ox_cmds := cmds; ox_pos := 0;
       ox_turtle := {| HEADING := 0; X := 0; Y := Y turtle |};
       ox_stack := stack; ox_xMin := 0 |}.

(** One request served by the coroutine: what it sends on [xOffset] and
    the variables it keeps. *)
Definition calcXoffset (stack : _turtleHistory) (turtle : _turtleStatus)
    (turtleCmds : gostring) (angle : float64)
  : outcome (float64 * (_turtleHistory * _turtleStatus)) :=
  w ← calcXoffset_walk stack turtle turtleCmds angle;
  Returns ((math_Abs (ox_xMin w) + xNudge)%float, (ox_stack w, ox_turtle w)).

(** *** The exported drawing functions

    [execPlot] (the gnuplot process) and [fileWrite] lie outside the
    model, and so does the progress bar written to the console by
    [updateProgressBar]; each function below gives what it hands to them
    and the variables it leaves. *)

(** [regexp.MatchString("^#[a-fA-F0-9]{6}$", fgColor)]. *)
Definition hex_digit (c : ascii) : bool :=
  let n := N_of_ascii c in
  ((48 <=? n) && (n <=? 57) || (65 <=? n) && (n <=? 70)
   || (97 <=? n) && (n <=? 102))%N.

Definition validFgColor (colorNames : gmap gostring gostring)
    (fgColor : gostring) : bool :=
  if decide (fgColor = []) then false
  else if existsb (fun c => byte_eqb c "#") fgColor then
    match fgColor with
    | h :: digits =>
        byte_eqb h "#" && (length digits =? 6)%nat && forallb hex_digit digits
    | [] => false
    end
  else bool_decide (is_Some (colorNames !! fgColor)).

Definition invalid_color (name : gostring) : string :=
  "the color name '" ++ string_of_list_ascii name ++ "' is not valid".

Definition margin (wide : bool) : gostring := if wide then go "2" else go "1".

Definition Plot (angle : float64)
    (terminalCmd outputCmd plotTitle lineColor : gostring) (p : package)
  : outcome (package * list gostring) :=
  if decide (TurtleCmds p = []) then halt "the turtle commands were not generated"
  else if (angle =? 0)%float then halt "the production angle is zero"
  else if negb (validFgColor (_colorNames p) lineColor)
       then halt (invalid_color lineColor)
  else
    let titled := negb (bool_decide (plotTitle = [])) in
    let plotCmds :=
      [terminalCmd; outputCmd; go "unset border"; go "unset border";
       go "unset tics";
       go "set bmargin " ++ margin false; go "set tmargin " ++ margin titled;
       go "set rmargin " ++ margin false; go "set lmargin " ++ margin false;
       go "set size square"; go "set autoscale fix";
       go "set style fill solid 1.0 border rgb " ++ dquote ++ lineColor ++ dquote;
       go "set style arrow 1 nohead lc rgb " ++ dquote ++ lineColor ++ dquote]
      ++ (if titled
          then [go "set title " ++ dquote ++ plotTitle ++ dquote
                  ++ go " tc rgb " ++ dquote ++ lineColor ++ dquote]
          else []) in
    '(drawCmds, b, cmds) ← logo2Gnuplot lineColor bounds0 (TurtleCmds p) 0 angle;
    let xSpan := (xMax b - xMin b)%float in
    let ySpan := (yMax b - yMin b)%float in
    let maxSpan := math_Max xSpan ySpan in
    let xOffset := (0.5 * (maxSpan - xSpan))%float in
    let yOffset := (0.5 * (maxSpan - ySpan))%float in
    Returns
      (set_TurtleCmds cmds p,
       plotCmds ++ drawCmds ++
       [go "set xrange [" ++ fmt_f (xMin b) ++ go ":" ++ fmt_f (xMax b) ++ go "]";
        go "set yrange [" ++ fmt_f (yMin b) ++ go ":" ++ fmt_f (yMax b) ++ go "]";
        go "set offset " ++ fmt_f xOffset ++ go "," ++ fmt_f xOffset ++ go ","
          ++ fmt_f yOffset ++ go "," ++ fmt_f yOffset;
        go "set parametric";
        go "plot 0,0 notitle lc rgb " ++ dquote ++ lineColor ++ dquote ++ go " lw 0";
        go "quit"]).

(** The constants of [HpglPlot] and [HpglMultiPlot]: [minMargin = 0.1],
    [100. - minMargin] (the constant 99.9) and [100. - maxMargin]. *)
Definition minMargin : float64 := 0x1.999999999999ap-4.
Definition maxMargin : float64 := 3.
Definition hundred_less_minMargin : float64 := 0x1.8f9999999999ap+6.
Definition hundred_less_maxMargin : float64 := 97.

Definition esc : gostring := [ascii_of_nat 27].
Definition ext : gostring := [ascii_of_nat 3].

Definition fmt_f4 (a b c d : float64) : gostring :=
  fmt_f a ++ go "," ++ fmt_f b ++ go "," ++ fmt_f c ++ go "," ++ fmt_f d.

Definition HpglPlot (angle : float64) (plotTitle : gostring)
    (penWidth : float64) (hpglPath : gostring) (p : package)
  : outcome (package * gostring) :=
  if decide (TurtleCmds p = []) then halt "the turtle commands were not generated"
  else if (angle =? 0)%float then halt "the production angle is zero"
  else if decide (hpglPath = []) then halt "the path for the plot was not specified"
  else
    let titled := negb (bool_decide (plotTitle = [])) in
    let rmargin := minMargin in
    let lmargin := hundred_less_minMargin in
    let bmargin := minMargin in
    let tmargin :=
      if titled then hundred_less_maxMargin else hundred_less_minMargin in
    '(penCmds, b, cmds) ← logo2Hpgl bounds0 (TurtleCmds p) 0 angle;
    let xSpan := (xMax b - xMin b)%float in
    let ySpan := (yMax b - yMin b)%float in
    let maxSpan := math_Max xSpan ySpan in
    let xOffset := (0.5 * (maxSpan - xSpan))%float in
    let yOffset := (0.5 * (maxSpan - ySpan))%float in
    let x0 := (xMin b - xOffset)%float in
    let x1 := (xMax b + xOffset)%float in
    let y0 := (yMin b - yOffset)%float in
    let y1 := (yMax b + yOffset)%float in
    let plotCmds :=
      esc ++ go "%-1BBPIN;" ++ newline
      ++ go "IR" ++ fmt_f4 rmargin bmargin lmargin tmargin ++ go ";" ++ newline
      ++ go "SC" ++ fmt_f4 x0 x1 y0 y1 ++ go ",1;" ++ newline
      ++ go "SP1;WU0;PW" ++ fmt_f penWidth ++ go ";" ++ newline
      ++ penCmds ++ newline in
    let title :=
      if titled then
        go "IR;IR" ++ fmt_f4 rmargin bmargin lmargin hundred_less_minMargin
          ++ go ";" ++ newline
        ++ go "SC" ++ fmt_f4 x0 x1 y0 y1 ++ go ",0;" ++ newline
        ++ go "PU" ++ fmt_f (0.5 * (x0 + x1))%float ++ go "," ++ fmt_f y1
          ++ go ";LO6;LB" ++ plotTitle ++ ext ++ go ";" ++ newline
      else [] in
    Returns (set_TurtleCmds cmds p, plotCmds ++ title ++ go "PG;" ++ newline).

(** *** The multi-plots

    The variables of the loop [for k, v := range turtleCmds].  [v] is a
    copy of the element and the compiler is handed [&v]; the slice is a
    reference into the caller's data and is kept so that its elements
    can be compared before and after.  The request for the offset of
    subplot [k+1] is sent before subplot [k] is compiled and its answer
    read afterwards; a failure on either side ends the process, and the
    model reports the coroutine's when both fail. *)

Record multi_vars (cmd : Type) := {
  mv_turtleCmds : list gostring;      (* the caller's slice *)
  mv_v : gostring;                    (* the loop variable *)
  mv_xOrigin : float64;
  mv_bounds : bounds;                 (* of the compiler's closure *)
  mv_stack : _turtleHistory;          (* of the coroutine *)
  mv_turtle : _turtleStatus;          (* of the coroutine *)
  mv_plotCmds : cmd
}.
#[global] Arguments mv_turtleCmds {cmd} _.
#[global] Arguments mv_v {cmd} _.
#[global] Arguments mv_xOrigin {cmd} _.
#[global] Arguments mv_bounds {cmd} _.
#[global] Arguments mv_stack {cmd} _.
#[global] Arguments mv_turtle {cmd} _.
#[global] Arguments mv_plotCmds {cmd} _.

Definition label_cmd (label : gostring) (xOrigin : float64)
    (lineColor : gostring) : gostring :=
  go "set label " ++ dquote ++ label ++ dquote ++ go " at " ++ fmt_f xOrigin
    ++ go ",character 1 center front tc rgb " ++ dquote ++ lineColor ++ dquote.

(** The turn [k] of the loop of [MultiPlot]. *)
Definition MultiPlot_turn (turtleAngles : list float64) (labels : list gostring)
    (lineColor : gostring) (m : multi_vars (list gostring)) (k : nat)
  : outcome (multi_vars (list gostring)) :=
  let n := length (mv_turtleCmds m) in
  v ← index (mv_turtleCmds m) (Z.of_nat k);
  '(offset, (stack, turtle)) ←
    (if (k + 1 <? n)%nat then
       next ← index (mv_turtleCmds m) (Z.of_nat k + 1);
       a ← index turtleAngles (Z.of_nat k + 1);
       calcXoffset (mv_stack m) (mv_turtle m) next a
     else Returns (0%float, (mv_stack m, mv_turtle m)));
  label ← index labels (Z.of_nat k);
  angle ← index turtleAngles (Z.of_nat k);
  '(drawCmds, b, v') ← logo2Gnuplot lineColor (mv_bounds m) v (mv_xOrigin m) angle;
  Returns
    {| mv_turtleCmds := mv_turtleCmds m;
       mv_v := v';
       mv_xOrigin := if (k + 1 <? n)%nat then (xMax b + offset)%float
                     else mv_xOrigin m;
       mv_bounds := b;
       mv_stack := stack;
       mv_turtle := turtle;
       mv_plotCmds :=
         mv_plotCmds m
         ++ (if decide (label = []) then []
             else [label_cmd label (mv_xOrigin m) lineColor])
         ++ drawCmds |}.

Fixpoint MultiPlot_turns (turtleAngles : list float64) (labels : list gostring)
    (lineColor : gostring) (ks : list nat) (m : multi_vars (list gostring))
  : outcome (multi_vars (list gostring)) :=
  match ks with
  | [] => Returns m
  | k :: ks' =>
      m' ← MultiPlot_turn turtleAngles labels lineColor m k;
      MultiPlot_turns turtleAngles labels lineColor ks' m'
  end.

Definition turtle0 : _turtleStatus := {| HEADING := 0; X := 0; Y := 0 |}.

Definition MultiPlot (turtleCmds : list gostring) (turtleAngles : list float64)
    (terminalCmd outputCmd plotTitle : gostring) (labels : list gostring)
    (lineColor : gostring) (p : package)
  : outcome (multi_vars (list gostring)) :=
  if decide (turtleCmds = []) then halt "the turtle commands were not specified"
  else if decide (turtleAngles = []) then halt "the turtle angles were not stated"
  else if decide (labels = []) then halt "the labels were not specified"
  else if (length turtleAngles <? length turtleCmds)%nat
       then halt "fewer turtle angles specified than the number of commands"
  else if (length labels <? length turtleCmds)%nat
       then halt "fewer labels specified than the number of commands"
  else if negb (validFgColor (_colorNames p) lineColor)
       then halt (invalid_color lineColor)
  else
    let titled := negb (bool_decide (plotTitle = [])) in
    let labelled := negb (bool_decide (concat labels = [])) in
    let plotCmds :=
      [terminalCmd; outputCmd; go "unset border"; go "unset tics";
       go "set bmargin " ++ margin labelled; go "set tmargin " ++ margin titled;
       go "set rmargin " ++ margin false; go "set lmargin " ++ margin false;
       go "set autoscale fix";
       go "set style fill solid 1.0 border rgb " ++ dquote ++ lineColor ++ dquote;
       go "set style arrow 1 nohead lc rgb " ++ dquote ++ lineColor ++ dquote]
      ++ (if titled
          then [go "set title " ++ dquote ++ plotTitle ++ dquote
                  ++ go " tc rgb " ++ dquote ++ lineColor ++ dquote]
          else []) in
    m ← MultiPlot_turns turtleAngles labels lineColor
          (seq 0 (length turtleCmds))
          {| mv_turtleCmds := turtleCmds; mv_v := []; mv_xOrigin := 0;
             mv_bounds := bounds0; mv_stack := []; mv_turtle := turtle0;
             mv_plotCmds := plotCmds |};
    let b := mv_bounds m in
    Returns
      {| mv_turtleCmds := mv_turtleCmds m; mv_v := mv_v m;
         mv_xOrigin := mv_xOrigin m; mv_bounds := b;
         mv_stack := mv_stack m; mv_turtle := mv_turtle m;
         mv_plotCmds :=
           mv_plotCmds m ++
           [go "set xrange [" ++ fmt_f (xMin b) ++ go ":" ++ fmt_f (xMax b) ++ go "]";
            go "set yrange [" ++ fmt_f (yMin b) ++ go ":" ++ fmt_f (yMax b) ++ go "]";
            go "set parametric";
            go "plot 0,0 notitle lc rgb " ++ dquote ++ lineColor ++ dquote
              ++ go " lw 0";
            go "quit"] |}.

Definition yNudge : float64 := 1.

(** The turn [k] of the loop of [HpglMultiPlot]. *)
Definition HpglMultiPlot_turn (turtleAngles : list float64)
    (labels : list gostring) (m : multi_vars gostring) (k : nat)
  : outcome (multi_vars gostring) :=
  let n := length (mv_turtleCmds m) in
  v ← index (mv_turtleCmds m) (Z.of_nat k);
  '(offset, (stack, turtle)) ←
    (if (k + 1 <? n)%nat then
       next ← index (mv_turtleCmds m) (Z.of_nat k + 1);
       a ← index turtleAngles (Z.of_nat k + 1);
       calcXoffset (mv_stack m) (mv_turtle m) next a
     else Returns (0%float, (mv_stack m, mv_turtle m)));
  label ← index labels (Z.of_nat k);
  angle ← index turtleAngles (Z.of_nat k);
  '(drawCmds, b, v') ← logo2Hpgl (mv_bounds m) v (mv_xOrigin m) angle;
  Returns
    {| mv_turtleCmds := mv_turtleCmds m;
       mv_v := v';
       mv_xOrigin := if (k + 1 <? n)%nat then (xMax b + offset)%float
                     else mv_xOrigin m;
       mv_bounds := b;
       mv_stack := stack;
       mv_turtle := turtle;
       mv_plotCmds :=
         mv_plotCmds m
         ++ (if decide (label = []) then []
             else go "PU" ++ fmt_f (mv_xOrigin m) ++ go "," ++ fmt_f (- yNudge)%float
                    ++ go ";LO16;LB" ++ label ++ ext ++ go ";" ++ newline)
         ++ drawCmds |}.

Fixpoint HpglMultiPlot_turns (turtleAngles : list float64)
    (labels : list gostring) (ks : list nat) (m : multi_vars gostring)
  : outcome (multi_vars gostring) :=
  match ks with
  | [] => Returns m
  | k :: ks' =>
      m' ← HpglMultiPlot_turn turtleAngles labels m k;
      HpglMultiPlot_turns turtleAngles labels ks' m'
  end.

Definition HpglMultiPlot (turtleCmds : list gostring)
    (turtleAngles : list float64) (plotTitle : gostring)
    (labels : list gostring) (penWidth : float64) (hpglPath : gostring)
  : outcome (multi_vars gostring) :=
  if decide (turtleCmds = []) then halt "the turtle commands were not specified"
  else if decide (turtleAngles = []) then halt "the turtle angles were not stated"
  else if decide (labels = []) then halt "the labels were not specified"
  else if (length turtleAngles <? length turtleCmds)%nat
       then halt "fewer turtle angles specified than the number of commands"
  else if (length labels <? length turtleCmds)%nat
       then halt "fewer labels specified than the number of commands"
  else if decide (hpglPath = []) then halt "the path for the plot was not specified"
  else
    let titled := negb (bool_decide (plotTitle = [])) in
    let labelled := negb (bool_decide (concat labels = [])) in
    let rmargin := minMargin in
    let lmargin := hundred_less_minMargin in
    let bmargin := if labelled then maxMargin else minMargin in
    let tmargin :=
      if titled then hundred_less_maxMargin else hundred_less_minMargin in
    m ← HpglMultiPlot_turns turtleAngles labels (seq 0 (length turtleCmds))
          {| mv_turtleCmds := turtleCmds; mv_v := []; mv_xOrigin := 0;
             mv_bounds := bounds0; mv_stack := []; mv_turtle := turtle0;
             mv_plotCmds := [] |};
    let b := mv_bounds m in
    Returns
      {| mv_turtleCmds := mv_turtleCmds m; mv_v := mv_v m;
         mv_xOrigin := mv_xOrigin m; mv_bounds := b;
         mv_stack := mv_stack m; mv_turtle := mv_turtle m;
         mv_plotCmds :=
           esc ++ go "%-1BBPIN;" ++ newline
           ++ go "RO90;" ++ newline
           ++ go "IR" ++ fmt_f4 rmargin bmargin lmargin tmargin ++ go ";" ++ newline
           ++ go "SC" ++ fmt_f4 (xMin b) (xMax b) (yMin b) (yMax b)
                ++ go ",0;" ++ newline
           ++ go "SP1;WU0;PW" ++ fmt_f penWidth ++ go ";" ++ newline
           ++ mv_plotCmds m ++ newline
           ++ (if titled then
                 go "PU" ++ fmt_f (0.5 * (xMin b + xMax b))%float ++ go ","
                   ++ fmt_f (yMax b + yNudge)%float
                   ++ go ";LO14;LB" ++ plotTitle ++ ext ++ go ";" ++ newline
               else [])
           ++ go "PG;" |}.

End Turtle.

(** *** [EncodeBgColorName]

    [strings.ToLower] maps the letters [A] to [Z] of a text made of ASCII
    bytes to [a] to [z], byte by byte; what it gives for any other text
    is the business of the Unicode tables of the library and of its
    treatment of bytes that are not UTF-8. *)

Definition is_ASCII (c : ascii) : bool := (N_of_ascii c <? 128)%N.

Definition is_upper (c : ascii) : bool :=
  let n := N_of_ascii c in ((65 <=? n) && (n <=? 90))%N.

Definition lower_byte (c : ascii) : ascii :=
  if is_upper c then ascii_of_N (N_of_ascii c + 32) else c.

Section Colours.

Variable unicode_ToLower : gostring -> gostring.

Definition strings_ToLower (s : gostring) : gostring :=
  if forallb is_ASCII s then List.map lower_byte s else unicode_ToLower s.

(** The message goes on with the list of the recognized names, as in
    [Plot] and [MultiPlot]. *)
Definition EncodeBgColorName (bgColorName : gostring) (p : package)
  : outcome gostring :=
  match _colorNames p !! strings_ToLower bgColorName with
  | Some hexRGB => Returns (go "x" ++ hexRGB)
  | None => halt (invalid_color bgColorName)
  end.

End Colours.

(** ** Vocabulary of the statements *)

(** A package right after [init], before any engine has run, for the
    closed examples: no colour names, and a source whose variates count
    up from 0. *)
Definition counting_source : rand_Source :=
  {| variates := fun i => Z.of_nat i; drawn := 0 |}.

Definition package0 : package :=
  {| TurtleCmds := []; _colorNames := ∅; rand_global := counting_source |}.

(** What an outcome returns, as far as the exported text goes. *)
Definition TurtleCmds_of (o : outcome package) : outcome gostring :=
  p ← o; Returns (TurtleCmds p).

(** The alphabet of [HogewegHesper]. *)
Definition HogewegHesper_symbol_supported (c : ascii) : bool :=
  byte_eqb c "0" || byte_eqb c "1" || byte_eqb c "F" || byte_eqb c "+"
  || byte_eqb c "-" || byte_eqb c "$" || byte_eqb c "[" || byte_eqb c "]".

(** Square brackets properly nested, [depth] of them being open. *)
Fixpoint brackets_balanced_from (depth : nat) (s : gostring) : bool :=
  match s with
  | [] => (depth =? 0)%nat
  | c :: r =>
      if byte_eqb c "[" then brackets_balanced_from (S depth) r
      else if byte_eqb c "]" then
        match depth with
        | O => false
        | S d => brackets_balanced_from d r
        end
      else brackets_balanced_from depth r
  end.

Definition brackets_balanced (s : gostring) : bool :=
  brackets_balanced_from 0 s.

(** The fixed rule of [HogewegHesper] for the turns. *)
Definition swap_turn (c : ascii) : ascii :=
  if byte_eqb c "+" then "-"%char
  else if byte_eqb c "-" then "+"%char else c.

Definition is_turn (c : ascii) : bool := byte_eqb c "+" || byte_eqb c "-".

(** The rule table of example (a) in [main] of [examples3.go]. *)
Definition rules_a : gmap gostring gostring :=
  list_to_map
    [(go "0 < 0 > 0", go "0"); (go "0 < 0 > 1", go "1[+F1F1]");
     (go "0 < 1 > 0", go "1"); (go "0 < 1 > 1", go "1");
     (go "1 < 0 > 0", go "0"); (go "1 < 0 > 1", go "1F1");
     (go "1 < 1 > 0", go "0"); (go "1 < 1 > 1", go "0")].

(** The variates a source has not delivered yet. *)
Definition pending (r : rand_Source) (i : nat) : Z := variates r (drawn r + i).

(** The closed examples walk along the axes, where neither [math.Cos]
    nor [math.Sin] is called.  The properties are stated for every pair
    of functions; where a closed term is needed the pair is this one. *)
Definition off_axis_unused : float64 -> float64 := fun _ => nan.

(** Where the turtle stands. *)
Definition position (t : _turtleStatus) : float64 * float64 := (X t, Y t).

(** [x,y] as [convert2Hpgl] prints a pair of coordinates. *)
Definition hpgl_pair (t : _turtleStatus) : gostring :=
  fmt_f (X t) ++ go "," ++ fmt_f (Y t).

(** How [convert2Hpgl] opens the output of a pen-down move: it goes on
    with a comma after a pen-down move, and starts a [PD] command
    otherwise (after ending the command still open, if any). *)
Definition pen_down_opening (penCmdPrev : gostring) : gostring :=
  if decide (penCmdPrev = go "PD") then go ","
  else if decide (penCmdPrev = []) then go "PD"
  else go ";" ++ newline ++ go "PD".

(** Occurrences of [pat] in [s]. *)
Fixpoint occurrences (pat s : gostring) : nat :=
  match s with
  | [] => 0
  | _ :: r => (if has_prefix pat s then 1 else 0) + occurrences pat r
  end.

(** The symbols the three walks interpret without touching the text or
    jumping: every constant but the parentheses. *)
Definition plain_symbol (c : ascii) : bool :=
  byte_eqb c "F" || byte_eqb c "f" || byte_eqb c "+" || byte_eqb c "-"
  || byte_eqb c "|" || byte_eqb c "$" || byte_eqb c "[" || byte_eqb c "]"
  || byte_eqb c "{" || byte_eqb c "}".

(** What a turn of any of the three walks does to the text and to
    [pos], when the turn succeeds: a plain symbol is stepped over, a
    heading declaration is jumped over, and anything else is removed
    from the whole text while [pos] stays. *)
Definition text_turn (cmds : gostring) (pos : Z) (c : ascii)
  : outcome (gostring * Z) :=
  if plain_symbol c then Returns (cmds, pos + 1)
  else if byte_eqb c "(" then
    '(_, p) ← getHeading cmds pos; Returns (cmds, p + 1)
  else
    cmds' ← remove_variable (string_of_byte c) cmds;
    Returns (cmds', pos - 1 + 1).

(** A one-byte character other than the opening parenthesis. *)
Definition no_heading_symbol (c : ascii) : bool :=
  (N_of_ascii c <? 128)%N && negb (byte_eqb c "(").

(** Two adjacent bytes that are a cancelling pair of turns. *)
Definition is_turn_pair (x y : ascii) : bool :=
  (byte_eqb x "+" && byte_eqb y "-") || (byte_eqb x "-" && byte_eqb y "+").

(** Opening brackets less closing brackets. *)
Fixpoint open_excess (s : gostring) : Z :=
  match s with
  | [] => 0
  | c :: r =>
      (if byte_eqb c "[" then 1 else if byte_eqb c "]" then -1 else 0)
      + open_excess r
  end.

(** The text walked so far holds plain symbols only, and the plain
    symbols of the whole text stay what they were. *)
Definition walked_plain (cmds : gostring) (pos : Z) (kept : gostring) : Prop :=
  0 <= pos <= Z.of_nat (length cmds)
  /\ forallb plain_symbol (take (Z.to_nat pos) cmds) = true
  /\ forallb no_heading_symbol cmds = true
  /\ List.filter plain_symbol cmds = kept.

(** The symbols of [body] that the walks delete (all but the plain ones)
    do not occur in [pre]. *)
Definition variables_apart (pre body : gostring) : bool :=
  forallb (fun x => plain_symbol x || negb (existsb (byte_eqb x) pre)) body.

(** The commands of a plot that place a label or draw a segment. *)
Definition labels_and_arrows (plotCmds : list gostring) : list gostring :=
  List.filter (fun cmd => has_prefix (go "set label") cmd
                          || has_prefix (go "set arrow") cmd) plotCmds.

(** One-byte [old] strings: the rewriting is symbol by symbol. *)
Definition one_byte_olds (r : Replacer) : bool :=
  forallb (fun on : gostring * gostring => (length on.1 =? 1)%nat) r.

(** What a symbol becomes under one-byte rules. *)
Definition successor (r : Replacer) (c : ascii) : gostring :=
  match List.find (fun on : gostring * gostring => bool_decide (on.1 = [c])) r with
  | Some on => on.2
  | None => [c]
  end.

(** The rules of the dragon curve of [demo1.go]. *)
Definition dragon : Replacer :=
  [(go "X", go "X-YF-"); (go "Y", go "+FX+Y")].

(** The constants both scans pass over. *)
Definition passed_over (c : ascii) : bool :=
  byte_eqb c "F" || byte_eqb c "+" || byte_eqb c "-" || byte_eqb c "$".

(** The symbols [HogewegHesper] copies or swaps without a scan. *)
Definition HogewegHesper_constant (c : ascii) : bool :=
  HogewegHesper_symbol_supported c && negb (is_variable c).

(** A text [HogewegHesper] can rewrite: its alphabet, brackets nested. *)
Definition well_formed (s : gostring) : bool :=
  forallb HogewegHesper_symbol_supported s && brackets_balanced s.

Definition replacements_well_formed (rules : gmap gostring gostring) : bool :=
  forallb (fun kv : gostring * gostring => well_formed kv.2) (map_to_list rules).

(** What the walks of [makeLogo2Gnuplot] and [makeLogo2Hpgl] have in
    common: the text, the position in it, the turtle, the stack and the
    bounds. *)
Definition gnuplot_trace (w : gnuplot_walk) :=
  (gp_cmds w, gp_pos w, gp_turtle w, gp_stack w, gp_bounds w).

Definition hpgl_trace (w : hpgl_walk) :=
  (hp_cmds w, hp_pos w, hp_turtle w, hp_stack w, hp_bounds w).

(** The bounds and the text a compiler gives back, its commands apart. *)
Definition bounds_and_text {A} (r : A * bounds * gostring) : bounds * gostring :=
  (r.1.2, r.2).

(** What [calcXoffset] follows of a turtle: its heading and its abscissa;
    and what its walk has in common with the walk of [makeLogo2Gnuplot]. *)
Definition heading_and_X (t : _turtleStatus) : float64 * float64 :=
  (HEADING t, X t).

Definition offset_trace (w : offset_walk) :=
  (ox_cmds w, ox_pos w, heading_and_X (ox_turtle w),
   List.map heading_and_X (ox_stack w), ox_xMin w).

Definition gnuplot_offset_trace (w : gnuplot_walk) :=
  (gp_cmds w, gp_pos w, heading_and_X (gp_turtle w),
   List.map heading_and_X (gp_stack w), xMin (gp_bounds w)).

(* ================================================================== *)
(** * Properties *)
(* ================================================================== *)

(** ** The turn-pair sweep *)

Lemma byte_eqb_eq a b : byte_eqb a b = true <-> a = b.
Proof. apply Ascii.eqb_eq. Qed.

Lemma byte_eqb_refl a : byte_eqb a a = true.
Proof. apply Ascii.eqb_refl. Qed.

Lemma byte_eqb_neq a b : byte_eqb a b = false <-> a <> b.
Proof. apply Ascii.eqb_neq. Qed.

Lemma byte_eqb_sym a b : byte_eqb a b = byte_eqb b a.
Proof. apply Ascii.eqb_sym. Qed.

Lemma turn_pair_prefix x y r :
  has_prefix (go "+-") (x :: y :: r) || has_prefix (go "-+") (x :: y :: r)
  = is_turn_pair x y.
Proof.
  unfold is_turn_pair, go; cbn.
  rewrite !andb_true_r, (byte_eqb_sym x), (byte_eqb_sym y),
          (byte_eqb_sym x "-"), (byte_eqb_sym y "+").
  reflexivity.
Qed.

Lemma remove_pointless_turns_nil : remove_pointless_turns [] = [].
Proof. reflexivity. Qed.

Lemma remove_pointless_turns_one x : remove_pointless_turns [x] = [x].
Proof.
  unfold remove_pointless_turns, Replace, go; cbn.
  rewrite !andb_false_r. reflexivity.
Qed.

Lemma remove_pointless_turns_two x y r :
  remove_pointless_turns (x :: y :: r) =
  if is_turn_pair x y then remove_pointless_turns r
  else x :: remove_pointless_turns (y :: r).
Proof.
  unfold remove_pointless_turns, Replace, is_turn_pair, go; cbn.
  rewrite !andb_true_r, (byte_eqb_sym x), (byte_eqb_sym y),
          (byte_eqb_sym x "-"), (byte_eqb_sym y "+").
  destruct (byte_eqb "+" x) eqn:E1; cbn.
  - destruct (byte_eqb "-" y) eqn:E2; cbn; [reflexivity|].
    apply byte_eqb_eq in E1; subst x.
    change (byte_eqb "-" "+") with false; cbn. reflexivity.
  - destruct (byte_eqb "-" x) eqn:E3; cbn; [|reflexivity].
    destruct (byte_eqb "+" y) eqn:E4; cbn; reflexivity.
Qed.

Lemma has_turn_pair_one x : has_turn_pair [x] = false.
Proof. unfold go; cbn. rewrite !andb_false_r. reflexivity. Qed.

Lemma has_turn_pair_two x y r :
  has_turn_pair (x :: y :: r) = is_turn_pair x y || has_turn_pair (y :: r).
Proof.
  change (has_turn_pair (x :: y :: r))
    with ((has_prefix (go "+-") (x :: y :: r)
           || has_prefix (go "-+") (x :: y :: r)) || has_turn_pair (y :: r)).
  rewrite turn_pair_prefix. reflexivity.
Qed.

(** Induction two bytes at a time, the way the sweep reads its text. *)
Lemma gostring_pair_ind (P : gostring -> Prop) :
  P [] -> (forall x, P [x]) ->
  (forall x y r, P r -> P (y :: r) -> P (x :: y :: r)) ->
  forall s, P s.
Proof.
  intros H0 H1 H2 s.
  assert (H : P s /\ forall x, P (x :: s)); [|apply H].
  induction s as [|y r [IHr IHyr]]; [split; [exact H0 | exact H1]|].
  split; [apply IHyr|].
  intro x. apply H2; [exact IHr | apply IHyr].
Qed.

Lemma remove_pointless_turns_length s :
  (length (remove_pointless_turns s) <= length s)%nat.
Proof.
  induction s as [|x|x y r IHr IHyr] using gostring_pair_ind.
  - reflexivity.
  - rewrite remove_pointless_turns_one. reflexivity.
  - rewrite remove_pointless_turns_two.
    destruct (is_turn_pair x y); cbn [length] in *; lia.
Qed.

Lemma remove_pointless_turns_fixed s :
  remove_pointless_turns s = s <-> has_turn_pair s = false.
Proof.
  induction s as [|x|x y r IHr IHyr] using gostring_pair_ind.
  - split; reflexivity.
  - rewrite remove_pointless_turns_one, has_turn_pair_one. split; reflexivity.
  - rewrite remove_pointless_turns_two, has_turn_pair_two.
    destruct (is_turn_pair x y); cbn [orb].
    + split; [|discriminate].
      intro E. pose proof (remove_pointless_turns_length r) as L.
      rewrite E in L. cbn [length] in L. lia.
    + rewrite <- IHyr. split; [intros [= E]; exact E | intros ->; reflexivity].
Qed.

Lemma remove_pointless_turns_shortens s :
  has_turn_pair s = true ->
  (length (remove_pointless_turns s) < length s)%nat.
Proof.
  intro H.
  destruct (Nat.eq_dec (length (remove_pointless_turns s)) (length s)) as [E|N].
  - exfalso. revert H E.
    induction s as [|x|x y r IHr IHyr] using gostring_pair_ind.
    + discriminate.
    + rewrite has_turn_pair_one. discriminate.
    + rewrite remove_pointless_turns_two, has_turn_pair_two.
      destruct (is_turn_pair x y); cbn [orb length].
      * intros _ E. pose proof (remove_pointless_turns_length r). lia.
      * intros H E. apply IHyr; [exact H | cbn [length] in *; lia].
  - pose proof (remove_pointless_turns_length s). lia.
Qed.

Lemma sweeps_reach_a_fixed_text n : forall s,
  (length s <= n)%nat ->
  has_turn_pair (Nat.iter n remove_pointless_turns s) = false.
Proof.
  induction n as [|n IH]; intros s L.
  - destruct s; [reflexivity | cbn in L; lia].
  - rewrite Nat.iter_succ_r.
    destruct (has_turn_pair s) eqn:E.
    + apply IH. pose proof (remove_pointless_turns_shortens s E). lia.
    + apply remove_pointless_turns_fixed in E as F. rewrite F.
      clear IH L. induction n as [|n IHn]; [exact E|].
      rewrite Nat.iter_succ_r, F. exact IHn.
Qed.

(** C5, the claim as stated fails: the sweep of ["++--"] leaves ["+-"],
    an adjacent cancelling pair, and a second sweep removes it. *)
Lemma remove_pointless_turns_leaves_a_pair :
  remove_pointless_turns (go "++--") = go "+-"
  /\ has_turn_pair (remove_pointless_turns (go "++--")) = true
  /\ remove_pointless_turns (remove_pointless_turns (go "++--"))
     <> remove_pointless_turns (go "++--").
Proof. vm_compute. split; [reflexivity|]. split; [reflexivity | discriminate]. Qed.

(** C5 (amended): the preprocessing is one sweep from the left that drops
    the non-overlapping cancelling pairs it meets.  A text is left as it
    is exactly when it holds no adjacent [+-] or [-+]; on such a text,
    and on any result that holds none, a second sweep changes nothing; a
    sweep never lengthens the text, and sweeping again and again (as
    often as the text is long) ends in a text without such a pair. *)
Theorem remove_pointless_turns_one_sweep (s : gostring) :
  (remove_pointless_turns s = s <-> has_turn_pair s = false)
  /\ (has_turn_pair (remove_pointless_turns s) = false ->
      remove_pointless_turns (remove_pointless_turns s)
      = remove_pointless_turns s)
  /\ (length (remove_pointless_turns s) <= length s)%nat
  /\ has_turn_pair (Nat.iter (length s) remove_pointless_turns s) = false.
Proof.
  split; [apply remove_pointless_turns_fixed|].
  split; [apply remove_pointless_turns_fixed|].
  split; [apply remove_pointless_turns_length|].
  apply sweeps_reach_a_fixed_text. reflexivity.
Qed.

(** ** Outcomes *)

Lemma bind_Returns {A B} (o : outcome A) (k : A -> outcome B) (b : B) :
  o ≫= k = Returns b <-> exists a, o = Returns a /\ k a = Returns b.
Proof.
  destruct o as [a|f]; cbn.
  - split; [intro H; exists a; auto | intros (a' & [= <-] & H); exact H].
  - split; [discriminate | intros (a' & [=] & _)].
Qed.

Lemma Returns_bind {A B} (a : A) (k : A -> outcome B) : Returns a ≫= k = k a.
Proof. reflexivity. Qed.

Lemma bind_Fails {A B} (o : outcome A) (k : A -> outcome B) (f : failure) :
  o = Fails f -> o ≫= k = Fails f.
Proof. intros ->. reflexivity. Qed.

Lemma index_Returns {A} (a : list A) (i : nat) (x : A) :
  a !! i = Some x -> index a (Z.of_nat i) = Returns x.
Proof.
  intro H. unfold index.
  destruct (Z.ltb_spec (Z.of_nat i) 0); [lia|].
  rewrite Nat2Z.id, H. reflexivity.
Qed.

(** ** HogewegHesper with an empty rule table *)

Lemma open_excess_app a b : open_excess (a ++ b) = open_excess a + open_excess b.
Proof. induction a as [|c a IH]; cbn [open_excess app]; lia. Qed.

Lemma open_excess_rev a : open_excess (rev a) = open_excess a.
Proof.
  induction a as [|c a IH]; [reflexivity|].
  cbn [rev]. rewrite open_excess_app, IH. cbn [open_excess]. lia.
Qed.

Lemma balanced_from_excess s : forall d,
  brackets_balanced_from d s = true ->
  Z.of_nat d + open_excess s = 0
  /\ forall n, 0 <= Z.of_nat d + open_excess (take n s).
Proof.
  induction s as [|c r IH]; intros d H.
  - cbn in H. apply Nat.eqb_eq in H. subst d.
    split; [reflexivity|]. intro n. rewrite take_nil. reflexivity.
  - cbn [brackets_balanced_from] in H. cbn [open_excess].
    destruct (byte_eqb c "[") eqn:Eo.
    + apply IH in H as [T P]. split; [lia|].
      intros [|n]; cbn [take open_excess]; [lia|].
      rewrite Eo. specialize (P n). lia.
    + destruct (byte_eqb c "]") eqn:Ec.
      * destruct d as [|d]; [discriminate|].
        apply IH in H as [T P]. split; [lia|].
        intros [|n]; cbn [take open_excess]; [lia|].
        rewrite Eo, Ec. specialize (P n). lia.
      * apply IH in H as [T P]. split; [lia|].
        intros [|n]; cbn [take open_excess]; [lia|].
        rewrite Eo, Ec. specialize (P n). lia.
Qed.

Lemma supported_cases c :
  HogewegHesper_symbol_supported c = true ->
  c = "0"%char \/ c = "1"%char \/ c = "F"%char \/ c = "+"%char
  \/ c = "-"%char \/ c = "$"%char \/ c = "["%char \/ c = "]"%char.
Proof.
  unfold HogewegHesper_symbol_supported.
  rewrite !orb_true_iff, !byte_eqb_eq. tauto.
Qed.

Ltac supported_cases c H :=
  apply supported_cases in H;
  destruct H as [H|[H|[H|[H|[H|[H|[H|H]]]]]]]; subst c.

Lemma getContextLHS_scan_returns l : forall d,
  forallb HogewegHesper_symbol_supported l = true ->
  (forall k, 0 <= open_excess (drop k l)) ->
  Z.of_nat d <= open_excess l ->
  exists ctx, getContextLHS_scan d l = Returns ctx.
Proof.
  induction l as [|c l IH]; intros d Hs Hk Hd.
  - cbn in Hd. destruct d; [exists []; reflexivity | lia].
  - cbn [forallb] in Hs. apply andb_true_iff in Hs as [Hc Hs].
    pose proof (Hk 0%nat) as H0. pose proof (Hk 1%nat) as H1.
    cbn [drop] in H0, H1. rewrite drop_0 in H1.
    assert (Hk' : forall k, 0 <= open_excess (drop k l))
      by (intro k; apply (Hk (S k))).
    cbn [open_excess] in Hd, H0.
    destruct d as [|u]; supported_cases c Hc;
      cbn [getContextLHS_scan]; unfold byte_eqb in *; cbn in *;
      try (eexists; reflexivity); apply IH; auto; lia.
Qed.

Lemma getContextRHS_scan_returns l : forall d,
  forallb HogewegHesper_symbol_supported l = true ->
  (forall k, open_excess (drop k l) <= 0) ->
  Z.of_nat d + open_excess l <= 0 ->
  exists ctx, getContextRHS_scan d l = Returns ctx.
Proof.
  induction l as [|c l IH]; intros d Hs Hk Hd.
  - cbn in Hd. destruct d; [exists []; reflexivity | lia].
  - cbn [forallb] in Hs. apply andb_true_iff in Hs as [Hc Hs].
    pose proof (Hk 0%nat) as H0. pose proof (Hk 1%nat) as H1.
    cbn [drop] in H0, H1. rewrite drop_0 in H1.
    assert (Hk' : forall k, open_excess (drop k l) <= 0)
      by (intro k; apply (Hk (S k))).
    cbn [open_excess] in Hd, H0.
    destruct d as [|u]; supported_cases c Hc;
      cbn [getContextRHS_scan]; unfold byte_eqb in *; cbn in *;
      try (eexists; reflexivity); apply IH; auto; lia.
Qed.

Lemma swap_turn_supported c :
  HogewegHesper_symbol_supported (swap_turn c)
  = HogewegHesper_symbol_supported c.
Proof.
  unfold swap_turn.
  destruct (byte_eqb c "+") eqn:Ep; [apply byte_eqb_eq in Ep; subst c; reflexivity|].
  destruct (byte_eqb c "-") eqn:Em; [apply byte_eqb_eq in Em; subst c; reflexivity|].
  reflexivity.
Qed.

Lemma swap_turn_bracket c b :
  b = "["%char \/ b = "]"%char ->
  byte_eqb (swap_turn c) b = byte_eqb c b.
Proof.
  intro Hb. unfold swap_turn.
  destruct (byte_eqb c "+") eqn:Ep;
    [apply byte_eqb_eq in Ep; subst c; destruct Hb; subst b; reflexivity|].
  destruct (byte_eqb c "-") eqn:Em;
    [apply byte_eqb_eq in Em; subst c; destruct Hb; subst b; reflexivity|].
  reflexivity.
Qed.

Lemma swap_turn_involutive c : swap_turn (swap_turn c) = c.
Proof.
  unfold swap_turn.
  destruct (byte_eqb c "+") eqn:Ep; [apply byte_eqb_eq in Ep; subst c; reflexivity|].
  destruct (byte_eqb c "-") eqn:Em; [apply byte_eqb_eq in Em; subst c; reflexivity|].
  rewrite Ep, Em. reflexivity.
Qed.

Lemma map_swap_turn_supported s :
  forallb HogewegHesper_symbol_supported (map swap_turn s)
  = forallb HogewegHesper_symbol_supported s.
Proof.
  induction s as [|c s IH]; [reflexivity|].
  cbn [map forallb]. rewrite swap_turn_supported, IH. reflexivity.
Qed.

Lemma map_swap_turn_balanced s : forall d,
  brackets_balanced_from d (map swap_turn s) = brackets_balanced_from d s.
Proof.
  induction s as [|c s IH]; intro d; [reflexivity|].
  cbn [map brackets_balanced_from].
  rewrite !swap_turn_bracket by auto.
  destruct (byte_eqb c "["); [apply IH|].
  destruct (byte_eqb c "]"); [destruct d; [reflexivity | apply IH] | apply IH].
Qed.

Lemma map_swap_turn_involutive s : map swap_turn (map swap_turn s) = s.
Proof.
  induction s as [|c s IH]; [reflexivity|].
  cbn [map]. rewrite swap_turn_involutive, IH. reflexivity.
Qed.

Lemma map_swap_turn_without_turns s :
  forallb (fun c => negb (is_turn c)) s = true -> map swap_turn s = s.
Proof.
  induction s as [|c s IH]; [reflexivity|].
  cbn [forallb map]. intros [Hc Hs]%andb_true_iff.
  rewrite (IH Hs). f_equal.
  unfold is_turn in Hc. apply negb_true_iff, orb_false_iff in Hc as [Hp Hm].
  unfold swap_turn. rewrite Hp, Hm. reflexivity.
Qed.

(** With no rule in the table a supported symbol of a text with nested
    brackets is copied, a turn apart, which is swapped. *)
Lemma HogewegHesper_symbol_no_rules s pre c rhs :
  forallb HogewegHesper_symbol_supported s = true ->
  brackets_balanced s = true ->
  s = pre ++ c :: rhs ->
  HogewegHesper_symbol ∅ (rev pre) c rhs = Returns [swap_turn c].
Proof.
  intros Hs Hb E.
  apply balanced_from_excess in Hb as [Ht Hp]. cbn in Ht, Hp.
  assert (Hc : HogewegHesper_symbol_supported c = true).
  { rewrite E, forallb_app in Hs. cbn [forallb] in Hs.
    apply andb_true_iff in Hs as [_ [Hc _]%andb_true_iff]. exact Hc. }
  assert (Hl : exists l, getContextLHS_scan 0 (rev pre) = Returns l).
  { apply getContextLHS_scan_returns.
    - rewrite E, forallb_app in Hs. apply andb_true_iff in Hs as [Hs _].
      rewrite forallb_forall in *. intros x Hx. apply Hs.
      apply in_rev. exact Hx.
    - intro k. rewrite skipn_rev, open_excess_rev.
      specialize (Hp (length pre - k)%nat).
      rewrite E, take_app_le in Hp by lia. exact Hp.
    - rewrite open_excess_rev. specialize (Hp (length pre)).
      rewrite E, take_app_length in Hp. cbn. exact Hp. }
  assert (Hr : exists r, getContextRHS_scan 0 rhs = Returns r).
  { assert (Hk : forall k, open_excess (drop k rhs) <= 0).
    { intro k. specialize (Hp (length pre + 1 + k)%nat).
      rewrite <- (take_drop (length pre + 1 + k) s), open_excess_app in Ht.
      replace (drop (length pre + 1 + k) s) with (drop k rhs) in Ht; [lia|].
      rewrite E. rewrite <- Nat.add_assoc, <- drop_drop.
      rewrite drop_app_length. reflexivity. }
    apply getContextRHS_scan_returns.
    - rewrite E, forallb_app in Hs. cbn [forallb] in Hs.
      apply andb_true_iff in Hs as [_ [_ Hs]%andb_true_iff]. exact Hs.
    - exact Hk.
    - specialize (Hk 0%nat). rewrite drop_0 in Hk. cbn. exact Hk. }
  destruct Hl as [l Hl], Hr as [r Hr].
  unfold HogewegHesper_symbol. supported_cases c Hc;
    unfold byte_eqb; cbn; try reflexivity;
    rewrite Hl; cbn; rewrite Hr; cbn; rewrite lookup_empty; reflexivity.
Qed.

Lemma HogewegHesper_generation_no_rules s :
  forallb HogewegHesper_symbol_supported s = true ->
  brackets_balanced s = true ->
  forall rest pre, s = pre ++ rest ->
  HogewegHesper_generation ∅ (rev pre) rest = Returns (map swap_turn rest).
Proof.
  intros Hs Hb rest. induction rest as [|c rhs IH]; intros pre E; [reflexivity|].
  cbn [HogewegHesper_generation map].
  rewrite (HogewegHesper_symbol_no_rules s pre c rhs Hs Hb E). cbn.
  specialize (IH (pre ++ [c])). rewrite rev_app_distr in IH. cbn in IH.
  rewrite IH; [reflexivity|]. rewrite <- app_assoc. exact E.
Qed.

Lemma HogewegHesper_generations_no_rules n : forall s,
  forallb HogewegHesper_symbol_supported s = true ->
  brackets_balanced s = true ->
  HogewegHesper_generations n ∅ s
  = Returns (if Nat.even n then s else map swap_turn s).
Proof.
  induction n as [|n IH]; intros s Hs Hb; [reflexivity|].
  cbn [HogewegHesper_generations].
  pose proof (HogewegHesper_generation_no_rules s Hs Hb s [] eq_refl) as G.
  cbn [rev] in G. rewrite G, Returns_bind.
  rewrite IH.
  - rewrite Nat.even_succ, <- Nat.negb_even.
    destruct (Nat.even n); cbn; [reflexivity|].
    rewrite map_swap_turn_involutive. reflexivity.
  - rewrite map_swap_turn_supported. exact Hs.
  - unfold brackets_balanced. rewrite map_swap_turn_balanced. exact Hb.
Qed.

Lemma even_of_nat k : Z.even (Z.of_nat k) = Nat.even k.
Proof.
  assert (H : Z.even (Z.of_nat k) = Nat.even k
              /\ Z.even (Z.of_nat (S k)) = Nat.even (S k)); [|apply H].
  induction k as [|k [IH1 IH2]]; [split; reflexivity|].
  split; [exact IH2|].
  rewrite !Nat2Z.inj_succ, Z.even_succ_succ. exact IH1.
Qed.

(** C2, the claim as stated fails: one generation turns the axiom ["+"]
    into ["-"] although the rule table is empty. *)
Lemma HogewegHesper_without_rules_swaps_a_turn :
  TurtleCmds_of (HogewegHesper 1 (go "+") ∅ package0) = Returns (go "-")
  /\ go "-" <> go "+".
Proof. split; [vm_compute; reflexivity | discriminate]. Qed.

(** C2 (amended): with an empty rule table, an order that is not
    negative and a non-empty axiom over [0 1 F + - $ [ ]] whose brackets
    are nested, [HogewegHesper] returns and leaves in [TurtleCmds] the
    axiom with [+] and [-] exchanged once per generation: the axiom itself
    at an even order, the axiom with its turns swapped at an odd one.  An
    axiom without [+] and [-] is therefore unchanged at every order. *)
Theorem HogewegHesper_without_rules (order : Z) (axiom : gostring)
    (p : package) :
  0 <= order ->
  axiom <> [] ->
  forallb HogewegHesper_symbol_supported axiom = true ->
  brackets_balanced axiom = true ->
  HogewegHesper order axiom ∅ p
  = Returns (set_TurtleCmds
               (if Z.even order then axiom else map swap_turn axiom) p)
  /\ (forallb (fun c => negb (is_turn c)) axiom = true ->
      map swap_turn axiom = axiom).
Proof.
  intros Ho Ha Hs Hb. split; [|apply map_swap_turn_without_turns].
  unfold HogewegHesper.
  destruct (Z.ltb_spec order 0); [lia|].
  destruct (decide (axiom = [])); [contradiction|].
  change (rules_specified_correctly ∅) with true. cbn [negb].
  rewrite HogewegHesper_generations_no_rules by assumption. cbn.
  rewrite <- (Z2Nat.id order) at 2 by lia.
  rewrite even_of_nat. reflexivity.
Qed.

Lemma HogewegHesper_without_rules_witness :
  HogewegHesper 3 (go "$F1[+F0]-F1") ∅ package0
  = Returns (set_TurtleCmds (go "$F1[-F0]+F1") package0).
Proof.
  apply (HogewegHesper_without_rules 3 (go "$F1[+F0]-F1") package0);
    [lia | discriminate | reflexivity | reflexivity].
Defined.

(** ** HogewegHesper: a symbol with an empty context *)

Lemma rule_key_matches_shape k :
  rule_key_matches k = true ->
  exists l a r,
    k = [l; " "; "<"; " "; a; " "; ">"; " "; r]%char
    /\ is_variable l = true /\ is_variable a = true /\ is_variable r = true.
Proof.
  destruct k as [|l [|s1 [|lt [|s2 [|a [|s3 [|gt [|s4 [|r [|x k]]]]]]]]]];
    try discriminate.
  cbn. rewrite !andb_true_iff, !byte_eqb_eq.
  intros ((((((((Hl & ->) & ->) & ->) & Ha) & ->) & ->) & ->) & Hr).
  exists l, a, r. auto.
Qed.

(** A rule of a table that passed the check has a key of the pattern. *)
Lemma rules_specified_correctly_lookup rules k v :
  rules_specified_correctly rules = true ->
  rules !! k = Some v ->
  rule_key_matches k = true /\ v <> [].
Proof.
  unfold rules_specified_correctly. rewrite forallb_forall. intros H Hk.
  specialize (H (k, v)). cbn in H.
  assert (Hin : In (k, v) (map_to_list rules)).
  { apply list_elem_of_In, elem_of_map_to_list. exact Hk. }
  apply H in Hin. apply andb_true_iff in Hin as [Hm Hv].
  split; [exact Hm|]. apply negb_true_iff, bool_decide_eq_false in Hv. exact Hv.
Qed.

Lemma context_key_empty_left c r : rule_key_matches (context_key [] [c] r) = false.
Proof. destruct r as [|x [|y [|z r]]]; reflexivity. Qed.

Lemma context_key_empty_right l c : rule_key_matches (context_key l [c] []) = false.
Proof.
  destruct (rule_key_matches (context_key l [c] [])) eqn:E; [|reflexivity].
  apply rule_key_matches_shape in E as (l' & a & r & E & _ & _ & Hr).
  exfalso. unfold context_key, go in E. cbn in E.
  assert (L : last (l ++ [" "; "<"; " "; c; " "; ">"; " "]%char)
              = Some " "%char).
  { rewrite (last_app _ [" "; "<"; " "; c; " "; ">"; " "]%char). reflexivity. }
  rewrite E in L. cbn in L. injection L as ->. discriminate.
Qed.

(** What a context scan can answer: nothing, or a variable of the text. *)
Lemma getContextLHS_scan_answer l : forall d ctx,
  getContextLHS_scan d l = Returns ctx ->
  ctx = [] \/ exists v, ctx = [v] /\ is_variable v = true /\ In v l.
Proof.
  induction l as [|c l IH]; intros d ctx.
  - destruct d; cbn; [intros [= <-]; auto | discriminate].
  - cbn [getContextLHS_scan].
    assert (Hin : forall d', getContextLHS_scan d' l = Returns ctx ->
              ctx = [] \/ exists v, ctx = [v] /\ is_variable v = true
                                    /\ In v (c :: l)).
    { intros d' H. apply IH in H as [H|(v & H1 & H2 & H3)]; [auto|].
      right. exists v. cbn. auto. }
    destruct d as [|u].
    + destruct (byte_eqb c "F" || byte_eqb c "+" || byte_eqb c "-"
                || byte_eqb c "$"); [apply Hin|].
      destruct (byte_eqb c "["); [apply Hin|].
      destruct (byte_eqb c "]"); [apply Hin|].
      destruct (byte_eqb c "0" || byte_eqb c "1") eqn:Ev; [|discriminate].
      intros [= <-]. right. exists c. cbn. auto.
    + destruct (byte_eqb c "["); [apply Hin|].
      destruct (byte_eqb c "]"); apply Hin.
Qed.

Lemma getContextRHS_scan_answer l : forall d ctx,
  getContextRHS_scan d l = Returns ctx ->
  ctx = [] \/ exists v, ctx = [v] /\ is_variable v = true /\ In v l.
Proof.
  induction l as [|c l IH]; intros d ctx.
  - destruct d; cbn; [intros [= <-]; auto | discriminate].
  - cbn [getContextRHS_scan].
    assert (Hin : forall d', getContextRHS_scan d' l = Returns ctx ->
              ctx = [] \/ exists v, ctx = [v] /\ is_variable v = true
                                    /\ In v (c :: l)).
    { intros d' H. apply IH in H as [H|(v & H1 & H2 & H3)]; [auto|].
      right. exists v. cbn. auto. }
    destruct d as [|u].
    + destruct (byte_eqb c "F" || byte_eqb c "+" || byte_eqb c "-"
                || byte_eqb c "$"); [apply Hin|].
      destruct (byte_eqb c "]"); [intros [= <-]; auto|].
      destruct (byte_eqb c "["); [apply Hin|].
      destruct (byte_eqb c "0" || byte_eqb c "1") eqn:Ev; [|discriminate].
      intros [= <-]. right. exists c. cbn. auto.
    + destruct (byte_eqb c "["); [apply Hin|].
      destruct (byte_eqb c "]"); apply Hin.
Qed.

(** C10: once the rule table has passed the check of [HogewegHesper], a
    [0] or [1] one of whose context scans answers the empty context is
    copied unchanged, since no key of the table has an empty side.  A
    scan answers the empty context or one variable of the text it
    scanned, so it answers the empty context whenever it comes to an end
    without meeting a variable: a text without [0] and [1] (the start of
    the string is reached), or a [']'] met first (the top of the
    branch). *)
Theorem HogewegHesper_empty_context_copies (rules : gmap gostring gostring)
    (rev_lhs rhs : gostring) (c : ascii) (l r : gostring) :
  rules_specified_correctly rules = true ->
  is_variable c = true ->
  getContextLHS_scan 0 rev_lhs = Returns l ->
  getContextRHS_scan 0 rhs = Returns r ->
  l = [] \/ r = [] ->
  HogewegHesper_symbol rules rev_lhs c rhs = Returns [c]
  /\ (forallb (fun v => negb (is_variable v)) rev_lhs = true -> l = [])
  /\ (forallb (fun v => negb (is_variable v)) rhs = true -> r = [])
  /\ (forall rest, getContextRHS_scan 0 ("]"%char :: rest) = Returns []).
Proof.
  intros Hrules Hc Hl Hr Hempty.
  split; [|split; [|split]].
  - unfold HogewegHesper_symbol.
    assert (Hv : byte_eqb c "0" || byte_eqb c "1" = true) by exact Hc.
    assert (Hn : byte_eqb c "F" || byte_eqb c "[" || byte_eqb c "]"
                 || byte_eqb c "$" = false
                 /\ byte_eqb c "+" = false /\ byte_eqb c "-" = false).
    { apply orb_true_iff in Hv as [E|E]; apply byte_eqb_eq in E; subst c;
        repeat split; reflexivity. }
    destruct Hn as (-> & -> & ->). rewrite Hv, Hl, Returns_bind, Hr, Returns_bind.
    destruct (rules !! context_key l [c] r) as [v|] eqn:E; [|reflexivity].
    apply (rules_specified_correctly_lookup _ _ _ Hrules) in E as [E _].
    destruct Hempty; subst.
    + rewrite context_key_empty_left in E. discriminate.
    + rewrite context_key_empty_right in E. discriminate.
  - intro Hno. apply getContextLHS_scan_answer in Hl as [H|(v & _ & Hv & Hin)];
      [exact H|].
    rewrite forallb_forall in Hno. apply Hno in Hin. rewrite Hv in Hin.
    discriminate.
  - intro Hno. apply getContextRHS_scan_answer in Hr as [H|(v & _ & Hv & Hin)];
      [exact H|].
    rewrite forallb_forall in Hno. apply Hno in Hin. rewrite Hv in Hin.
    discriminate.
  - reflexivity.
Qed.

Lemma HogewegHesper_empty_context_copies_witness :
  HogewegHesper_symbol rules_a (rev (go "$F")) "1" (go "F1F1")
  = Returns ["1"%char].
Proof.
  apply (HogewegHesper_empty_context_copies rules_a (rev (go "$F"))
           (go "F1F1") "1" [] (go "1"));
    [vm_compute; reflexivity | reflexivity | reflexivity | reflexivity
    | left; reflexivity].
Defined.

(** ** Stochastic *)

(** C1, the code at the failing input: one rule and two weights.  The
    lottery holds an entry for the second weight, and the [F] that draws
    it indexes [rules] out of range. *)
Theorem Stochastic_extra_weight_is_drawn :
  make_selectors 0 [1; 1] = Returns [0; 1]
  /\ Stochastic 1 (go "FF") [go "A"] [1; 1] package0
     = Fails index_out_of_range
  /\ TurtleCmds_of (Stochastic 1 (go "F") [go "A"] [1; 1] package0)
     = Returns (go "A").
Proof. vm_compute. auto. Qed.

(** Two sources with the same pending variates are interchangeable. *)
Lemma rand_Intn_pending r1 r2 n :
  (forall i, pending r1 i = pending r2 i) ->
  match rand_Intn r1 n, rand_Intn r2 n with
  | Returns (x1, r1'), Returns (x2, r2') =>
      x1 = x2 /\ forall i, pending r1' i = pending r2' i
  | Fails f1, Fails f2 => f1 = f2
  | _, _ => False
  end.
Proof.
  intro H. unfold rand_Intn. destruct (n <=? 0); [reflexivity|].
  split.
  - specialize (H 0%nat). unfold pending in H. rewrite !Nat.add_0_r in H.
    rewrite H. reflexivity.
  - intro i. specialize (H (S i)). unfold pending in *. cbn [variates drawn].
    rewrite !Nat.add_succ_r in H. exact H.
Qed.

Lemma Stochastic_generation_pending rules selectors cmds : forall r1 r2,
  (forall i, pending r1 i = pending r2 i) ->
  match Stochastic_generation rules selectors cmds r1,
        Stochastic_generation rules selectors cmds r2 with
  | Returns (s1, r1'), Returns (s2, r2') =>
      s1 = s2 /\ forall i, pending r1' i = pending r2' i
  | Fails f1, Fails f2 => f1 = f2
  | _, _ => False
  end.
Proof.
  induction cmds as [|c cmds IH]; intros r1 r2 H; [cbn; auto|].
  cbn [Stochastic_generation].
  destruct (byte_eqb c "F").
  - pose proof (rand_Intn_pending r1 r2 (Z.of_nat (length selectors)) H) as D.
    destruct (rand_Intn r1 _) as [[x1 r1']|f1], (rand_Intn r2 _) as [[x2 r2']|f2];
      try contradiction; [|exact D].
    destruct D as [<- D]. rewrite !Returns_bind.
    destruct (index selectors x1) as [k|f]; [|reflexivity].
    rewrite !Returns_bind.
    destruct (index rules k) as [rule|f]; [|reflexivity].
    rewrite !Returns_bind. specialize (IH r1' r2' D).
    destruct (Stochastic_generation rules selectors cmds r1') as [[s1 q1]|f1],
             (Stochastic_generation rules selectors cmds r2') as [[s2 q2]|f2];
      try contradiction; [|exact IH].
    destruct IH as [<- IH]. cbn. auto.
  - specialize (IH r1 r2 H).
    destruct (Stochastic_generation rules selectors cmds r1) as [[s1 q1]|f1],
             (Stochastic_generation rules selectors cmds r2) as [[s2 q2]|f2];
      try contradiction; [|exact IH].
    destruct IH as [<- IH]. cbn. auto.
Qed.

Lemma Stochastic_generations_pending n rules selectors : forall cmds r1 r2,
  (forall i, pending r1 i = pending r2 i) ->
  match Stochastic_generations n rules selectors cmds r1,
        Stochastic_generations n rules selectors cmds r2 with
  | Returns (s1, r1'), Returns (s2, r2') =>
      s1 = s2 /\ forall i, pending r1' i = pending r2' i
  | Fails f1, Fails f2 => f1 = f2
  | _, _ => False
  end.
Proof.
  induction n as [|n IH]; intros cmds r1 r2 H; [cbn; auto|].
  cbn [Stochastic_generations].
  pose proof (Stochastic_generation_pending rules selectors cmds r1 r2 H) as G.
  destruct (Stochastic_generation rules selectors cmds r1) as [[s1 q1]|f1],
           (Stochastic_generation rules selectors cmds r2) as [[s2 q2]|f2];
    try contradiction; [|exact G].
  destruct G as [<- G]. rewrite !Returns_bind. apply IH. exact G.
Qed.

(** C4, the claim as stated fails: [Stochastic] takes no seed and draws
    from the process-wide source, which it leaves advanced.  Two
    derivations with the same order, axiom, rules and weights, run one
    after the other in the same process, give ["A"] and then ["B"]. *)
Lemma Stochastic_twice_differs :
  TurtleCmds_of (Stochastic 1 (go "F") [go "A"; go "B"] [1; 1] package0)
  = Returns (go "A")
  /\ TurtleCmds_of
       (p ← Stochastic 1 (go "F") [go "A"; go "B"] [1; 1] package0;
        Stochastic 1 (go "F") [go "A"; go "B"] [1; 1] p)
     = Returns (go "B")
  /\ go "A" <> go "B".
Proof. vm_compute. split; [reflexivity|]. split; [reflexivity | discriminate]. Qed.

(** C4 (amended): [Stochastic] has no seed argument; its random choices
    come from the process-wide source that [init] seeds from the clock.
    The text it leaves in [TurtleCmds] (or its failure) is determined by
    its arguments together with the variates that source has yet to
    deliver: two derivations with the same order, axiom, rules and
    weights, each started where the source is about to deliver the same
    variates, give the same outcome, and leave sources that again agree. *)
Theorem Stochastic_determined_by_pending_variates (order : Z)
    (axiom : gostring) (rules : list gostring) (weights : list Z)
    (p q : package) :
  (forall i, pending (rand_global p) i = pending (rand_global q) i) ->
  TurtleCmds_of (Stochastic order axiom rules weights p)
  = TurtleCmds_of (Stochastic order axiom rules weights q)
  /\ forall p' q',
       Stochastic order axiom rules weights p = Returns p' ->
       Stochastic order axiom rules weights q = Returns q' ->
       forall i, pending (rand_global p') i = pending (rand_global q') i.
Proof.
  intro H. unfold Stochastic.
  destruct (order <? 0); [split; [reflexivity | discriminate]|].
  destruct (decide (axiom = [])); [split; [reflexivity | discriminate]|].
  destruct (decide (rules = [])); [split; [reflexivity | discriminate]|].
  destruct (decide (weights = [])); [split; [reflexivity | discriminate]|].
  destruct (length weights <? length rules)%nat;
    [split; [reflexivity | discriminate]|].
  destruct (make_selectors 0 weights) as [selectors|f];
    [|split; [reflexivity | discriminate]].
  rewrite !Returns_bind.
  pose proof (Stochastic_generations_pending (Z.to_nat order) rules selectors
                axiom (rand_global p) (rand_global q) H) as G.
  destruct (Stochastic_generations _ rules selectors axiom (rand_global p))
    as [[s1 r1]|f1],
    (Stochastic_generations _ rules selectors axiom (rand_global q))
    as [[s2 r2]|f2]; try contradiction.
  - destruct G as [<- G]. split; [reflexivity|].
    cbn. intros p' q' [= <-] [= <-]. exact G.
  - subst f2. split; [reflexivity | discriminate].
Qed.

Lemma Stochastic_determined_by_pending_variates_witness :
  TurtleCmds_of
    (Stochastic 2 (go "$F") [go "F[+F]F[-F]F"; go "F[+F]F"; go "F[-F]F"]
       [3; 4; 4]
       (set_rand {| variates := fun i => Z.of_nat i; drawn := 3 |} package0))
  = TurtleCmds_of
      (Stochastic 2 (go "$F") [go "F[+F]F[-F]F"; go "F[+F]F"; go "F[-F]F"]
         [3; 4; 4]
         (set_TurtleCmds (go "FF")
            (set_rand {| variates := fun i => Z.of_nat (3 + i); drawn := 0 |}
               package0))).
Proof.
  apply (Stochastic_determined_by_pending_variates 2 (go "$F")
           [go "F[+F]F[-F]F"; go "F[+F]F"; go "F[-F]F"] [3; 4; 4]).
  intro i. reflexivity.
Defined.

(** ** The replacer *)

Lemma Replace_from_length olds : forall s k,
  (length (Replace_from olds k s) <= length s)%nat.
Proof.
  induction s as [|c s IH]; intro k; [reflexivity|].
  cbn [Replace_from length]. destruct k as [|k].
  - destruct (find _ olds).
    + specialize (IH (Nat.pred (length g))). lia.
    + specialize (IH 0%nat). cbn [length]. lia.
  - specialize (IH k). lia.
Qed.

Lemma Replace_same_length olds s :
  length (Replace olds s) = length s -> Replace olds s = s.
Proof.
  unfold Replace. induction s as [|c s IH]; [reflexivity|].
  cbn [Replace_from length]. destruct (find _ olds).
  - pose proof (Replace_from_length olds s (Nat.pred (length g))). lia.
  - cbn [length]. intros [= E]. rewrite (IH E). reflexivity.
Qed.

Lemma Replace_from_forallb (P : ascii -> bool) olds : forall s k,
  forallb P s = true -> forallb P (Replace_from olds k s) = true.
Proof.
  induction s as [|c s IH]; intros k H; [reflexivity|].
  cbn [forallb] in H. apply andb_true_iff in H as [Hc Hs].
  cbn [Replace_from]. destruct k as [|k]; [|apply IH; exact Hs].
  destruct (find _ olds); [apply IH; exact Hs|].
  cbn [forallb]. rewrite Hc. apply IH. exact Hs.
Qed.

Lemma Replace_one_byte c s :
  Replace [[c]] s = List.filter (fun x => negb (byte_eqb c x)) s.
Proof.
  unfold Replace. induction s as [|x s IH]; [reflexivity|].
  cbn [Replace_from find has_prefix List.filter].
  rewrite andb_true_r. destruct (byte_eqb c x); cbn [negb length Nat.pred];
    rewrite IH; reflexivity.
Qed.

Lemma remove_variable_shortens symbol cmds cmds' :
  remove_variable symbol cmds = Returns cmds' ->
  cmds' = Replace [symbol] cmds /\ (length cmds' < length cmds)%nat.
Proof.
  unfold remove_variable.
  destruct (decide (Replace [symbol] cmds = cmds)) as [E|N]; [discriminate|].
  intros [= <-]. split; [reflexivity|].
  pose proof (Replace_from_length [symbol] cmds 0).
  destruct (Nat.eq_dec (length (Replace [symbol] cmds)) (length cmds)) as [E|E].
  - apply Replace_same_length in E. contradiction.
  - unfold Replace in *. lia.
Qed.

(** ** What the walks do to their text *)

Lemma symbol_cases c :
  plain_symbol c = true
  \/ c = "("%char
  \/ (plain_symbol c = false /\ byte_eqb c "(" = false).
Proof.
  destruct (plain_symbol c); [auto|].
  destruct (byte_eqb c "(") eqn:E; [apply byte_eqb_eq in E|]; auto.
Qed.

Lemma plain_symbol_false c :
  plain_symbol c = false ->
  byte_eqb c "F" = false /\ byte_eqb c "f" = false /\ byte_eqb c "+" = false
  /\ byte_eqb c "-" = false /\ byte_eqb c "|" = false
  /\ byte_eqb c "$" = false /\ byte_eqb c "[" = false
  /\ byte_eqb c "]" = false /\ byte_eqb c "{" = false
  /\ byte_eqb c "}" = false.
Proof. unfold plain_symbol. rewrite !orb_false_iff. tauto. Qed.

Lemma lookup_of_index {A} (l : list A) (i : Z) (x : A) :
  index l i = Returns x -> 0 <= i /\ l !! Z.to_nat i = Some x.
Proof.
  unfold index. destruct (Z.ltb_spec i 0); [discriminate|].
  destruct (l !! Z.to_nat i); [intros [= ->]; auto | discriminate].
Qed.

Lemma getHeading_advances cmds pos h p :
  getHeading cmds pos = Returns (h, p) -> pos <= p.
Proof.
  unfold getHeading.
  destruct (_reHeading (drop (Z.to_nat pos) cmds)) as [[whole num]|] eqn:E;
    [|discriminate].
  destruct (strconv_ParseFloat num); [|discriminate].
  intros [= _ <-]. unfold _reHeading in E.
  destruct (drop (Z.to_nat pos) cmds) as [|c r]; [discriminate|].
  destruct (byte_eqb c "("); [|discriminate].
  destruct (heading_bytes r) as [[|d n] [|close rest]]; try discriminate.
  destruct (byte_eqb close ")"); [|discriminate].
  injection E as <- _. cbn [length]. lia.
Qed.

(** A successful turn brings [pos] nearer to the end of the text. *)
Lemma text_turn_measure cmds pos c cmds' pos' :
  0 <= pos ->
  text_turn cmds pos c = Returns (cmds', pos') ->
  0 <= pos'
  /\ Z.of_nat (length cmds') - pos' < Z.of_nat (length cmds) - pos.
Proof.
  intros Hpos. unfold text_turn.
  destruct (plain_symbol c); [intros [= <- <-]; lia|].
  destruct (byte_eqb c "(").
  - intros ([h p] & Hh & [= <- <-])%bind_Returns.
    apply getHeading_advances in Hh. lia.
  - intros (x & Hx & [= <- <-])%bind_Returns.
    apply remove_variable_shortens in Hx as [_ Hx]. lia.
Qed.

Lemma filter_filter_plain c s :
  plain_symbol c = false ->
  List.filter plain_symbol (List.filter (fun x => negb (byte_eqb c x)) s)
  = List.filter plain_symbol s.
Proof.
  intro Hc. induction s as [|x s IH]; [reflexivity|].
  cbn [List.filter]. destruct (byte_eqb c x) eqn:E; cbn [negb List.filter].
  - apply byte_eqb_eq in E. subst x. rewrite Hc. exact IH.
  - destruct (plain_symbol x); rewrite IH; reflexivity.
Qed.

Lemma filter_keeps_plain c s :
  plain_symbol c = false ->
  forallb plain_symbol s = true ->
  List.filter (fun x => negb (byte_eqb c x)) s = s.
Proof.
  intros Hc. induction s as [|x s IH]; [reflexivity|].
  cbn [forallb List.filter]. intros [Hx Hs]%andb_true_iff.
  destruct (byte_eqb c x) eqn:E.
  - apply byte_eqb_eq in E. subst x. rewrite Hx in Hc. discriminate.
  - cbn [negb]. rewrite (IH Hs). reflexivity.
Qed.

Lemma text_turn_walked_plain cmds pos c cmds' pos' kept :
  walked_plain cmds pos kept ->
  index cmds pos = Returns c ->
  text_turn cmds pos c = Returns (cmds', pos') ->
  walked_plain cmds' pos' kept.
Proof.
  intros ((Hp0 & Hp1) & Hw & Hn & Hk) Hi.
  apply lookup_of_index in Hi as [_ Hi].
  assert (Hc : no_heading_symbol c = true).
  { rewrite forallb_forall in Hn. apply Hn.
    apply list_elem_of_In, list_elem_of_lookup. eauto. }
  apply andb_true_iff in Hc as [Hb Hc]. apply negb_true_iff in Hc.
  assert (Hlt : (Z.to_nat pos < length cmds)%nat)
    by (apply lookup_lt_is_Some; eauto).
  unfold text_turn. rewrite Hc.
  destruct (plain_symbol c) eqn:Hpl.
  - intros [= <- <-]. repeat split; auto; try lia.
    replace (Z.to_nat (pos + 1)) with (S (Z.to_nat pos)) by lia.
    rewrite (take_S_r _ _ c Hi), forallb_app, Hw. cbn. rewrite Hpl. reflexivity.
  - intros (x & Hx & [= <- <-])%bind_Returns.
    apply remove_variable_shortens in Hx as [-> _].
    unfold string_of_byte. rewrite Hb, Replace_one_byte.
    pose proof (take_drop (Z.to_nat pos) cmds) as E.
    assert (Hlen : length (take (Z.to_nat pos) cmds) = Z.to_nat pos)
      by (rewrite length_take; lia).
    set (pre := take (Z.to_nat pos) cmds) in *.
    set (suf := drop (Z.to_nat pos) cmds) in *.
    clearbody pre suf. subst cmds.
    rewrite List.filter_app, (filter_keeps_plain c _ Hpl Hw).
    rewrite forallb_app in Hn. apply andb_true_iff in Hn as [Hn1 Hn2].
    unfold walked_plain.
    replace (Z.to_nat (pos - 1 + 1)) with (length pre) by lia.
    rewrite take_app_length, length_app, forallb_app, Hn1.
    repeat split; auto; try lia.
    + cbn [andb]. rewrite forallb_forall in *. intros y Hy.
      apply filter_In in Hy as [Hy _]. apply Hn2. exact Hy.
    + rewrite <- Hk, !List.filter_app, filter_filter_plain by exact Hpl.
      reflexivity.
Qed.

Lemma walked_plain_at_the_end cmds pos kept :
  walked_plain cmds pos kept ->
  ~ pos < Z.of_nat (length cmds) ->
  cmds = kept.
Proof.
  intros ((Hp0 & Hp1) & Hw & _ & Hk) Hend.
  rewrite take_ge in Hw by lia.
  rewrite <- Hk. symmetry.
  clear -Hw. induction cmds as [|x s IH]; [reflexivity|].
  cbn [forallb List.filter] in *. apply andb_true_iff in Hw as [-> Hs].
  rewrite (IH Hs). reflexivity.
Qed.

Lemma walked_plain_start s :
  forallb no_heading_symbol s = true ->
  walked_plain (remove_pointless_turns s) 0
    (List.filter plain_symbol (remove_pointless_turns s)).
Proof.
  intro H. repeat split; try lia; try reflexivity.
  apply Replace_from_forallb. exact H.
Qed.

(** ** The replacer in general *)

(** The replacers with empty replacements are replacers. *)
Lemma Replacer_lookup_deleting olds s :
  forallb (fun old : gostring => negb (bool_decide (old = []))) olds = true ->
  forall b,
  Replacer_lookup (List.map (fun old : gostring => (old, @nil ascii)) olds) s b
  = (fun old => (old, [])) <$> List.find (fun old => has_prefix old s) olds.
Proof.
  intros H b. unfold Replacer_lookup.
  induction olds as [|old olds IH]; [reflexivity|].
  cbn [forallb] in H. apply andb_true_iff in H as [Ho H].
  cbn [List.map List.find]. cbn [fst].
  apply negb_true_iff in Ho. rewrite Ho, andb_false_r. cbn [negb].
  rewrite andb_true_r.
  destruct (has_prefix old s); [reflexivity | apply IH; exact H].
Qed.

Lemma find_prefix_nonempty olds s old :
  forallb (fun old : gostring => negb (bool_decide (old = []))) olds = true ->
  List.find (fun old => has_prefix old s) olds = Some old -> old <> [].
Proof.
  intros H F. apply find_some in F as [Hin _].
  rewrite forallb_forall in H. apply H in Hin.
  apply negb_true_iff, bool_decide_eq_false in Hin. exact Hin.
Qed.

Lemma Replace_is_a_Replacer olds s :
  forallb (fun old : gostring => negb (bool_decide (old = []))) olds = true ->
  Replacer_from (List.map (fun old : gostring => (old, @nil ascii)) olds) 0 s = Replace olds s.
Proof.
  intro H. unfold Replace. generalize 0%nat as k.
  induction s as [|c s IH]; intro k.
  - destruct k; [|reflexivity]. cbn [Replacer_from Replace_from].
    unfold Replacer_at. rewrite (Replacer_lookup_deleting olds [] H).
    destruct (List.find _ olds) as [old|] eqn:F; [|reflexivity].
    pose proof (find_prefix_nonempty olds [] old H F) as N.
    apply find_some in F as [_ F]. destruct old; [contradiction | discriminate].
  - cbn [Replacer_from Replace_from]. destruct k as [|k]; [|apply IH].
    unfold Replacer_at. rewrite (Replacer_lookup_deleting olds _ H).
    destruct (List.find _ olds) as [old|] eqn:F; cbn [fmap option_fmap option_map].
    + pose proof (find_prefix_nonempty olds _ old H F) as N.
      destruct old as [|o old]; [contradiction|]. cbn [app]. apply IH.
    + cbn [app]. rewrite IH. reflexivity.
Qed.

(** ** Deterministic *)

Lemma Deterministic_generations_add rules a : forall b cmds,
  Deterministic_generations (a + b) rules cmds
  = Deterministic_generations a rules cmds
      ≫= Deterministic_generations b rules.
Proof.
  induction a as [|a IH]; intros b cmds; [reflexivity|].
  cbn [Nat.add Deterministic_generations].
  destruct (Replacer_Replace rules cmds) as [newCmds|f]; [|reflexivity].
  rewrite !Returns_bind. apply IH.
Qed.

(** X1: a derivation of [Deterministic] can be taken up where it
    stopped.  When the text left after [order1] generations is not
    empty, [order2] generations from that text give what one call of
    order [order1 + order2] gives from the axiom.  (An empty text cannot
    be handed back: the second call would halt for want of an axiom.) *)
Theorem Deterministic_continues_from_its_own_result (order1 order2 : Z)
    (axiom : gostring) (rules : option Replacer) (p p1 : package) :
  0 <= order1 -> 0 <= order2 ->
  Deterministic order1 axiom rules p = Returns p1 ->
  TurtleCmds p1 <> [] ->
  Deterministic (order1 + order2) axiom rules p
  = Deterministic order2 (TurtleCmds p1) rules p1.
Proof.
  intros H1 H2 D N. unfold Deterministic in *.
  destruct (Z.ltb_spec order1 0); [lia|].
  destruct (Z.ltb_spec (order1 + order2) 0); [lia|].
  destruct (Z.ltb_spec order2 0); [lia|].
  destruct (decide (axiom = [])); [discriminate|].
  destruct (decide (TurtleCmds p1 = [])); [contradiction|].
  apply bind_Returns in D as (cmds & D & [= <-]).
  rewrite Z2Nat.inj_add, Deterministic_generations_add, D, Returns_bind by lia.
  cbn [TurtleCmds set_TurtleCmds].
  destruct (Deterministic_generations (Z.to_nat order2) rules cmds);
    reflexivity.
Qed.

Lemma Deterministic_continues_from_its_own_result_witness :
  TurtleCmds_of (Deterministic (2 + 1) (go "$FX") (Some dragon) package0)
  = TurtleCmds_of
      (Deterministic 1 (go "$FX-YF--+FX+YF-") (Some dragon)
         (set_TurtleCmds (go "$FX-YF--+FX+YF-") package0)).
Proof.
  rewrite (Deterministic_continues_from_its_own_result 2 1 (go "$FX")
             (Some dragon) package0
             (set_TurtleCmds (go "$FX-YF--+FX+YF-") package0));
    [reflexivity | lia | lia | reflexivity | discriminate].
Defined.

Lemma Replacer_lookup_one_byte r c s b :
  one_byte_olds r = true ->
  Replacer_lookup r (c :: s) b
  = List.find (fun on : gostring * gostring => bool_decide (on.1 = [c])) r.
Proof.
  unfold one_byte_olds, Replacer_lookup. intro H.
  induction r as [|[old new] r IH]; [reflexivity|].
  cbn [forallb] in H. apply andb_true_iff in H as [Ho H].
  cbn [List.find]. rewrite (IH H). cbn [fst] in *.
  destruct old as [|o [|o' old]]; try discriminate Ho.
  cbn [has_prefix]. rewrite andb_true_r.
  rewrite (bool_decide_eq_false_2 ([o] = [])) by discriminate.
  rewrite andb_false_r. cbn [negb]. rewrite andb_true_r.
  destruct (byte_eqb o c) eqn:E.
  - apply byte_eqb_eq in E. subst o. rewrite bool_decide_eq_true_2 by reflexivity.
    reflexivity.
  - apply byte_eqb_neq in E. rewrite bool_decide_eq_false_2; [reflexivity|].
    intros [= ->]. contradiction.
Qed.

Lemma Replacer_lookup_one_byte_end r b :
  one_byte_olds r = true -> Replacer_lookup r [] b = None.
Proof.
  unfold one_byte_olds, Replacer_lookup. intro H.
  induction r as [|[old new] r IH]; [reflexivity|].
  cbn [forallb] in H. apply andb_true_iff in H as [Ho H].
  cbn [List.find fst] in *. rewrite (IH H).
  destruct old as [|o [|o' old]]; try discriminate Ho. reflexivity.
Qed.

Lemma Replacer_from_one_byte r s :
  one_byte_olds r = true ->
  Replacer_from r 0 s = concat (List.map (successor r) s).
Proof.
  intro H. induction s as [|c s IH].
  - cbn. unfold Replacer_at. rewrite Replacer_lookup_one_byte_end by exact H.
    reflexivity.
  - cbn [Replacer_from List.map concat]. unfold Replacer_at, successor.
    rewrite (Replacer_lookup_one_byte r c s false H).
    destruct (List.find _ r) as [[old new]|] eqn:F.
    + apply find_some in F as [_ F]. apply bool_decide_eq_true in F.
      cbn [fst] in F. subst old. cbn [length Nat.pred snd]. rewrite IH.
      reflexivity.
    + cbn [app]. rewrite IH. reflexivity.
Qed.

Lemma Deterministic_generations_one_byte r n : forall a b,
  one_byte_olds r = true ->
  exists ta tb,
    Deterministic_generations n (Some r) a = Returns ta
    /\ Deterministic_generations n (Some r) b = Returns tb
    /\ Deterministic_generations n (Some r) (a ++ b) = Returns (ta ++ tb).
Proof.
  induction n as [|n IH]; intros a b H.
  - exists a, b. auto.
  - cbn [Deterministic_generations Replacer_Replace]. rewrite !Returns_bind.
    rewrite !Replacer_from_one_byte by exact H.
    rewrite List.map_app, concat_app. apply IH. exact H.
Qed.

(** X2: rules that rewrite single symbols act symbol by symbol.  When
    every [old] string of the replacer is one byte long, the text
    [Deterministic] derives from [a ++ b], at any order, is the text
    derived from [a] followed by the text derived from [b]. *)
Theorem Deterministic_one_symbol_rules_distribute (order : Z)
    (a b : gostring) (rules : Replacer) (p : package) (ta tb : gostring) :
  one_byte_olds rules = true ->
  TurtleCmds_of (Deterministic order a (Some rules) p) = Returns ta ->
  TurtleCmds_of (Deterministic order b (Some rules) p) = Returns tb ->
  TurtleCmds_of (Deterministic order (a ++ b) (Some rules) p)
  = Returns (ta ++ tb).
Proof.
  intros H Da Db. unfold Deterministic, TurtleCmds_of in *.
  destruct (order <? 0); [discriminate|].
  destruct (decide (a = [])) as [|Na]; [discriminate|].
  destruct (decide (b = [])) as [|Nb]; [discriminate|].
  match goal with
  | |- context [@decide ?P ?I] => destruct (@decide P I) as [E|_]
  end; [apply app_eq_nil in E as [E _]; contradiction|].
  destruct (Deterministic_generations_one_byte rules (Z.to_nat order) a b H)
    as (ta' & tb' & Ea & Eb & Eab).
  rewrite Ea in Da. rewrite Eb in Db. rewrite Eab.
  rewrite !Returns_bind in *. cbn [TurtleCmds set_TurtleCmds] in *.
  injection Da as <-. injection Db as <-. reflexivity.
Qed.

Lemma Deterministic_one_symbol_rules_distribute_witness :
  TurtleCmds_of (Deterministic 2 (go "$FX" ++ go "Y") (Some dragon) package0)
  = Returns (go "$FX-YF--+FX+YF-" ++ go "+FX-YF-++FX+Y").
Proof.
  apply (Deterministic_one_symbol_rules_distribute 2 (go "$FX") (go "Y") dragon
           package0); reflexivity.
Defined.

(** ** The lottery of Stochastic *)

Lemma make_selectors_lottery weights : forall k selectors,
  make_selectors k weights = Returns selectors ->
  Z.of_nat (length selectors) = fold_right Z.add 0 weights
  /\ (forall n, In n selectors -> k <= n < k + Z.of_nat (length weights))
  /\ (forall i v, weights !! i = Some v ->
        0 < v
        /\ Z.of_nat (count_occ Z.eq_dec selectors (k + Z.of_nat i)) = v).
Proof.
  induction weights as [|w weights IH]; intros k selectors H.
  - injection H as <-. split; [reflexivity|]. split; [intros n []|].
    intros i v Hi. rewrite lookup_nil in Hi. discriminate.
  - cbn [make_selectors] in H. destruct (Z.ltb_spec 0 w) as [Hw|]; [|discriminate].
    apply bind_Returns in H as (more & Hm & [= <-]).
    apply IH in Hm as (L & R & C).
    split; [|split].
    + rewrite length_app, repeat_length, Nat2Z.inj_add, L. cbn [fold_right]. lia.
    + intros n Hn. apply in_app_or in Hn as [Hn|Hn].
      * apply repeat_spec in Hn. subst n. cbn [length]. lia.
      * apply R in Hn. cbn [length]. lia.
    + intros [|i] v Hi.
      * injection Hi as <-. split; [exact Hw|].
        rewrite Z.add_0_r, count_occ_app, count_occ_repeat_eq by reflexivity.
        rewrite (proj1 (count_occ_not_In Z.eq_dec more k));
          [rewrite Nat.add_0_r; apply Z2Nat.id; lia|].
        intro Hin. apply R in Hin. lia.
      * cbn in Hi. apply C in Hi as [Hv Hi]. split; [exact Hv|].
        rewrite count_occ_app, count_occ_repeat_neq by lia.
        replace (k + Z.of_nat (S i)) with (k + 1 + Z.of_nat i) by lia.
        exact Hi.
Qed.

(** X4: the lottery of [Stochastic].  When the weights pass the check
    the selectors are as many as the weights add up to, each of them is
    an index of [weights], and the index [i] is entered exactly
    [weights[i]] times: of the equally likely draws of [rand.Intn],
    [weights[i]] out of their sum pick the rule [i]. *)
Theorem Stochastic_lottery_holds_each_rule_by_its_weight
    (weights selectors : list Z) :
  make_selectors 0 weights = Returns selectors ->
  Z.of_nat (length selectors) = fold_right Z.add 0 weights
  /\ (forall n, In n selectors -> 0 <= n < Z.of_nat (length weights))
  /\ (forall i v, weights !! i = Some v ->
        Z.of_nat (count_occ Z.eq_dec selectors (Z.of_nat i)) = v).
Proof.
  intro H. apply make_selectors_lottery in H as (L & R & C).
  split; [exact L|]. split; [exact R|].
  intros i v Hi. apply C in Hi as [_ Hi]. exact Hi.
Qed.

Lemma Stochastic_lottery_holds_each_rule_by_its_weight_witness :
  Z.of_nat (length [0; 0; 0; 1; 1; 1; 1; 2; 2; 2; 2]) = 11
  /\ Z.of_nat (count_occ Z.eq_dec [0; 0; 0; 1; 1; 1; 1; 2; 2; 2; 2] 1) = 4.
Proof.
  destruct (Stochastic_lottery_holds_each_rule_by_its_weight [3; 4; 4]
              [0; 0; 0; 1; 1; 1; 1; 2; 2; 2; 2] eq_refl) as (L & _ & C).
  split; [exact L | exact (C 1%nat 4 eq_refl)].
Defined.

Lemma make_selectors_returns weights : forall k,
  forallb (Z.ltb 0) weights = true ->
  exists selectors, make_selectors k weights = Returns selectors.
Proof.
  induction weights as [|w weights IH]; intros k H; [eexists; reflexivity|].
  cbn [forallb] in H. apply andb_true_iff in H as [Hw H].
  cbn [make_selectors]. rewrite Hw.
  destruct (IH (k + 1) H) as [more ->]. eexists. reflexivity.
Qed.

Lemma index_in_range {A} (l : list A) (i : Z) :
  0 <= i < Z.of_nat (length l) -> exists x, index l i = Returns x /\ In x l.
Proof.
  intro H. unfold index. destruct (Z.ltb_spec i 0); [lia|].
  destruct (l !! Z.to_nat i) as [x|] eqn:E.
  - exists x. split; [reflexivity|].
    apply list_elem_of_In, list_elem_of_lookup. eauto.
  - apply lookup_ge_None in E. lia.
Qed.

(** Every draw finds a rule when every selector names one. *)
Lemma Stochastic_generation_returns rules selectors cmds :
  selectors <> [] ->
  (forall n, In n selectors -> 0 <= n < Z.of_nat (length rules)) ->
  forall r, exists out r',
    Stochastic_generation rules selectors cmds r = Returns (out, r').
Proof.
  intros Hne Hsel. induction cmds as [|c cmds IH]; intro r.
  - eexists _, _. reflexivity.
  - cbn [Stochastic_generation]. destruct (byte_eqb c "F").
    + unfold rand_Intn.
      destruct (Z.leb_spec (Z.of_nat (length selectors)) 0) as [Hl|Hl].
      { destruct selectors; [contradiction | cbn [length] in Hl; lia]. }
      rewrite Returns_bind.
      destruct (index_in_range selectors
                  (variates r (drawn r) mod Z.of_nat (length selectors)))
        as (k & -> & Hk).
      { apply Z.mod_pos_bound. lia. }
      rewrite Returns_bind.
      destruct (index_in_range rules k (Hsel k Hk)) as (rule & -> & _).
      rewrite Returns_bind.
      destruct (IH {| variates := variates r; drawn := S (drawn r) |})
        as (out & r' & ->).
      eexists _, _. reflexivity.
    + destruct (IH r) as (out & r' & ->). eexists _, _. reflexivity.
Qed.

Lemma Stochastic_generations_returns rules selectors n :
  selectors <> [] ->
  (forall n, In n selectors -> 0 <= n < Z.of_nat (length rules)) ->
  forall cmds r, exists out r',
    Stochastic_generations n rules selectors cmds r = Returns (out, r').
Proof.
  intros Hne Hsel. induction n as [|n IH]; intros cmds r.
  - eexists _, _. reflexivity.
  - cbn [Stochastic_generations].
    destruct (Stochastic_generation_returns rules selectors cmds Hne Hsel r)
      as (out & r' & ->).
    rewrite Returns_bind. apply IH.
Qed.

(** X5: with as many weights as rules, all of them positive,
    [Stochastic] returns for every order that is not negative, every
    axiom that is not empty and every state of the random source: no
    draw takes [rules] out of range. *)
Theorem Stochastic_returns_with_one_weight_per_rule (order : Z)
    (axiom : gostring) (rules : list gostring) (weights : list Z)
    (p : package) :
  0 <= order ->
  axiom <> [] ->
  rules <> [] ->
  length weights = length rules ->
  forallb (Z.ltb 0) weights = true ->
  exists p', Stochastic order axiom rules weights p = Returns p'.
Proof.
  intros Ho Ha Hr Hl Hw. unfold Stochastic.
  destruct (Z.ltb_spec order 0); [lia|].
  destruct (decide (axiom = [])); [contradiction|].
  destruct (decide (rules = [])); [contradiction|].
  destruct (decide (weights = [])) as [->|Hne];
    [destruct rules; [contradiction | discriminate]|].
  destruct (Nat.ltb_spec (length weights) (length rules)); [lia|].
  destruct (make_selectors_returns weights 0 Hw) as [selectors Hs].
  rewrite Hs, Returns_bind.
  apply make_selectors_lottery in Hs as (L & R & C).
  assert (Hne' : selectors <> []).
  { intros ->. destruct weights as [|w weights]; [contradiction|].
    destruct (C 0%nat w eq_refl) as [Hpos _]. cbn in L.
    cbn [forallb] in Hw. apply andb_true_iff in Hw as [_ Hw].
    assert (G : forall l, forallb (Z.ltb 0) l = true
                          -> 0 <= fold_right Z.add 0 l).
    { clear. induction l as [|x l IH]; cbn; [lia|].
      intros [Hx Hl]%andb_true_iff. apply IH in Hl. apply Z.ltb_lt in Hx. lia. }
    apply G in Hw. lia. }
  assert (Hsel : forall x, In x selectors -> 0 <= x < Z.of_nat (length rules)).
  { intros x Hx. apply R in Hx. lia. }
  destruct (Stochastic_generations_returns rules selectors (Z.to_nat order)
              Hne' Hsel axiom (rand_global p)) as (out & r' & ->).
  eexists. reflexivity.
Qed.

Lemma Stochastic_returns_with_one_weight_per_rule_witness :
  exists p',
    Stochastic 5 (go "$F") [go "F[+F]F[-F]F"; go "F[+F]F"; go "F[-F]F"]
      [3; 4; 4] package0 = Returns p'.
Proof.
  apply (Stochastic_returns_with_one_weight_per_rule 5 (go "$F")
           [go "F[+F]F[-F]F"; go "F[+F]F"; go "F[-F]F"] [3; 4; 4] package0);
    [lia | discriminate | discriminate | reflexivity | reflexivity].
Defined.

(** ** One rule: the derivation is deterministic *)

Lemma Stochastic_generation_one_rule rule w cmds :
  0 < w ->
  forall r : rand_Source, exists r',
    Stochastic_generation [rule] (repeat 0 (Z.to_nat w) ++ []) cmds r
    = Returns (Replacer_from [(go "F", rule)] 0 cmds, r').
Proof.
  intro Hw.
  assert (Hat : forall c s,
            Replacer_at [(go "F", rule)] (c :: s)
            = if byte_eqb c "F" then (rule, Some 1%nat) else ([], None)).
  { intros c s. unfold Replacer_at, Replacer_lookup, go. cbn.
    rewrite andb_true_r, byte_eqb_sym. destruct (byte_eqb c "F"); reflexivity. }
  induction cmds as [|c cmds IH]; intro r.
  - eexists. reflexivity.
  - cbn [Stochastic_generation Replacer_from]. rewrite Hat.
    destruct (byte_eqb c "F").
    + unfold rand_Intn. rewrite app_nil_r, repeat_length.
      destruct (Z.leb_spec (Z.of_nat (Z.to_nat w)) 0); [lia|].
      rewrite Returns_bind.
      set (d := variates r (drawn r) mod Z.of_nat (Z.to_nat w)).
      assert (Hd : 0 <= d < Z.of_nat (Z.to_nat w))
        by (apply Z.mod_pos_bound; lia).
      assert (Hi : index (repeat 0 (Z.to_nat w)) d = Returns 0).
      { unfold index. destruct (Z.ltb_spec d 0); [lia|].
        destruct (repeat 0 (Z.to_nat w) !! Z.to_nat d) as [x|] eqn:E.
        - apply list_elem_of_lookup_2, list_elem_of_In, repeat_spec in E.
          subst x. reflexivity.
        - apply lookup_ge_None in E. rewrite repeat_length in E. lia. }
      rewrite Hi, Returns_bind.
      change (index [rule] 0) with (Returns rule). rewrite Returns_bind.
      specialize (IH {| variates := variates r; drawn := S (drawn r) |}).
      rewrite app_nil_r in IH. destruct IH as [r' ->].
      eexists. reflexivity.
    + destruct (IH r) as [r' ->]. eexists. reflexivity.
Qed.

Lemma Stochastic_generations_one_rule rule w n :
  0 < w ->
  forall cmds r,
    (fun o => o.1) <$>
      Stochastic_generations n [rule] (repeat 0 (Z.to_nat w) ++ []) cmds r
    = Deterministic_generations n (Some [(go "F", rule)]) cmds.
Proof.
  intro Hw. induction n as [|n IH]; intros cmds r; [reflexivity|].
  cbn [Stochastic_generations Deterministic_generations Replacer_Replace].
  destruct (Stochastic_generation_one_rule rule w cmds Hw r) as [r' ->].
  rewrite !Returns_bind. apply IH.
Qed.

(** X3: with one rule [Stochastic] has no choice.  Whatever the random
    source delivers, one rule of positive weight leaves in [TurtleCmds]
    the text that [Deterministic] leaves for the replacer of ["F"] by
    that rule; on a negative order and on an empty axiom both halt with
    the same message. *)
Theorem Stochastic_with_one_rule_is_Deterministic (order : Z)
    (axiom rule : gostring) (w : Z) (p : package) :
  0 < w ->
  TurtleCmds_of (Stochastic order axiom [rule] [w] p)
  = TurtleCmds_of (Deterministic order axiom (Some [(go "F", rule)]) p).
Proof.
  intro Hw. unfold Stochastic, Deterministic, TurtleCmds_of.
  destruct (order <? 0); [reflexivity|].
  destruct (decide (axiom = [])); [reflexivity|].
  destruct (decide ([rule] = [])) as [E|_]; [discriminate E|].
  destruct (decide ([w] = [])) as [E|_]; [discriminate E|].
  cbn [length Nat.ltb Nat.leb make_selectors].
  destruct (Z.ltb_spec 0 w); [|lia]. rewrite !Returns_bind.
  pose proof (Stochastic_generations_one_rule rule w (Z.to_nat order) Hw axiom
                (rand_global p)) as G.
  destruct (Stochastic_generations _ _ _ _ _) as [[out r']|f];
    cbn [fmap outcome_fmap fst] in G; rewrite <- G; reflexivity.
Qed.

Lemma Stochastic_with_one_rule_is_Deterministic_witness :
  TurtleCmds_of (Stochastic 2 (go "F-F") [go "F+F"] [7] package0)
  = TurtleCmds_of
      (Deterministic 2 (go "F-F") (Some [(go "F", go "F+F")]) package0).
Proof.
  apply (Stochastic_with_one_rule_is_Deterministic 2 (go "F-F") (go "F+F") 7
           package0). lia.
Defined.

(** ** The context scans and the branches *)

Lemma getContextRHS_scan_skips body : forall d rest,
  brackets_balanced_from d body = true ->
  getContextRHS_scan (S d) (body ++ "]"%char :: rest)
  = getContextRHS_scan 0 rest.
Proof.
  induction body as [|c body IH]; intros d rest H.
  - cbn in H. apply Nat.eqb_eq in H. subst d. reflexivity.
  - cbn [brackets_balanced_from] in H. cbn [app getContextRHS_scan].
    destruct (byte_eqb c "["); [apply IH; exact H|].
    destruct (byte_eqb c "]"); [|apply IH; exact H].
    destruct d as [|d]; [discriminate|]. apply IH. exact H.
Qed.

Lemma getContextRHS_scan_passes cs : forall rest,
  forallb passed_over cs = true ->
  getContextRHS_scan 0 (cs ++ rest) = getContextRHS_scan 0 rest.
Proof.
  induction cs as [|c cs IH]; intros rest H; [reflexivity|].
  cbn [forallb] in H. apply andb_true_iff in H as [Hc H].
  cbn [app getContextRHS_scan]. unfold passed_over in Hc. rewrite Hc.
  apply IH. exact H.
Qed.

(** X6: [getContextRHS] passes over the constants [F + - $] and skips a
    side branch as a whole.  Before a pair of brackets whose content has
    nested brackets, whatever its bytes, the right context is the right
    context of the text that follows the closing bracket. *)
Theorem getContextRHS_skips_side_branches (cs body rhs : gostring) :
  forallb passed_over cs = true ->
  brackets_balanced body = true ->
  getContextRHS (cs ++ "["%char :: body ++ "]"%char :: rhs) = getContextRHS rhs.
Proof.
  intros Hcs Hb. unfold getContextRHS.
  rewrite getContextRHS_scan_passes by exact Hcs.
  cbn [getContextRHS_scan].
  change (byte_eqb "[" "F" || byte_eqb "[" "+" || byte_eqb "[" "-"
          || byte_eqb "[" "$") with false.
  change (byte_eqb "[" "]") with false. change (byte_eqb "[" "[") with true.
  cbv iota. apply getContextRHS_scan_skips. exact Hb.
Qed.

Lemma getContextRHS_skips_side_branches_witness :
  getContextRHS (go "F+" ++ "["%char :: go "+F1[-F0]F1" ++ "]"%char :: go "-F0F1")
  = getContextRHS (go "-F0F1").
Proof.
  apply (getContextRHS_skips_side_branches (go "F+") (go "+F1[-F0]F1")
           (go "-F0F1")); reflexivity.
Defined.

Lemma getContextLHS_scan_skips body : forall e u more,
  brackets_balanced_from e body = true ->
  getContextLHS_scan (S u) (rev body ++ more)
  = getContextLHS_scan (S u + e) more.
Proof.
  induction body as [|c body IH]; intros e u more H.
  - cbn in H. apply Nat.eqb_eq in H. subst e. cbn [rev app].
    rewrite Nat.add_0_r. reflexivity.
  - cbn [brackets_balanced_from] in H. cbn [rev]. rewrite <- app_assoc.
    cbn [app].
    destruct (byte_eqb c "[") eqn:Eo.
    + rewrite (IH (S e) u (c :: more) H).
      replace (S u + S e)%nat with (S (S u + e)) by lia.
      cbn [getContextLHS_scan]. rewrite Eo. reflexivity.
    + destruct (byte_eqb c "]") eqn:Ec.
      * destruct e as [|e]; [discriminate|].
        rewrite (IH e u (c :: more) H).
        cbn [Nat.add getContextLHS_scan]. rewrite Eo, Ec.
        replace (S (u + S e)) with (S (S (u + e))) by lia. reflexivity.
      * rewrite (IH e u (c :: more) H).
        cbn [Nat.add getContextLHS_scan]. rewrite Eo, Ec. reflexivity.
Qed.

Lemma getContextLHS_scan_passes cs : forall more,
  forallb (fun c => passed_over c || byte_eqb c "[") cs = true ->
  getContextLHS_scan 0 (rev cs ++ more) = getContextLHS_scan 0 more.
Proof.
  induction cs as [|c cs IH]; intros more H; [reflexivity|].
  cbn [forallb] in H. apply andb_true_iff in H as [Hc H].
  cbn [rev]. rewrite <- app_assoc. cbn [app]. rewrite (IH _ H).
  cbn [getContextLHS_scan]. unfold passed_over in Hc.
  destruct (byte_eqb c "F" || byte_eqb c "+" || byte_eqb c "-"
            || byte_eqb c "$"); [reflexivity|].
  cbn [orb] in Hc. rewrite Hc. reflexivity.
Qed.

(** X7: [getContextLHS] skips a completed branch and climbs out of the
    branch it starts in.  At the end of [lhs], a pair of brackets with
    nested content, and then constants and opening brackets only, the
    left context is the left context of [lhs]. *)
Theorem getContextLHS_skips_branches_and_climbs (lhs body cs : gostring) :
  brackets_balanced body = true ->
  forallb (fun c => passed_over c || byte_eqb c "[") cs = true ->
  getContextLHS (lhs ++ "["%char :: body ++ "]"%char :: cs) = getContextLHS lhs.
Proof.
  intros Hb Hcs. unfold getContextLHS.
  replace (lhs ++ "["%char :: body ++ "]"%char :: cs)
    with (lhs ++ ("["%char :: body ++ ["]"%char]) ++ cs)
    by (cbn [app]; rewrite <- app_assoc; reflexivity).
  rewrite !rev_app_distr, <- app_assoc.
  rewrite getContextLHS_scan_passes by exact Hcs.
  cbn [rev]. rewrite rev_app_distr. cbn [rev app].
  rewrite <- !app_assoc. cbn [app getContextLHS_scan].
  change (byte_eqb "]" "F" || byte_eqb "]" "+" || byte_eqb "]" "-"
          || byte_eqb "]" "$") with false.
  change (byte_eqb "]" "[") with false. change (byte_eqb "]" "]") with true.
  cbv iota.
  rewrite (getContextLHS_scan_skips body 0 0 _ Hb).
  cbn [Nat.add getContextLHS_scan]. change (byte_eqb "[" "[") with true.
  reflexivity.
Qed.

Lemma getContextLHS_skips_branches_and_climbs_witness :
  getContextLHS (go "$F1F0" ++ "["%char :: go "+F1[-F0]F1" ++ "]"%char :: go "-[F")
  = getContextLHS (go "$F1F0").
Proof.
  apply (getContextLHS_skips_branches_and_climbs (go "$F1F0")
           (go "+F1[-F0]F1") (go "-[F")); reflexivity.
Defined.

(** An unmatched bracket: the inner loop of a scan leaves the text. *)
Lemma getContextRHS_scan_unmatched body : forall u,
  forallb (fun c => negb (byte_eqb c "]")) body = true ->
  getContextRHS_scan (S u) body = Fails index_out_of_range.
Proof.
  induction body as [|c body IH]; intros u H; [reflexivity|].
  cbn [forallb] in H. apply andb_true_iff in H as [Hc H].
  apply negb_true_iff in Hc. cbn [getContextRHS_scan]. rewrite Hc.
  destruct (byte_eqb c "["); apply IH; exact H.
Qed.

Lemma getContextLHS_scan_unmatched body : forall u,
  forallb (fun c => negb (byte_eqb c "[")) body = true ->
  getContextLHS_scan (S u) body = Fails index_out_of_range.
Proof.
  induction body as [|c body IH]; intros u H; [reflexivity|].
  cbn [forallb] in H. apply andb_true_iff in H as [Hc H].
  apply negb_true_iff in Hc. cbn [getContextLHS_scan]. rewrite Hc.
  destruct (byte_eqb c "]"); apply IH; exact H.
Qed.

Lemma HogewegHesper_constant_piece rules rev_lhs c rhs :
  HogewegHesper_constant c = true ->
  HogewegHesper_symbol rules rev_lhs c rhs = Returns [swap_turn c].
Proof.
  unfold HogewegHesper_constant. intros [Hs Hv]%andb_true_iff.
  apply negb_true_iff in Hv.
  apply supported_cases in Hs.
  destruct Hs as [H|[H|[H|[H|[H|[H|[H|H]]]]]]]; subst c;
    try discriminate Hv; reflexivity.
Qed.

(** Over constants alone a scan finds no variable: it answers the empty
    context or leaves the text. *)
Lemma getContextLHS_scan_constants l : forall d,
  forallb HogewegHesper_constant l = true ->
  getContextLHS_scan d l = Returns []
  \/ getContextLHS_scan d l = Fails index_out_of_range.
Proof.
  induction l as [|c l IH]; intros d H.
  - destruct d; [left | right]; reflexivity.
  - cbn [forallb] in H. apply andb_true_iff in H as [Hc H].
    unfold HogewegHesper_constant in Hc.
    apply andb_true_iff in Hc as [Hs Hv]. apply negb_true_iff in Hv.
    apply supported_cases in Hs.
    destruct Hs as [E|[E|[E|[E|[E|[E|[E|E]]]]]]]; subst c;
      try discriminate Hv; destruct d; cbn [getContextLHS_scan];
      unfold byte_eqb; cbn; apply IH; exact H.
Qed.

Lemma variable_tests v :
  is_variable v = true ->
  byte_eqb v "F" || byte_eqb v "[" || byte_eqb v "]" || byte_eqb v "$" = false
  /\ byte_eqb v "+" = false /\ byte_eqb v "-" = false
  /\ byte_eqb v "0" || byte_eqb v "1" = true.
Proof.
  intro Hv. split; [|split; [|split; [|exact Hv]]];
    apply orb_true_iff in Hv as [E|E]; apply byte_eqb_eq in E; subst v;
    reflexivity.
Qed.

Lemma HogewegHesper_generation_unclosed rules cs : forall rev_lhs v body,
  forallb HogewegHesper_constant cs = true ->
  forallb HogewegHesper_constant rev_lhs = true ->
  is_variable v = true ->
  forallb (fun c => negb (byte_eqb c "]")) body = true ->
  HogewegHesper_generation rules rev_lhs (cs ++ v :: "["%char :: body)
  = Fails index_out_of_range.
Proof.
  induction cs as [|c cs IH]; intros rev_lhs v body Hcs Hl Hv Hb.
  - cbn [app HogewegHesper_generation]. unfold HogewegHesper_symbol.
    destruct (variable_tests v Hv) as (-> & -> & -> & ->).
    destruct (getContextLHS_scan_constants rev_lhs 0 Hl) as [-> | ->];
      [|reflexivity].
    rewrite Returns_bind. cbn [getContextRHS_scan].
    change (byte_eqb "[" "F" || byte_eqb "[" "+" || byte_eqb "[" "-"
            || byte_eqb "[" "$") with false.
    change (byte_eqb "[" "]") with false. change (byte_eqb "[" "[") with true.
    cbv iota. rewrite getContextRHS_scan_unmatched by exact Hb. reflexivity.
  - cbn [forallb] in Hcs. apply andb_true_iff in Hcs as [Hc Hcs].
    cbn [app HogewegHesper_generation].
    rewrite HogewegHesper_constant_piece by exact Hc. rewrite Returns_bind.
    rewrite IH; auto. cbn [forallb]. rewrite Hc, Hl. reflexivity.
Qed.

Lemma HogewegHesper_generation_unopened rules pre : forall rev_lhs cs v rest,
  forallb HogewegHesper_constant pre = true ->
  forallb (fun c => negb (byte_eqb c "[")) pre = true ->
  forallb HogewegHesper_constant rev_lhs = true ->
  forallb (fun c => negb (byte_eqb c "[")) rev_lhs = true ->
  forallb passed_over cs = true ->
  is_variable v = true ->
  HogewegHesper_generation rules rev_lhs (pre ++ "]"%char :: cs ++ v :: rest)
  = Fails index_out_of_range.
Proof.
  induction pre as [|c pre IH]; intros rev_lhs cs v rest Hpre Hno Hl Hlno Hcs Hv.
  - cbn [app HogewegHesper_generation].
    rewrite (HogewegHesper_constant_piece rules rev_lhs "]") by reflexivity.
    rewrite Returns_bind.
    assert (G : forall cs rev_cs,
              forallb passed_over cs = true ->
              forallb passed_over rev_cs = true ->
              HogewegHesper_generation rules (rev_cs ++ "]"%char :: rev_lhs)
                (cs ++ v :: rest) = Fails index_out_of_range).
    { clear cs Hcs. induction cs as [|x cs IHcs]; intros rev_cs Hcs Hrev.
      - cbn [app HogewegHesper_generation]. unfold HogewegHesper_symbol.
        destruct (variable_tests v Hv) as (-> & -> & -> & ->).
        rewrite <- (rev_involutive rev_cs).
        rewrite getContextLHS_scan_passes.
        + cbn [getContextLHS_scan].
          change (byte_eqb "]" "F" || byte_eqb "]" "+" || byte_eqb "]" "-"
                  || byte_eqb "]" "$") with false.
          change (byte_eqb "]" "[") with false.
          change (byte_eqb "]" "]") with true. cbv iota.
          rewrite getContextLHS_scan_unmatched by exact Hlno. reflexivity.
        + rewrite forallb_forall in *. intros y Hy. apply in_rev in Hy.
          rewrite (Hrev y Hy). reflexivity.
      - cbn [forallb] in Hcs. apply andb_true_iff in Hcs as [Hx Hcs].
        cbn [app HogewegHesper_generation].
        rewrite HogewegHesper_constant_piece.
        + rewrite Returns_bind.
          specialize (IHcs (x :: rev_cs) Hcs). cbn [app forallb] in IHcs.
          rewrite IHcs; [reflexivity|]. rewrite Hx, Hrev. reflexivity.
        + unfold HogewegHesper_constant, passed_over in *.
          apply orb_true_iff in Hx as [[[E|E]%orb_true_iff|E]%orb_true_iff|E];
            apply byte_eqb_eq in E; subst x; reflexivity. }
    pose proof (G cs [] Hcs eq_refl) as E. cbn [app] in E. rewrite E.
    reflexivity.
  - cbn [forallb] in Hpre, Hno.
    apply andb_true_iff in Hpre as [Hc Hpre].
    apply andb_true_iff in Hno as [Hcno Hno].
    cbn [app HogewegHesper_generation].
    rewrite HogewegHesper_constant_piece by exact Hc. rewrite Returns_bind.
    rewrite IH; auto; cbn [forallb]; [rewrite Hc, Hl | rewrite Hcno, Hlno];
      reflexivity.
Qed.



(** ** HogewegHesper keeps its texts well formed *)

Lemma balanced_from_app a : forall k d b,
  brackets_balanced_from k a = true ->
  brackets_balanced_from (k + d) (a ++ b) = brackets_balanced_from d b.
Proof.
  induction a as [|c a IH]; intros k d b H.
  - cbn in H. apply Nat.eqb_eq in H. subst k. reflexivity.
  - cbn [brackets_balanced_from app] in *.
    destruct (byte_eqb c "["); [exact (IH (S k) d b H)|].
    destruct (byte_eqb c "]"); [|exact (IH k d b H)].
    destruct k as [|k]; [discriminate|]. exact (IH k d b H).
Qed.

(** Inside a well-formed text both scans come to an answer. *)
Lemma context_scans_return s pre c rhs :
  forallb HogewegHesper_symbol_supported s = true ->
  brackets_balanced s = true ->
  s = pre ++ c :: rhs ->
  (exists l, getContextLHS_scan 0 (rev pre) = Returns l)
  /\ (exists r, getContextRHS_scan 0 rhs = Returns r).
Proof.
  intros Hs Hb E.
  apply balanced_from_excess in Hb as [Ht Hp]. cbn in Ht, Hp.
  split.
  - apply getContextLHS_scan_returns.
    + rewrite E, forallb_app in Hs. apply andb_true_iff in Hs as [Hs _].
      rewrite forallb_forall in *. intros x Hx. apply Hs.
      apply in_rev. exact Hx.
    + intro k. rewrite skipn_rev, open_excess_rev.
      specialize (Hp (length pre - k)%nat).
      rewrite E, take_app_le in Hp by lia. exact Hp.
    + rewrite open_excess_rev. specialize (Hp (length pre)).
      rewrite E, take_app_length in Hp. cbn. exact Hp.
  - assert (Hk : forall k, open_excess (drop k rhs) <= 0).
    { intro k. specialize (Hp (length pre + 1 + k)%nat).
      rewrite <- (take_drop (length pre + 1 + k) s), open_excess_app in Ht.
      replace (drop (length pre + 1 + k) s) with (drop k rhs) in Ht; [lia|].
      rewrite E. rewrite <- Nat.add_assoc, <- drop_drop.
      rewrite drop_app_length. reflexivity. }
    apply getContextRHS_scan_returns.
    + rewrite E, forallb_app in Hs. cbn [forallb] in Hs.
      apply andb_true_iff in Hs as [_ [_ Hs]%andb_true_iff]. exact Hs.
    + exact Hk.
    + specialize (Hk 0%nat). rewrite drop_0 in Hk. cbn. exact Hk.
Qed.

Lemma replacements_well_formed_lookup rules k v :
  replacements_well_formed rules = true ->
  rules !! k = Some v ->
  forallb HogewegHesper_symbol_supported v = true
  /\ brackets_balanced v = true.
Proof.
  unfold replacements_well_formed. rewrite forallb_forall. intros H Hk.
  specialize (H (k, v)). cbn [snd] in H. apply andb_true_iff, H.
  apply list_elem_of_In, elem_of_map_to_list. exact Hk.
Qed.

(** What one symbol of a well-formed text becomes: supported symbols, not
    none, and as many brackets as the symbol itself. *)
Lemma HogewegHesper_symbol_well_formed rules s pre c rhs :
  rules_specified_correctly rules = true ->
  replacements_well_formed rules = true ->
  forallb HogewegHesper_symbol_supported s = true ->
  brackets_balanced s = true ->
  s = pre ++ c :: rhs ->
  exists piece,
    HogewegHesper_symbol rules (rev pre) c rhs = Returns piece
    /\ forallb HogewegHesper_symbol_supported piece = true
    /\ piece <> []
    /\ forall d t, brackets_balanced_from d (piece ++ t)
                   = brackets_balanced_from d (c :: t).
Proof.
  intros Hr Hw Hs Hb E.
  assert (Hc : HogewegHesper_symbol_supported c = true).
  { rewrite E, forallb_app in Hs. cbn [forallb] in Hs.
    apply andb_true_iff in Hs as [_ [Hc _]%andb_true_iff]. exact Hc. }
  destruct (is_variable c) eqn:Hv.
  - destruct (context_scans_return s pre c rhs Hs Hb E) as [[l Hl] [r Hr']].
    unfold HogewegHesper_symbol.
    destruct (variable_tests c Hv) as (-> & -> & -> & ->).
    rewrite Hl, Returns_bind, Hr', Returns_bind.
    assert (Hnb : byte_eqb c "[" = false /\ byte_eqb c "]" = false).
    { apply orb_true_iff in Hv as [X|X]; apply byte_eqb_eq in X; subst c;
        split; reflexivity. }
    destruct Hnb as [Eo Ec].
    destruct (rules !! context_key l [c] r) as [v|] eqn:Ek.
    + destruct (replacements_well_formed_lookup _ _ _ Hw Ek) as [Hvs Hvb].
      destruct (rules_specified_correctly_lookup _ _ _ Hr Ek) as [_ Hne].
      exists v. repeat split; auto.
      intros d t. cbn [brackets_balanced_from]. rewrite Eo, Ec.
      exact (balanced_from_app v 0 d t Hvb).
    + exists [c]. cbn [forallb]. rewrite Hc. repeat split; auto; discriminate.
  - rewrite (HogewegHesper_constant_piece rules (rev pre) c rhs).
    + exists [swap_turn c]. cbn [forallb]. rewrite swap_turn_supported, Hc.
      split; [reflexivity|]. split; [reflexivity|]. split; [discriminate|].
      intros d t. cbn [app brackets_balanced_from].
      rewrite !swap_turn_bracket by auto. reflexivity.
    + unfold HogewegHesper_constant. rewrite Hc, Hv. reflexivity.
Qed.

Lemma HogewegHesper_generation_well_formed rules s :
  rules_specified_correctly rules = true ->
  replacements_well_formed rules = true ->
  forallb HogewegHesper_symbol_supported s = true ->
  brackets_balanced s = true ->
  forall rest pre, s = pre ++ rest ->
  exists out,
    HogewegHesper_generation rules (rev pre) rest = Returns out
    /\ forallb HogewegHesper_symbol_supported out = true
    /\ (rest <> [] -> out <> [])
    /\ forall d, brackets_balanced_from d out = brackets_balanced_from d rest.
Proof.
  intros Hr Hw Hs Hb rest.
  induction rest as [|c rhs IH]; intros pre E.
  - exists []. repeat split; auto.
  - cbn [HogewegHesper_generation].
    destruct (HogewegHesper_symbol_well_formed rules s pre c rhs Hr Hw Hs Hb E)
      as (piece & -> & Hps & Hne & Hpb).
    rewrite Returns_bind.
    destruct (IH (pre ++ [c])) as (out & Hg & Hos & _ & Hob).
    { rewrite <- app_assoc. exact E. }
    rewrite rev_app_distr in Hg. cbn [rev app] in Hg. rewrite Hg, Returns_bind.
    exists (piece ++ out). rewrite forallb_app, Hps, Hos.
    repeat split; auto.
    + intros _ X. apply app_eq_nil in X as [X _]. contradiction.
    + intro d. rewrite Hpb. cbn [brackets_balanced_from].
      destruct (byte_eqb c "["); [apply Hob|].
      destruct (byte_eqb c "]"); [destruct d; [reflexivity | apply Hob]
                                 | apply Hob].
Qed.

Lemma HogewegHesper_generations_well_formed rules n :
  rules_specified_correctly rules = true ->
  replacements_well_formed rules = true ->
  forall s,
    well_formed s = true -> s <> [] ->
    exists cmds,
      HogewegHesper_generations n rules s = Returns cmds
      /\ well_formed cmds = true /\ cmds <> [].
Proof.
  intros Hr Hw. induction n as [|n IH]; intros s Hs Hne.
  - exists s. auto.
  - cbn [HogewegHesper_generations].
    apply andb_true_iff in Hs as [Hs Hb].
    destruct (HogewegHesper_generation_well_formed rules s Hr Hw Hs Hb s []
                eq_refl) as (out & Hg & Hos & Hon & Hob).
    cbn [rev] in Hg. rewrite Hg, Returns_bind. apply IH.
    + unfold well_formed, brackets_balanced. rewrite Hos, Hob. exact Hb.
    + apply Hon. exact Hne.
Qed.

(** X9: [HogewegHesper] keeps its text well formed.  From an axiom that
    is not empty, over [0 1 F + - $ [ ]] and with nested brackets, and a
    rule table that passes the check and whose replacements are such
    texts too, it returns at every order that is not negative, and the
    text it leaves in [TurtleCmds] is again not empty, over that
    alphabet and with nested brackets. *)
Theorem HogewegHesper_keeps_its_text_well_formed (order : Z)
    (axiom : gostring) (rules : gmap gostring gostring) (p : package) :
  0 <= order ->
  axiom <> [] ->
  well_formed axiom = true ->
  rules_specified_correctly rules = true ->
  replacements_well_formed rules = true ->
  exists cmds,
    HogewegHesper order axiom rules p = Returns (set_TurtleCmds cmds p)
    /\ well_formed cmds = true
    /\ cmds <> [].
Proof.
  intros Ho Ha Hs Hr Hw. unfold HogewegHesper.
  destruct (Z.ltb_spec order 0); [lia|].
  destruct (decide (axiom = [])); [contradiction|].
  rewrite Hr. cbn [negb].
  destruct (HogewegHesper_generations_well_formed rules (Z.to_nat order) Hr Hw
              axiom Hs Ha) as (cmds & -> & Hc & Hn).
  exists cmds. auto.
Qed.

Lemma HogewegHesper_keeps_its_text_well_formed_witness :
  exists cmds,
    HogewegHesper 30 (go "$F1F1F1") rules_a package0
    = Returns (set_TurtleCmds cmds package0)
    /\ well_formed cmds = true
    /\ cmds <> [].
Proof.
  apply (HogewegHesper_keeps_its_text_well_formed 30 (go "$F1F1F1") rules_a
           package0);
    [lia | discriminate | reflexivity | vm_compute; reflexivity
    | vm_compute; reflexivity].
Defined.

(** ** What the sweep of the turn pairs keeps *)

Lemma is_turn_pair_turns x y :
  is_turn_pair x y = true ->
  (x = "+"%char /\ y = "-"%char) \/ (x = "-"%char /\ y = "+"%char).
Proof.
  unfold is_turn_pair.
  intros [[Hx Hy]%andb_true_iff|[Hx Hy]%andb_true_iff]%orb_true_iff;
    apply byte_eqb_eq in Hx, Hy; auto.
Qed.

Lemma count_occ_byte (x c : ascii) (l : gostring) :
  Z.of_nat (count_occ ascii_dec (x :: l) c)
  = (if byte_eqb x c then 1 else 0) + Z.of_nat (count_occ ascii_dec l c).
Proof.
  cbn [count_occ]. destruct (ascii_dec x c) as [->|N].
  - rewrite byte_eqb_refl. lia.
  - apply byte_eqb_neq in N. rewrite N. lia.
Qed.

(** X14: the sweep of [makeLogo2Gnuplot], [makeLogo2Hpgl] and
    [calcXoffset] deletes turns only, and as many left turns as right
    turns: the symbols other than [+] and [-] stay as they are and in
    their order, and the left turns less the right turns are as many
    after it as before. *)
Theorem remove_pointless_turns_keeps_the_net_turn (s : gostring) :
  List.filter (fun c => negb (is_turn c)) (remove_pointless_turns s)
  = List.filter (fun c => negb (is_turn c)) s
  /\ Z.of_nat (count_occ ascii_dec (remove_pointless_turns s) "+"%char)
     - Z.of_nat (count_occ ascii_dec (remove_pointless_turns s) "-"%char)
     = Z.of_nat (count_occ ascii_dec s "+"%char)
       - Z.of_nat (count_occ ascii_dec s "-"%char).
Proof.
  induction s as [|x|x y r [IHr1 IHr2] [IHyr1 IHyr2]] using gostring_pair_ind.
  - split; reflexivity.
  - rewrite remove_pointless_turns_one. split; reflexivity.
  - rewrite remove_pointless_turns_two.
    destruct (is_turn_pair x y) eqn:E.
    + apply is_turn_pair_turns in E as [[-> ->]|[-> ->]]; split;
        try exact IHr1; rewrite IHr2, !count_occ_byte;
        change (byte_eqb "+" "+") with true;
        change (byte_eqb "-" "-") with true;
        change (byte_eqb "+" "-") with false;
        change (byte_eqb "-" "+") with false; lia.
    + split.
      * cbn [List.filter]. rewrite IHyr1. reflexivity.
      * rewrite (count_occ_byte x "+" (remove_pointless_turns (y :: r))),
                (count_occ_byte x "-" (remove_pointless_turns (y :: r))),
                (count_occ_byte x "+" (y :: r)),
                (count_occ_byte x "-" (y :: r)).
        lia.
Qed.

(** ** EncodeBgColorName *)

Lemma lower_byte_no_capital c : is_upper (lower_byte c) = false.
Proof.
  unfold lower_byte. destruct (is_upper c) eqn:E; [|exact E].
  unfold is_upper in *. apply andb_true_iff in E as [E1 E2].
  apply N.leb_le in E1, E2.
  rewrite N_ascii_embedding by lia.
  apply andb_false_iff. right. apply N.leb_gt. lia.
Qed.

Lemma strings_ToLower_no_capital unicode_ToLower s :
  forallb is_ASCII s = true ->
  existsb is_upper (strings_ToLower unicode_ToLower s) = false.
Proof.
  intro H. unfold strings_ToLower. rewrite H. clear H.
  induction s as [|c s IH]; [reflexivity|].
  cbn [List.map existsb]. rewrite lower_byte_no_capital, IH. reflexivity.
Qed.

(** X15: [EncodeBgColorName] looks a name up without regard to the case
    of its ASCII letters.  Two names of ASCII bytes that differ in case
    only are encoded alike, and an entry of the colour table whose name
    holds a capital letter is never the one found. *)
Theorem EncodeBgColorName_ignores_the_case_of_ASCII_letters
    (unicode_ToLower : gostring -> gostring) (a b : gostring) (p : package) :
  forallb is_ASCII a = true ->
  forallb is_ASCII b = true ->
  List.map lower_byte a = List.map lower_byte b ->
  (forall v, EncodeBgColorName unicode_ToLower a p = Returns v
             <-> EncodeBgColorName unicode_ToLower b p = Returns v)
  /\ (forall key, existsb is_upper key = true ->
                  strings_ToLower unicode_ToLower a <> key).
Proof.
  intros Ha Hb E. split.
  - intro v. unfold EncodeBgColorName, strings_ToLower. rewrite Ha, Hb, E.
    match goal with
    | |- context [match ?o with Some _ => _ | None => _ end] => destruct o
    end; [reflexivity | split; discriminate].
  - intros key Hk <-. rewrite strings_ToLower_no_capital in Hk by exact Ha.
    discriminate.
Qed.

Lemma EncodeBgColorName_ignores_the_case_of_ASCII_letters_witness :
  EncodeBgColorName (fun s => s) (go "Gray90")
    {| TurtleCmds := []; _colorNames := {[ go "gray90" := go "e5e5e5" ]};
       rand_global := counting_source |}
  = Returns (go "xe5e5e5")
  <-> EncodeBgColorName (fun s => s) (go "GRAY90")
        {| TurtleCmds := []; _colorNames := {[ go "gray90" := go "e5e5e5" ]};
           rand_global := counting_source |}
      = Returns (go "xe5e5e5").
Proof.
  apply (proj1 (EncodeBgColorName_ignores_the_case_of_ASCII_letters
                  (fun s => s) (go "Gray90") (go "GRAY90")
                  {| TurtleCmds := [];
                     _colorNames := {[ go "gray90" := go "e5e5e5" ]};
                     rand_global := counting_source |}
                  eq_refl eq_refl eq_refl)).
Defined.

(** ** The turtle walks *)

Section TurtleProperties.

Variables math_Cos math_Sin : float64 -> float64.

(** C7: the walk of ["F+F+F+F"] at 90 degrees.  The four moves take the
    turtle from (0,0) to (1,0), (1,1), (0,1) and back to (0,0), each by
    exactly one unit along one axis, and the bounds are (0, 1, 0, 1). *)
Theorem F_plus_F_plus_F_plus_F_is_the_unit_square (lineColor : gostring) :
  logo2Gnuplot math_Cos math_Sin lineColor bounds0 (go "F+F+F+F") 0 90
  = Returns
      ([go "set arrow as 1 from 0.000000,0.000000 to 1.000000,0.000000";
        go "set arrow as 1 from 1.000000,0.000000 to 1.000000,1.000000";
        go "set arrow as 1 from 1.000000,1.000000 to 0.000000,1.000000";
        go "set arrow as 1 from 0.000000,1.000000 to 0.000000,0.000000"],
       {| xMin := 0; xMax := 1; yMin := 0; yMax := 1 |},
       go "F+F+F+F")
  /\ map (fun n =>
            (fun w => position (gp_turtle w))
              <$> gnuplot_turns math_Cos math_Sin n lineColor 90
                    (gnuplot_start bounds0 (go "F+F+F+F") 0))
         [0; 1; 3; 5; 7]%nat
     = map Returns [(0, 0); (1, 0); (1, 1); (0, 1); (0, 0)]%float.
Proof. split; vm_compute; reflexivity. Qed.

(** *** The pen-plotter *)

Lemma convert2Hpgl_pen_down prev x y :
  convert2Hpgl prev (go "F") x y
  = (pen_down_opening prev ++ fmt_f x ++ go "," ++ fmt_f y, go "PD").
Proof.
  unfold convert2Hpgl, pen_down_opening.
  destruct (decide (go "F" = go "{")) as [E|_]; [discriminate E|].
  destruct (decide (go "F" = go "}")) as [E|_]; [discriminate E|].
  destruct (decide (go "F" = go "F")) as [_|N]; [|contradiction].
  destruct (decide (prev = go "PD")) as [->|N]; [reflexivity|].
  destruct (decide (prev = [])) as [->|N0].
  - reflexivity.
  - rewrite bool_decide_eq_false_2 by exact N0. cbn [negb].
    rewrite <- !app_assoc. reflexivity.
Qed.

Lemma index_middle (pre post : gostring) (c : ascii) :
  index (pre ++ c :: post) (Z.of_nat (length pre)) = Returns c.
Proof.
  apply index_Returns. rewrite lookup_app_r by lia.
  rewrite Nat.sub_diag. reflexivity.
Qed.

Lemma forward_heading t b :
  HEADING (forward math_Cos math_Sin t b).1 = HEADING t.
Proof.
  unfold forward.
  repeat match goal with |- context [if ?c then _ else _] => destruct c end;
    reflexivity.
Qed.

Lemma index_here (cmds : gostring) pos pre c post :
  cmds = pre ++ c :: post -> pos = Z.of_nat (length pre) ->
  index cmds pos = Returns c.
Proof. intros -> ->. apply index_middle. Qed.

Lemma hpgl_turn_F angle w pre post :
  hp_cmds w = pre ++ "F"%char :: post ->
  hp_pos w = Z.of_nat (length pre) ->
  hpgl_turn math_Cos math_Sin angle w
  = Returns
      {| hp_cmds := hp_cmds w;
         hp_pos := hp_pos w + 1;
         hp_turtle := (forward math_Cos math_Sin (hp_turtle w) (hp_bounds w)).1;
         hp_stack := hp_stack w;
         hp_bounds := (forward math_Cos math_Sin (hp_turtle w) (hp_bounds w)).2;
         hp_penCmdPrev := go "PD";
         hp_plotCmds :=
           hp_plotCmds w ++ pen_down_opening (hp_penCmdPrev w)
             ++ hpgl_pair
                  (forward math_Cos math_Sin (hp_turtle w) (hp_bounds w)).1 |}.
Proof.
  intros Hc Hp. unfold hpgl_turn. rewrite Hc at 1. rewrite Hp, index_middle.
  rewrite Returns_bind. unfold hpgl_step.
  change (byte_eqb "F" "F" || byte_eqb "F" "f") with true. cbv iota.
  destruct (forward math_Cos math_Sin (hp_turtle w) (hp_bounds w)) as [moved b].
  change ["F"%char] with (go "F"). rewrite convert2Hpgl_pen_down.
  cbn [fst snd]. rewrite ?Hp. reflexivity.
Qed.

Lemma hpgl_turn_pen_down angle w pre post :
  hp_cmds w = pre ++ "F"%char :: post ->
  hp_pos w = Z.of_nat (length pre) ->
  exists w',
    hpgl_turn math_Cos math_Sin angle w = Returns w'
    /\ hp_cmds w' = hp_cmds w
    /\ hp_pos w' = hp_pos w + 1
    /\ HEADING (hp_turtle w') = HEADING (hp_turtle w)
    /\ hp_penCmdPrev w' = go "PD"
    /\ hp_plotCmds w'
       = hp_plotCmds w ++ pen_down_opening (hp_penCmdPrev w)
           ++ hpgl_pair (hp_turtle w').
Proof.
  intros Hc Hp. eexists. split; [apply (hpgl_turn_F angle w pre post Hc Hp)|].
  cbn [hp_cmds hp_pos hp_turtle hp_penCmdPrev hp_plotCmds].
  rewrite forward_heading. auto.
Qed.

(** C9: three [F] in a row make one pen-down run.  From any state of the
    walk of [makeLogo2Hpgl] standing before ["FFF"], the three turns
    succeed, keep the heading, and append to the pen commands the
    opening of the first move (a comma when the pen was already down, one
    [PD] otherwise) and the three coordinate pairs joined by commas: the
    second and the third move write no [PD].  For the text ["FFF"] the
    body is [PU0,0] followed by one [PD] with the three pairs. *)
Theorem three_F_make_one_PD_run :
  (forall (angle : float64) (w : hpgl_walk) (pre post : gostring),
     hp_cmds w = pre ++ go "FFF" ++ post ->
     hp_pos w = Z.of_nat (length pre) ->
     exists w1 w2 w3,
       hpgl_turns math_Cos math_Sin 1 angle w = Returns w1
       /\ hpgl_turns math_Cos math_Sin 2 angle w = Returns w2
       /\ hpgl_turns math_Cos math_Sin 3 angle w = Returns w3
       /\ HEADING (hp_turtle w1) = HEADING (hp_turtle w)
       /\ HEADING (hp_turtle w2) = HEADING (hp_turtle w)
       /\ HEADING (hp_turtle w3) = HEADING (hp_turtle w)
       /\ hp_plotCmds w3
          = hp_plotCmds w ++ pen_down_opening (hp_penCmdPrev w)
              ++ hpgl_pair (hp_turtle w1) ++ go ","
              ++ hpgl_pair (hp_turtle w2) ++ go ","
              ++ hpgl_pair (hp_turtle w3))
  /\ logo2Hpgl math_Cos math_Sin bounds0 (go "FFF") 0 90
     = Returns
         (go "PU0.000000,0.000000;" ++ newline
            ++ go "PD1.000000,0.000000,2.000000,0.000000,3.000000,0.000000;",
          {| xMin := 0; xMax := 3; yMin := 0; yMax := 0 |},
          go "FFF")
  /\ occurrences (go "PD")
       (go "PU0.000000,0.000000;" ++ newline
          ++ go "PD1.000000,0.000000,2.000000,0.000000,3.000000,0.000000;")
     = 1%nat.
Proof.
  split; [|split; vm_compute; reflexivity].
  intros angle w pre post Hc Hp.
  destruct (hpgl_turn_pen_down angle w pre (go "FF" ++ post) Hc Hp)
    as (w1 & T1 & C1 & P1 & H1 & N1 & O1).
  destruct (hpgl_turn_pen_down angle w1 (pre ++ go "F") (go "F" ++ post))
    as (w2 & T2 & C2 & P2 & H2 & N2 & O2).
  { rewrite C1, Hc, <- app_assoc. reflexivity. }
  { rewrite P1, Hp, length_app, Nat2Z.inj_add. reflexivity. }
  destruct (hpgl_turn_pen_down angle w2 (pre ++ go "FF") post)
    as (w3 & T3 & C3 & P3 & H3 & N3 & O3).
  { rewrite C2, C1, Hc, <- app_assoc. reflexivity. }
  { rewrite P2, P1, Hp, length_app, Nat2Z.inj_add. cbn. lia. }
  exists w1, w2, w3. cbn [hpgl_turns].
  rewrite T1, !Returns_bind, T2, !Returns_bind, T3, !Returns_bind.
  split; [reflexivity|]. split; [reflexivity|]. split; [reflexivity|].
  split; [exact H1|]. split; [congruence|]. split; [congruence|].
  rewrite O3, O2, O1, N1, N2.
  change (pen_down_opening (go "PD")) with (go ",").
  rewrite <- !app_assoc. reflexivity.
Qed.

(** *** Branches *)

Lemma pop_push stack turtle : pop (push stack turtle) = Returns (turtle, stack).
Proof.
  unfold pop, push. rewrite length_app. cbn [length].
  replace (Z.of_nat (length stack + 1) - 1) with (Z.of_nat (length stack))
    by lia.
  rewrite (index_Returns _ _ turtle).
  - rewrite Returns_bind, Nat2Z.id, take_app_length. reflexivity.
  - rewrite lookup_app_r by lia. rewrite Nat.sub_diag. reflexivity.
Qed.

Lemma pop_empty : pop [] = Fails index_out_of_range.
Proof. reflexivity. Qed.

Ltac eval_byte_eqb :=
  repeat match goal with
         | |- context [byte_eqb ?a ?b] =>
             let v := eval vm_compute in (byte_eqb a b) in
             change (byte_eqb a b) with v
         end;
  cbn [orb andb negb].

Lemma convert2Gnuplot_move lineColor polygon symbol x0 y0 x1 y1 :
  exists r,
    convert2Gnuplot lineColor polygon symbol [x0; y0; x1; y1] = Returns r.
Proof.
  unfold convert2Gnuplot.
  repeat match goal with
         | |- context [decide ?P] => destruct (decide P)
         | |- context [negb ?b] => destruct b; cbn [negb]
         end;
    eexists; reflexivity.
Qed.

Lemma plain_symbol_cases c :
  plain_symbol c = true ->
  c = "F"%char \/ c = "f"%char \/ c = "+"%char \/ c = "-"%char
  \/ c = "|"%char \/ c = "$"%char \/ c = "["%char \/ c = "]"%char
  \/ c = "{"%char \/ c = "}"%char.
Proof.
  unfold plain_symbol. rewrite !orb_true_iff, !byte_eqb_eq. tauto.
Qed.

(** A turn of the gnuplot walk at a plain symbol other than [']']. *)
Lemma gnuplot_turn_plain lineColor angle w pre c post :
  gp_cmds w = pre ++ c :: post ->
  gp_pos w = Z.of_nat (length pre) ->
  plain_symbol c = true ->
  c <> "]"%char ->
  exists w',
    gnuplot_turn math_Cos math_Sin lineColor angle w = Returns w'
    /\ gp_cmds w' = gp_cmds w
    /\ gp_pos w' = gp_pos w + 1
    /\ gp_stack w'
       = (if byte_eqb c "[" then push (gp_stack w) (gp_turtle w)
          else gp_stack w)
    /\ (c = "["%char -> gp_turtle w' = gp_turtle w).
Proof.
  intros Hc Hp Hplain Hclose. unfold gnuplot_turn.
  rewrite (index_here _ _ _ _ _ Hc Hp), Returns_bind.
  unfold gnuplot_step.
  apply plain_symbol_cases in Hplain.
  destruct Hplain as [H|[H|[H|[H|[H|[H|[H|[H|[H|H]]]]]]]]]; subst c;
    try contradiction; eval_byte_eqb; cbv iota;
    try (eexists; split; [reflexivity|]; cbn; rewrite ?Hp;
         repeat split; auto; discriminate).
  - destruct (forward math_Cos math_Sin (gp_turtle w) (gp_bounds w))
      as [moved b].
    destruct (convert2Gnuplot_move lineColor (gp_polygon w) ["F"%char]
                (X (gp_turtle w)) (Y (gp_turtle w)) (X moved) (Y moved))
      as [[cmd polygon] E].
    rewrite E, Returns_bind.
    eexists; split; [reflexivity|]; cbn; rewrite ?Hp;
      repeat split; auto; discriminate.
  - destruct (forward math_Cos math_Sin (gp_turtle w) (gp_bounds w))
      as [moved b].
    destruct (convert2Gnuplot_move lineColor (gp_polygon w) ["f"%char]
                (X (gp_turtle w)) (Y (gp_turtle w)) (X moved) (Y moved))
      as [[cmd polygon] E].
    rewrite E, Returns_bind.
    eexists; split; [reflexivity|]; cbn; rewrite ?Hp;
      repeat split; auto; discriminate.
Qed.

(** A turn at [']']: the state pushed last comes back. *)
Lemma gnuplot_turn_close lineColor angle w pre post stack turtle :
  gp_cmds w = pre ++ "]"%char :: post ->
  gp_pos w = Z.of_nat (length pre) ->
  gp_stack w = push stack turtle ->
  exists w',
    gnuplot_turn math_Cos math_Sin lineColor angle w = Returns w'
    /\ gp_cmds w' = gp_cmds w
    /\ gp_pos w' = gp_pos w + 1
    /\ gp_stack w' = stack
    /\ gp_turtle w' = turtle.
Proof.
  intros Hc Hp Hs. unfold gnuplot_turn.
  rewrite (index_here _ _ _ _ _ Hc Hp), Returns_bind.
  unfold gnuplot_step. eval_byte_eqb. cbv iota.
  rewrite Hs, pop_push, Returns_bind.
  eexists; split; [reflexivity|]. cbn. rewrite ?Hp. auto.
Qed.

(** A turn at [']'] with nothing saved. *)
Lemma gnuplot_turn_underflow lineColor angle w pre post :
  gp_cmds w = pre ++ "]"%char :: post ->
  gp_pos w = Z.of_nat (length pre) ->
  gp_stack w = [] ->
  gnuplot_turn math_Cos math_Sin lineColor angle w = Fails index_out_of_range.
Proof.
  intros Hc Hp Hs. unfold gnuplot_turn.
  rewrite (index_here _ _ _ _ _ Hc Hp), Returns_bind.
  unfold gnuplot_step. eval_byte_eqb. cbv iota.
  rewrite Hs. reflexivity.
Qed.

Lemma gnuplot_turns_add lineColor angle a : forall b w,
  gnuplot_turns math_Cos math_Sin (a + b) lineColor angle w
  = gnuplot_turns math_Cos math_Sin a lineColor angle w
      ≫= gnuplot_turns math_Cos math_Sin b lineColor angle.
Proof.
  induction a as [|a IH]; intros b w; [reflexivity|].
  cbn [Nat.add gnuplot_turns].
  destruct (gnuplot_turn math_Cos math_Sin lineColor angle w) as [w'|f];
    [|reflexivity].
  rewrite !Returns_bind. apply IH.
Qed.

Lemma list_snoc_cases {A} (l : list A) n :
  length l = S n -> exists l' x, l = l' ++ [x] /\ length l' = n.
Proof.
  intro H. destruct (rev l) as [|x r] eqn:E.
  - apply (f_equal (@length A)) in E. rewrite length_rev in E.
    cbn in E. lia.
  - exists (rev r), x. apply (f_equal (@rev A)) in E.
    rewrite rev_involutive in E. cbn in E. split; [exact E|].
    rewrite E, length_app in H. cbn in H. lia.
Qed.

(** Plain symbols with nested brackets: what they push they pop. *)
Lemma gnuplot_turns_nested lineColor angle body :
  forall d w pre post base extra,
    forallb plain_symbol body = true ->
    brackets_balanced_from d body = true ->
    gp_cmds w = pre ++ body ++ post ->
    gp_pos w = Z.of_nat (length pre) ->
    gp_stack w = base ++ extra ->
    length extra = d ->
    exists w',
      gnuplot_turns math_Cos math_Sin (length body) lineColor angle w
      = Returns w'
      /\ gp_cmds w' = gp_cmds w
      /\ gp_pos w' = gp_pos w + Z.of_nat (length body)
      /\ gp_stack w' = base.
Proof.
  induction body as [|c body IH]; intros d w pre post base extra Hpl Hb Hc Hp Hs Hd.
  - cbn in Hb. apply Nat.eqb_eq in Hb. subst d.
    destruct extra; [|discriminate]. rewrite app_nil_r in Hs.
    exists w. cbn. repeat split; auto; lia.
  - cbn [forallb] in Hpl. apply andb_true_iff in Hpl as [Hplc Hpl].
    cbn [brackets_balanced_from] in Hb. cbn [length gnuplot_turns].
    assert (Hnext : forall w1 d1 extra1,
              gnuplot_turn math_Cos math_Sin lineColor angle w = Returns w1 ->
              gp_cmds w1 = gp_cmds w -> gp_pos w1 = gp_pos w + 1 ->
              gp_stack w1 = base ++ extra1 -> length extra1 = d1 ->
              brackets_balanced_from d1 body = true ->
              exists w',
                gnuplot_turn math_Cos math_Sin lineColor angle w
                  ≫= gnuplot_turns math_Cos math_Sin (length body) lineColor angle
                = Returns w'
                /\ gp_cmds w' = gp_cmds w
                /\ gp_pos w' = gp_pos w + Z.of_nat (S (length body))
                /\ gp_stack w' = base).
    { intros w1 d1 extra1 T C P St L B.
      destruct (IH d1 w1 (pre ++ [c]) post base extra1 Hpl B)
        as (w' & T' & C' & P' & St'); auto.
      - rewrite C, Hc, <- app_assoc. reflexivity.
      - rewrite P, Hp, length_app, Nat2Z.inj_add. reflexivity.
      - exists w'. rewrite T, Returns_bind, T'.
        repeat split; [congruence | lia | exact St']. }
    destruct (byte_eqb c "]") eqn:Ec.
    + apply byte_eqb_eq in Ec. subst c. cbn in Hb.
      destruct d as [|d]; [discriminate|].
      destruct (list_snoc_cases extra d Hd) as (extra' & t & -> & Hd').
      destruct (gnuplot_turn_close lineColor angle w pre (body ++ post)
                  (base ++ extra') t Hc Hp)
        as (w1 & T & C & P & St & _).
      { rewrite Hs. unfold push. rewrite app_assoc. reflexivity. }
      apply (Hnext w1 d extra'); auto.
    + assert (Hne : c <> "]"%char)
        by (intro E; subst c; discriminate Ec).
      destruct (gnuplot_turn_plain lineColor angle w pre c (body ++ post)
                  Hc Hp Hplc Hne) as (w1 & T & C & P & St & _).
      destruct (byte_eqb c "[") eqn:Eo.
      * apply (Hnext w1 (S d) (extra ++ [gp_turtle w])); auto.
        -- rewrite St, Hs. unfold push. rewrite app_assoc. reflexivity.
        -- rewrite length_app. cbn. lia.
      * apply (Hnext w1 d extra); auto. congruence.
Qed.

Lemma filter_one_out_changes c (s : gostring) :
  In c s -> List.filter (fun x => negb (byte_eqb c x)) s <> s.
Proof.
  intros Hin E. rewrite <- E in Hin. apply filter_In in Hin as [_ Hc].
  rewrite byte_eqb_refl in Hc. discriminate.
Qed.

Lemma filter_absent c (s : gostring) :
  existsb (byte_eqb c) s = false ->
  List.filter (fun x => negb (byte_eqb c x)) s = s.
Proof.
  induction s as [|x s IH]; [reflexivity|].
  cbn [existsb List.filter]. intros [Hx Hs]%orb_false_iff.
  rewrite Hx. cbn [negb]. rewrite (IH Hs). reflexivity.
Qed.

(** A turn at a variable: its instances leave the text, and nothing else
    changes; the part already walked holds none. *)
Lemma gnuplot_turn_variable lineColor angle w pre c rest :
  gp_cmds w = pre ++ c :: rest ->
  gp_pos w = Z.of_nat (length pre) ->
  existsb (byte_eqb c) pre = false ->
  plain_symbol c = false ->
  no_heading_symbol c = true ->
  exists w',
    gnuplot_turn math_Cos math_Sin lineColor angle w = Returns w'
    /\ gp_cmds w' = pre ++ List.filter (fun x => negb (byte_eqb c x)) rest
    /\ gp_pos w' = gp_pos w
    /\ gp_stack w' = gp_stack w
    /\ gp_turtle w' = gp_turtle w.
Proof.
  intros Hc Hp Hpre Hpl Hn. unfold gnuplot_turn.
  rewrite (index_here _ _ _ _ _ Hc Hp), Returns_bind.
  apply andb_true_iff in Hn as [Hb Hq]. apply negb_true_iff in Hq.
  unfold gnuplot_step.
  pose proof (plain_symbol_false c Hpl)
    as (-> & -> & -> & -> & -> & -> & -> & -> & -> & ->).
  rewrite Hq. cbn [orb]. cbv iota.
  unfold remove_variable, string_of_byte. rewrite Hb, Replace_one_byte, Hc.
  rewrite List.filter_app, (filter_absent c _ Hpre).
  cbn [List.filter]. rewrite byte_eqb_refl. cbn [negb].
  destruct (decide _) as [E|_].
  - exfalso. apply (f_equal (@length ascii)) in E.
    rewrite !length_app in E. cbn [length] in E.
    pose proof (List.filter_length_le
                  (fun x => negb (byte_eqb c x)) rest) as L.
    lia.
  - rewrite Returns_bind. eexists. split; [reflexivity|].
    cbn. repeat split; auto. lia.
Qed.

Lemma filter_balanced c s : forall d,
  plain_symbol c = false ->
  brackets_balanced_from d (List.filter (fun x => negb (byte_eqb c x)) s)
  = brackets_balanced_from d s.
Proof.
  intros d Hc. revert d. induction s as [|x s IH]; intro d; [reflexivity|].
  cbn [List.filter]. destruct (byte_eqb c x) eqn:E; cbn [negb].
  - apply byte_eqb_eq in E. subst x. rewrite IH.
    cbn [brackets_balanced_from].
    apply plain_symbol_false in Hc as (_ & _ & _ & _ & _ & _ & -> & -> & _).
    reflexivity.
  - cbn [brackets_balanced_from].
    destruct (byte_eqb x "["); [apply IH|].
    destruct (byte_eqb x "]"); [destruct d; [reflexivity | apply IH] | apply IH].
Qed.

Lemma filter_forallb (P Q : ascii -> bool) s :
  forallb P s = true -> forallb P (List.filter Q s) = true.
Proof.
  rewrite !forallb_forall. intros H x Hx. apply filter_In in Hx as [Hx _].
  apply H. exact Hx.
Qed.

Lemma filter_filter_and (P Q : ascii -> bool) s :
  List.filter P (List.filter Q s) = List.filter (fun x => Q x && P x) s.
Proof.
  induction s as [|x s IH]; [reflexivity|].
  cbn [List.filter]. destruct (Q x); cbn [andb List.filter];
    [destruct (P x)|]; rewrite IH; reflexivity.
Qed.

Lemma filter_all_true (s : gostring) : List.filter (fun _ => true) s = s.
Proof. induction s as [|x s IH]; [reflexivity|]. cbn. rewrite IH. reflexivity. Qed.

(** One-byte symbols with nested brackets, variables among them: the walk
    steps over the plain ones, deletes the others from the text to come,
    and pops what it pushed. *)
Lemma gnuplot_walk_nested lineColor angle n :
  forall body d w pre post base extra,
    (length body <= n)%nat ->
    variables_apart pre body = true ->
    forallb no_heading_symbol body = true ->
    brackets_balanced_from d body = true ->
    gp_cmds w = pre ++ body ++ post ->
    gp_pos w = Z.of_nat (length pre) ->
    gp_stack w = base ++ extra ->
    length extra = d ->
    exists k w' keep,
      gnuplot_turns math_Cos math_Sin k lineColor angle w = Returns w'
      /\ (forall x, plain_symbol x = true -> keep x = true)
      /\ gp_cmds w'
         = pre ++ List.filter plain_symbol body ++ List.filter keep post
      /\ gp_pos w'
         = Z.of_nat (length pre + length (List.filter plain_symbol body))
      /\ gp_stack w' = base.
Proof.
  induction n as [|n IH];
    intros body d w pre post base extra Hlen Hpre Hbody Hb Hc Hp Hs Hd.
  - destruct body; [|cbn in Hlen; lia].
    cbn in Hb. apply Nat.eqb_eq in Hb. subst d.
    destruct extra; [|discriminate]. rewrite app_nil_r in Hs.
    exists 0%nat, w, (fun _ => true). cbn [gnuplot_turns List.filter app length].
    rewrite filter_all_true, Nat.add_0_r. auto.
  - destruct body as [|c rest].
    { cbn in Hb. apply Nat.eqb_eq in Hb. subst d.
      destruct extra; [|discriminate]. rewrite app_nil_r in Hs.
      exists 0%nat, w, (fun _ => true).
      cbn [gnuplot_turns List.filter app length].
      rewrite filter_all_true, Nat.add_0_r. auto. }
    cbn [length] in Hlen. cbn [forallb] in Hbody.
    apply andb_true_iff in Hbody as [Hnc Hrest].
    unfold variables_apart in Hpre. cbn [forallb] in Hpre.
    apply andb_true_iff in Hpre as [Hprec Hpre].
    cbn [brackets_balanced_from] in Hb.
    assert (Hnext : forall w1 d1 extra1,
              gnuplot_turn math_Cos math_Sin lineColor angle w = Returns w1 ->
              plain_symbol c = true ->
              gp_cmds w1 = gp_cmds w -> gp_pos w1 = gp_pos w + 1 ->
              gp_stack w1 = base ++ extra1 -> length extra1 = d1 ->
              brackets_balanced_from d1 rest = true ->
              exists k w' keep,
                gnuplot_turns math_Cos math_Sin k lineColor angle w = Returns w'
                /\ (forall x, plain_symbol x = true -> keep x = true)
                /\ gp_cmds w'
                   = pre ++ List.filter plain_symbol (c :: rest)
                       ++ List.filter keep post
                /\ gp_pos w'
                   = Z.of_nat (length pre
                               + length (List.filter plain_symbol (c :: rest)))
                /\ gp_stack w' = base).
    { intros w1 d1 extra1 T Hpl C P St L B.
      destruct (IH rest d1 w1 (pre ++ [c]) post base extra1)
        as (k & w' & keep & T' & K' & C' & P' & St'); auto; try lia.
      - unfold variables_apart. rewrite forallb_forall in *.
        intros x Hx. specialize (Hpre x Hx).
        destruct (plain_symbol x) eqn:Hplx; [reflexivity|].
        cbn [orb] in *. rewrite existsb_app. cbn [existsb].
        apply negb_true_iff in Hpre. rewrite Hpre, orb_false_r. cbn [orb].
        apply negb_true_iff, byte_eqb_neq. intros ->.
        rewrite Hpl in Hplx. discriminate.
      - rewrite C, Hc, <- app_assoc. reflexivity.
      - rewrite P, Hp, length_app, Nat2Z.inj_add. reflexivity.
      - exists (S k), w', keep. cbn [gnuplot_turns List.filter].
        rewrite T, Returns_bind, T', Hpl.
        split; [reflexivity|]. split; [exact K'|].
        rewrite C', P', <- !app_assoc, length_app. cbn [app length].
        repeat split; [f_equal; lia | exact St']. }
    destruct (plain_symbol c) eqn:Hpl.
    + destruct (byte_eqb c "]") eqn:Ec.
      * apply byte_eqb_eq in Ec. subst c. cbn in Hb.
        destruct d as [|d]; [discriminate|].
        destruct (list_snoc_cases extra d Hd) as (extra' & t & -> & Hd').
        destruct (gnuplot_turn_close lineColor angle w pre (rest ++ post)
                    (base ++ extra') t Hc Hp)
          as (w1 & T & C & P & St & _).
        { rewrite Hs. unfold push. rewrite app_assoc. reflexivity. }
        apply (Hnext w1 d extra'); auto.
      * assert (Hne : c <> "]"%char)
          by (intro E; subst c; discriminate Ec).
        destruct (gnuplot_turn_plain lineColor angle w pre c (rest ++ post)
                    Hc Hp Hpl Hne) as (w1 & T & C & P & St & _).
        destruct (byte_eqb c "[") eqn:Eo.
        -- apply (Hnext w1 (S d) (extra ++ [gp_turtle w])); auto.
           ++ rewrite St, Hs. unfold push. rewrite app_assoc. reflexivity.
           ++ rewrite length_app. cbn. lia.
        -- apply (Hnext w1 d extra); auto. congruence.
    + cbn [orb] in Hprec. apply negb_true_iff in Hprec.
      destruct (gnuplot_turn_variable lineColor angle w pre c (rest ++ post)
                  Hc Hp Hprec Hpl Hnc) as (w1 & T & C & P & St & _).
      rewrite List.filter_app in C.
      pose proof (plain_symbol_false c Hpl)
        as (_ & _ & _ & _ & _ & _ & Eo & Ec & _).
      rewrite Eo, Ec in Hb.
      destruct (IH (List.filter (fun x => negb (byte_eqb c x)) rest) d w1 pre
                  (List.filter (fun x => negb (byte_eqb c x)) post) base extra)
        as (k & w' & keep & T' & K' & C' & P' & St'); auto.
      * pose proof (List.filter_length_le
                      (fun x => negb (byte_eqb c x)) rest). lia.
      * apply filter_forallb. exact Hpre.
      * apply filter_forallb. exact Hrest.
      * rewrite filter_balanced by exact Hpl. exact Hb.
      * congruence.
      * congruence.
      * exists (S k), w', (fun x => negb (byte_eqb c x) && keep x).
        cbn [gnuplot_turns List.filter]. rewrite T, Returns_bind, T', Hpl.
        split; [reflexivity|]. split.
        { intros x Hx. rewrite (K' x Hx), andb_true_r.
          apply negb_true_iff, byte_eqb_neq. intros ->.
          rewrite Hx in Hpl. discriminate. }
        rewrite filter_filter_plain in C', P' by exact Hpl.
        rewrite filter_filter_and in C'.
        repeat split; [exact C' | exact P' | exact St'].
Qed.

(** C6 (amended): branches of the gnuplot walk.  [pop] gives back the
    state pushed last and the stack as it was before (last in, first
    out) and fails on an empty stack.  From any state standing before a
    ['['], over a body with nested brackets and the matching [']'], the
    walk arrives with exactly the heading and position it had at the
    ['['] and with the stack as it was: in [length body + 2] turns for a
    body of plain symbols, and as well for a body of one-byte symbols
    other than the opening parenthesis none of whose variables occurs in
    the text before the ['['] (a heading declaration may stand there);
    the walk deletes these variables on its way.  A [']'] met with
    nothing saved ends the walk in the run-time failure of the index
    expression in [pop], the package having no error of its own for it,
    so no result is produced.  In ["F[+F]F"] the state after the [']']
    is the state saved at the ['[']. *)
Theorem branches_restore_last_in_first_out :
  (forall stack turtle, pop (push stack turtle) = Returns (turtle, stack))
  /\ pop [] = Fails index_out_of_range
  /\ (forall lineColor angle w pre body post,
        gp_cmds w = pre ++ "["%char :: body ++ "]"%char :: post ->
        gp_pos w = Z.of_nat (length pre) ->
        forallb plain_symbol body = true ->
        brackets_balanced body = true ->
        exists w',
          gnuplot_turns math_Cos math_Sin (length body + 2) lineColor angle w
          = Returns w'
          /\ gp_turtle w' = gp_turtle w
          /\ gp_stack w' = gp_stack w
          /\ gp_cmds w' = gp_cmds w
          /\ gp_pos w' = gp_pos w + Z.of_nat (length body + 2))
  /\ (forall lineColor angle w pre body post,
        gp_cmds w = pre ++ "["%char :: body ++ "]"%char :: post ->
        gp_pos w = Z.of_nat (length pre) ->
        variables_apart pre body = true ->
        forallb no_heading_symbol body = true ->
        brackets_balanced body = true ->
        exists k w' post',
          gnuplot_turns math_Cos math_Sin k lineColor angle w = Returns w'
          /\ gp_turtle w' = gp_turtle w
          /\ gp_stack w' = gp_stack w
          /\ gp_cmds w'
             = pre ++ "["%char :: List.filter plain_symbol body
                 ++ "]"%char :: post'
          /\ gp_pos w'
             = gp_pos w
               + Z.of_nat (length (List.filter plain_symbol body) + 2))
  /\ (forall lineColor angle w pre post fuel,
        gp_cmds w = pre ++ "]"%char :: post ->
        gp_pos w = Z.of_nat (length pre) ->
        gp_stack w = [] ->
        gnuplot_loop math_Cos math_Sin (S fuel) lineColor angle w
        = Fails index_out_of_range)
  /\ (forall lineColor,
        logo2Gnuplot math_Cos math_Sin lineColor bounds0 (go "F]F") 0 90
        = Fails index_out_of_range)
  /\ (forall lineColor,
        map (fun n =>
               gp_turtle
                 <$> gnuplot_turns math_Cos math_Sin n lineColor 90
                       (gnuplot_start bounds0 (go "F[+F]F") 0))
            [1; 2; 4; 5]%nat
        = map Returns
            [{| HEADING := 0; X := 1; Y := 0 |};
             {| HEADING := 0; X := 1; Y := 0 |};
             {| HEADING := 90; X := 1; Y := 1 |};
             {| HEADING := 0; X := 1; Y := 0 |}]).
Proof.
  split; [exact pop_push|]. split; [exact pop_empty|].
  split; [|split; [|split; [|split; intro; vm_compute; reflexivity]]].
  - intros lineColor angle w pre body post Hc Hp Hpl Hb.
    destruct (gnuplot_turn_plain lineColor angle w pre "[" (body ++ "]"%char :: post)
                Hc Hp eq_refl ltac:(discriminate))
      as (w1 & T1 & C1 & P1 & S1 & U1).
    specialize (U1 eq_refl). change (byte_eqb "[" "[") with true in S1.
    destruct (gnuplot_turns_nested lineColor angle body 0 w1 (pre ++ ["["%char])
                ("]"%char :: post) (gp_stack w1) [])
      as (w2 & T2 & C2 & P2 & S2); auto.
    { rewrite C1, Hc, <- app_assoc. reflexivity. }
    { rewrite P1, Hp, length_app, Nat2Z.inj_add. reflexivity. }
    { rewrite app_nil_r. reflexivity. }
    destruct (gnuplot_turn_close lineColor angle w2 (pre ++ "["%char :: body)
                post (gp_stack w) (gp_turtle w))
      as (w3 & T3 & C3 & P3 & S3 & U3).
    { rewrite C2, C1, Hc, <- app_assoc. reflexivity. }
    { rewrite P2, P1, Hp, length_app, Nat2Z.inj_add. cbn [length]. lia. }
    { rewrite S2, S1. reflexivity. }
    exists w3.
    replace (length body + 2)%nat with (1 + (length body + 1))%nat by lia.
    rewrite gnuplot_turns_add. cbn [gnuplot_turns].
    rewrite T1, !Returns_bind, gnuplot_turns_add, T2, Returns_bind.
    cbn [gnuplot_turns]. rewrite T3, Returns_bind.
    repeat split; [exact U3 | exact S3 | congruence | lia].
  - intros lineColor angle w pre body post Hc Hp Hpre Hbody Hb.
    destruct (gnuplot_turn_plain lineColor angle w pre "[" (body ++ "]"%char :: post)
                Hc Hp eq_refl ltac:(discriminate))
      as (w1 & T1 & C1 & P1 & S1 & U1).
    specialize (U1 eq_refl). change (byte_eqb "[" "[") with true in S1.
    destruct (gnuplot_walk_nested lineColor angle (length body) body 0 w1
                (pre ++ ["["%char]) ("]"%char :: post) (gp_stack w1) [])
      as (k & w2 & keep & T2 & K2 & C2 & P2 & S2); auto.
    { unfold variables_apart in *. rewrite forallb_forall in *.
      intros x Hx. specialize (Hpre x Hx).
      destruct (plain_symbol x) eqn:Hplx; [reflexivity|].
      cbn [orb] in *. rewrite existsb_app. cbn [existsb].
      apply negb_true_iff in Hpre. rewrite Hpre, orb_false_r. cbn [orb].
      apply negb_true_iff, byte_eqb_neq. intros ->. discriminate Hplx. }
    { rewrite C1, Hc, <- app_assoc. reflexivity. }
    { rewrite P1, Hp, length_app, Nat2Z.inj_add. reflexivity. }
    { rewrite app_nil_r. reflexivity. }
    cbn [List.filter] in C2. rewrite (K2 "]"%char eq_refl) in C2.
    destruct (gnuplot_turn_close lineColor angle w2
                (pre ++ "["%char :: List.filter plain_symbol body)
                (List.filter keep post) (gp_stack w) (gp_turtle w))
      as (w3 & T3 & C3 & P3 & S3 & U3).
    { rewrite C2, <- !app_assoc. reflexivity. }
    { rewrite P2, !length_app. cbn [length]. f_equal. lia. }
    { rewrite S2, S1. reflexivity. }
    exists (1 + (k + 1))%nat, w3, (List.filter keep post).
    rewrite gnuplot_turns_add. cbn [gnuplot_turns].
    rewrite T1, !Returns_bind, gnuplot_turns_add, T2, Returns_bind.
    cbn [gnuplot_turns]. rewrite T3, Returns_bind.
    split; [reflexivity|]. split; [exact U3|]. split; [exact S3|].
    split.
    + rewrite C3, C2, <- !app_assoc. reflexivity.
    + rewrite P3, P2, Hp, !length_app. cbn [length]. lia.
  - intros lineColor angle w pre post fuel Hc Hp Hs.
    cbn [gnuplot_loop].
    destruct (Z.ltb_spec (gp_pos w) (Z.of_nat (length (gp_cmds w))));
      [|rewrite Hc, Hp, length_app in *; cbn [length] in *; lia].
    rewrite (gnuplot_turn_underflow lineColor angle w pre post Hc Hp Hs).
    reflexivity.
Qed.

(** *** The text left behind by a walk *)

Ltac walk_destruct :=
  repeat match goal with
         | |- context [forward ?a ?b ?t ?d] => destruct (forward a b t d)
         | |- context [convert2Gnuplot ?a ?b ?c ?d] =>
             destruct (convert2Gnuplot a b c d) as [[? ?]|?]
         | |- context [convert2Hpgl ?a ?b ?c ?d] =>
             destruct (convert2Hpgl a b c d)
         | |- context [pop ?s] => destruct (pop s) as [[? ?]|?]
         | |- context [getHeading ?a ?b] =>
             destruct (getHeading a b) as [[? ?]|?]
         | |- context [remove_variable ?a ?b] => destruct (remove_variable a b)
         | |- context [math_Mod ?a ?b] => generalize (math_Mod a b); intro
         | |- context [if ?b then _ else _] => destruct b
         end.

Ltac step_text step c :=
  destruct (symbol_cases c) as [Hp|[->|[Hp Hq]]];
  [ apply plain_symbol_cases in Hp;
    destruct Hp as [H|[H|[H|[H|[H|[H|[H|[H|[H|H]]]]]]]]]; subst c;
    unfold step, text_turn, plain_symbol; eval_byte_eqb; cbv iota;
    repeat (progress (walk_destruct; cbn)); try discriminate;
    intros [= <-]; reflexivity
  | unfold step, text_turn, plain_symbol; eval_byte_eqb; cbv iota;
    repeat (progress (walk_destruct; cbn)); try discriminate;
    intros [= <-]; reflexivity
  | unfold step, text_turn; rewrite Hp, Hq;
    apply plain_symbol_false in Hp;
    destruct Hp as (-> & -> & -> & -> & -> & -> & -> & -> & -> & ->);
    cbn [orb]; cbv iota;
    repeat (progress (walk_destruct; cbn)); try discriminate;
    intros [= <-]; reflexivity ].

Lemma gnuplot_step_text lineColor angle w c w' :
  gnuplot_step math_Cos math_Sin lineColor angle w c = Returns w' ->
  text_turn (gp_cmds w) (gp_pos w) c = Returns (gp_cmds w', gp_pos w').
Proof. step_text gnuplot_step c. Qed.

Lemma hpgl_step_text angle w c w' :
  hpgl_step math_Cos math_Sin angle w c = Returns w' ->
  text_turn (hp_cmds w) (hp_pos w) c = Returns (hp_cmds w', hp_pos w').
Proof. step_text hpgl_step c. Qed.

Lemma offset_step_text angle w c w' :
  offset_step math_Cos angle w c = Returns w' ->
  text_turn (ox_cmds w) (ox_pos w) c = Returns (ox_cmds w', ox_pos w').
Proof. step_text offset_step c. Qed.

Lemma gnuplot_loop_text lineColor angle kept fuel : forall w w',
  gnuplot_loop math_Cos math_Sin fuel lineColor angle w = Returns w' ->
  walked_plain (gp_cmds w) (gp_pos w) kept ->
  gp_cmds w' = kept.
Proof.
  induction fuel as [|fuel IH]; intros w w' H Hw; [discriminate|].
  cbn [gnuplot_loop] in H.
  destruct (Z.ltb_spec (gp_pos w) (Z.of_nat (length (gp_cmds w)))) as [Hlt|Hge].
  - apply bind_Returns in H as (w1 & T & H). unfold gnuplot_turn in T.
    apply bind_Returns in T as (c & Hc & T).
    apply gnuplot_step_text in T.
    apply (IH w1 w' H).
    exact (text_turn_walked_plain _ _ _ _ _ _ Hw Hc T).
  - injection H as <-. apply (walked_plain_at_the_end _ _ _ Hw). lia.
Qed.

Lemma hpgl_loop_text angle kept fuel : forall w w',
  hpgl_loop math_Cos math_Sin fuel angle w = Returns w' ->
  walked_plain (hp_cmds w) (hp_pos w) kept ->
  hp_cmds w' = kept.
Proof.
  induction fuel as [|fuel IH]; intros w w' H Hw; [discriminate|].
  cbn [hpgl_loop] in H.
  destruct (Z.ltb_spec (hp_pos w) (Z.of_nat (length (hp_cmds w)))) as [Hlt|Hge].
  - apply bind_Returns in H as (w1 & T & H). unfold hpgl_turn in T.
    apply bind_Returns in T as (c & Hc & T).
    apply hpgl_step_text in T.
    apply (IH w1 w' H).
    exact (text_turn_walked_plain _ _ _ _ _ _ Hw Hc T).
  - injection H as <-. apply (walked_plain_at_the_end _ _ _ Hw). lia.
Qed.

Lemma logo2Gnuplot_text lineColor b s xOrigin angle drawCmds b' cmds :
  logo2Gnuplot math_Cos math_Sin lineColor b s xOrigin angle
  = Returns (drawCmds, b', cmds) ->
  forallb no_heading_symbol s = true ->
  cmds = List.filter plain_symbol (remove_pointless_turns s).
Proof.
  unfold logo2Gnuplot. intros (w & H & [= _ _ <-])%bind_Returns Hs.
  apply (gnuplot_loop_text _ _ _ _ _ _ H). apply walked_plain_start. exact Hs.
Qed.

Lemma logo2Hpgl_text b s xOrigin angle penCmds b' cmds :
  logo2Hpgl math_Cos math_Sin b s xOrigin angle = Returns (penCmds, b', cmds) ->
  forallb no_heading_symbol s = true ->
  cmds = List.filter plain_symbol (remove_pointless_turns s).
Proof.
  unfold logo2Hpgl. intros (w & H & [= _ _ <-])%bind_Returns Hs.
  apply (hpgl_loop_text _ _ _ _ _ H). unfold hpgl_start.
  destruct (convert2Hpgl [] (go "f") xOrigin 0) as [first pen].
  apply walked_plain_start. exact Hs.
Qed.

Lemma MultiPlot_turns_frame turtleAngles labels lineColor ks : forall m m',
  MultiPlot_turns math_Cos math_Sin turtleAngles labels lineColor ks m
  = Returns m' ->
  mv_turtleCmds m' = mv_turtleCmds m.
Proof.
  induction ks as [|k ks IH]; intros m m' H; [injection H as <-; reflexivity|].
  cbn [MultiPlot_turns] in H. apply bind_Returns in H as (m1 & T & H).
  rewrite (IH m1 m' H). unfold MultiPlot_turn in T.
  repeat match type of T with
         | _ ≫= _ = Returns _ => apply bind_Returns in T as (? & _ & T)
         | (let '(_, _) := ?x in _) = Returns _ => destruct x
         end.
  injection T as <-. reflexivity.
Qed.

Lemma HpglMultiPlot_turns_frame turtleAngles labels ks : forall m m',
  HpglMultiPlot_turns math_Cos math_Sin turtleAngles labels ks m = Returns m' ->
  mv_turtleCmds m' = mv_turtleCmds m.
Proof.
  induction ks as [|k ks IH]; intros m m' H; [injection H as <-; reflexivity|].
  cbn [HpglMultiPlot_turns] in H. apply bind_Returns in H as (m1 & T & H).
  rewrite (IH m1 m' H). unfold HpglMultiPlot_turn in T.
  repeat match type of T with
         | _ ≫= _ = Returns _ => apply bind_Returns in T as (? & _ & T)
         | (let '(_, _) := ?x in _) = Returns _ => destruct x
         end.
  injection T as <-. reflexivity.
Qed.

(** C3 (amended): [Plot] and [HpglPlot] hand the compiler a pointer to
    the exported [TurtleCmds], so the text the pass works on is the
    caller's: after either returns, [TurtleCmds] holds what the pass
    left.  For a text of one-byte characters without heading
    declarations that is the text after the sweep of the turn pairs with
    every symbol other than [F f + - | $ [ ] { }] deleted.  [MultiPlot]
    and [HpglMultiPlot] compile a copy of each element, and the elements
    of the slice [turtleCmds] are after the call what they were before. *)
Theorem compilers_rewrite_TurtleCmds_not_the_slice :
  (forall angle terminalCmd outputCmd plotTitle lineColor p p' plotCmds,
     Plot math_Cos math_Sin angle terminalCmd outputCmd plotTitle lineColor p
     = Returns (p', plotCmds) ->
     forallb no_heading_symbol (TurtleCmds p) = true ->
     TurtleCmds p'
     = List.filter plain_symbol (remove_pointless_turns (TurtleCmds p)))
  /\ (forall angle plotTitle penWidth hpglPath p p' plotCmds,
        HpglPlot math_Cos math_Sin angle plotTitle penWidth hpglPath p
        = Returns (p', plotCmds) ->
        forallb no_heading_symbol (TurtleCmds p) = true ->
        TurtleCmds p'
        = List.filter plain_symbol (remove_pointless_turns (TurtleCmds p)))
  /\ (forall turtleCmds turtleAngles terminalCmd outputCmd plotTitle labels
             lineColor p m,
        MultiPlot math_Cos math_Sin turtleCmds turtleAngles terminalCmd
          outputCmd plotTitle labels lineColor p = Returns m ->
        mv_turtleCmds m = turtleCmds)
  /\ (forall turtleCmds turtleAngles plotTitle labels penWidth hpglPath m,
        HpglMultiPlot math_Cos math_Sin turtleCmds turtleAngles plotTitle
          labels penWidth hpglPath = Returns m ->
        mv_turtleCmds m = turtleCmds).
Proof.
  split; [|split; [|split]].
  - intros angle terminalCmd outputCmd plotTitle lineColor p p' plotCmds H Hs.
    unfold Plot in H.
    repeat match type of H with
           | (if ?c then _ else _) = _ => destruct c; [discriminate H|]
           end.
    apply bind_Returns in H as ([[drawCmds b] cmds] & L & H).
    injection H as <- _. cbn [TurtleCmds set_TurtleCmds].
    exact (logo2Gnuplot_text _ _ _ _ _ _ _ _ L Hs).
  - intros angle plotTitle penWidth hpglPath p p' plotCmds H Hs.
    unfold HpglPlot in H.
    repeat match type of H with
           | (if ?c then _ else _) = _ => destruct c; [discriminate H|]
           end.
    apply bind_Returns in H as ([[penCmds b] cmds] & L & H).
    injection H as <- _. cbn [TurtleCmds set_TurtleCmds].
    exact (logo2Hpgl_text _ _ _ _ _ _ _ L Hs).
  - intros turtleCmds turtleAngles terminalCmd outputCmd plotTitle labels
           lineColor p m H.
    unfold MultiPlot in H.
    repeat match type of H with
           | (if ?c then _ else _) = _ => destruct c; [discriminate H|]
           end.
    apply bind_Returns in H as (m' & T & H).
    injection H as <-. cbn [mv_turtleCmds].
    apply MultiPlot_turns_frame in T. exact T.
  - intros turtleCmds turtleAngles plotTitle labels penWidth hpglPath m H.
    unfold HpglMultiPlot in H.
    repeat match type of H with
           | (if ?c then _ else _) = _ => destruct c; [discriminate H|]
           end.
    apply bind_Returns in H as (m' & T & H).
    injection H as <-. cbn [mv_turtleCmds].
    apply HpglMultiPlot_turns_frame in T. exact T.
Qed.

(** *** The loops end within their bound *)

Lemma index_failure {A} (l : list A) i f :
  index l i = Fails f -> f <> out_of_fuel.
Proof.
  unfold index. destruct (i <? 0); [intros [= <-]; discriminate|].
  destruct (l !! Z.to_nat i); [discriminate | intros [= <-]; discriminate].
Qed.

Lemma pop_failure stack f : pop stack = Fails f -> f <> out_of_fuel.
Proof.
  unfold pop.
  destruct (index stack (Z.of_nat (length stack) - 1)) eqn:E; [discriminate|].
  intros [= <-]. exact (index_failure _ _ _ E).
Qed.

Lemma getHeading_failure cmds pos f :
  getHeading cmds pos = Fails f -> f <> out_of_fuel.
Proof.
  unfold getHeading. destruct (_reHeading _) as [[whole num]|];
    [destruct (strconv_ParseFloat num); [discriminate|]|];
    intros [= <-]; discriminate.
Qed.

Lemma convert2Gnuplot_failure lineColor polygon symbol coords f :
  convert2Gnuplot lineColor polygon symbol coords = Fails f ->
  f <> out_of_fuel.
Proof.
  unfold convert2Gnuplot.
  repeat match goal with
         | |- context [decide ?P] => destruct (decide P)
         | |- context [negb ?b] => destruct b; cbn [negb]
         | |- context [index ?l ?i] =>
             let E := fresh "E" in
             destruct (index l i) eqn:E;
             [rewrite Returns_bind
             |intros [= <-]; exact (index_failure _ _ _ E)]
         end; discriminate.
Qed.

Lemma remove_variable_failure symbol cmds f :
  remove_variable symbol cmds = Fails f -> f <> out_of_fuel.
Proof.
  unfold remove_variable. destruct (decide _); [|discriminate].
  intros [= <-]. discriminate.
Qed.

Ltac step_failure :=
  repeat match goal with
         | |- context [forward ?a ?b ?t ?d] => destruct (forward a b t d)
         | |- context [convert2Hpgl ?a ?b ?c ?d] =>
             destruct (convert2Hpgl a b c d)
         | |- context [convert2Gnuplot ?a ?b ?c ?d] =>
             let E := fresh "E" in
             destruct (convert2Gnuplot a b c d) as [[? ?]|?] eqn:E;
             [rewrite ?Returns_bind
             |intros [= <-]; exact (convert2Gnuplot_failure _ _ _ _ _ E)]
         | |- context [pop ?s] =>
             let E := fresh "E" in
             destruct (pop s) as [[? ?]|?] eqn:E;
             [rewrite ?Returns_bind
             |intros [= <-]; exact (pop_failure _ _ E)]
         | |- context [getHeading ?a ?b] =>
             let E := fresh "E" in
             destruct (getHeading a b) as [[? ?]|?] eqn:E;
             [rewrite ?Returns_bind
             |intros [= <-]; exact (getHeading_failure _ _ _ E)]
         | |- context [remove_variable ?a ?b] =>
             let E := fresh "E" in
             destruct (remove_variable a b) eqn:E;
             [rewrite ?Returns_bind
             |intros [= <-]; exact (remove_variable_failure _ _ _ E)]
         | |- (if ?b then _ else _) = _ -> _ => destruct b
         | |- (let '(_, _) := (if ?b then _ else _) in _) = _ -> _ => destruct b
         end; try discriminate.

Lemma gnuplot_step_failure lineColor angle w c f :
  gnuplot_step math_Cos math_Sin lineColor angle w c = Fails f ->
  f <> out_of_fuel.
Proof. unfold gnuplot_step. step_failure. Qed.

Lemma hpgl_step_failure angle w c f :
  hpgl_step math_Cos math_Sin angle w c = Fails f -> f <> out_of_fuel.
Proof. unfold hpgl_step. step_failure. Qed.

Lemma offset_step_failure angle w c f :
  offset_step math_Cos angle w c = Fails f -> f <> out_of_fuel.
Proof. unfold offset_step. step_failure. Qed.

Lemma gnuplot_loop_within_fuel lineColor angle fuel : forall w f,
  0 <= gp_pos w ->
  Z.of_nat (length (gp_cmds w)) - gp_pos w <= Z.of_nat fuel ->
  gnuplot_loop math_Cos math_Sin (S fuel) lineColor angle w = Fails f ->
  f <> out_of_fuel.
Proof.
  induction fuel as [|fuel IH]; intros w f Hpos Hm;
    cbn [gnuplot_loop];
    destruct (Z.ltb_spec (gp_pos w) (Z.of_nat (length (gp_cmds w))));
    try discriminate; try lia.
  unfold gnuplot_turn.
  destruct (index (gp_cmds w) (gp_pos w)) as [c|f0] eqn:Ec;
    [|intros [= <-]; exact (index_failure _ _ _ Ec)].
  rewrite Returns_bind.
  destruct (gnuplot_step math_Cos math_Sin lineColor angle w c) as [w1|f1] eqn:Es;
    [|intros [= <-]; exact (gnuplot_step_failure _ _ _ _ _ Es)].
  rewrite Returns_bind.
  apply gnuplot_step_text, text_turn_measure in Es as [Hp1 Hm1]; [|exact Hpos].
  apply IH; [exact Hp1 | lia].
Qed.

Lemma hpgl_loop_within_fuel angle fuel : forall w f,
  0 <= hp_pos w ->
  Z.of_nat (length (hp_cmds w)) - hp_pos w <= Z.of_nat fuel ->
  hpgl_loop math_Cos math_Sin (S fuel) angle w = Fails f ->
  f <> out_of_fuel.
Proof.
  induction fuel as [|fuel IH]; intros w f Hpos Hm;
    cbn [hpgl_loop];
    destruct (Z.ltb_spec (hp_pos w) (Z.of_nat (length (hp_cmds w))));
    try discriminate; try lia.
  unfold hpgl_turn.
  destruct (index (hp_cmds w) (hp_pos w)) as [c|f0] eqn:Ec;
    [|intros [= <-]; exact (index_failure _ _ _ Ec)].
  rewrite Returns_bind.
  destruct (hpgl_step math_Cos math_Sin angle w c) as [w1|f1] eqn:Es;
    [|intros [= <-]; exact (hpgl_step_failure _ _ _ _ Es)].
  rewrite Returns_bind.
  apply hpgl_step_text, text_turn_measure in Es as [Hp1 Hm1]; [|exact Hpos].
  apply IH; [exact Hp1 | lia].
Qed.

Lemma offset_loop_within_fuel angle fuel : forall w f,
  0 <= ox_pos w ->
  Z.of_nat (length (ox_cmds w)) - ox_pos w <= Z.of_nat fuel ->
  offset_loop math_Cos (S fuel) angle w = Fails f ->
  f <> out_of_fuel.
Proof.
  induction fuel as [|fuel IH]; intros w f Hpos Hm;
    cbn [offset_loop];
    destruct (Z.ltb_spec (ox_pos w) (Z.of_nat (length (ox_cmds w))));
    try discriminate; try lia.
  unfold offset_turn.
  destruct (index (ox_cmds w) (ox_pos w)) as [c|f0] eqn:Ec;
    [|intros [= <-]; exact (index_failure _ _ _ Ec)].
  rewrite Returns_bind.
  destruct (offset_step math_Cos angle w c) as [w1|f1] eqn:Es;
    [|intros [= <-]; exact (offset_step_failure _ _ _ _ Es)].
  rewrite Returns_bind.
  apply offset_step_text, text_turn_measure in Es as [Hp1 Hm1]; [|exact Hpos].
  apply IH; [exact Hp1 | lia].
Qed.

(** The three walks are total within the bound their models are given:
    each returns, or fails the way the program does. *)
Theorem the_walks_end_within_their_bound :
  (forall lineColor b s xOrigin angle,
     logo2Gnuplot math_Cos math_Sin lineColor b s xOrigin angle
     <> Fails out_of_fuel)
  /\ (forall b s xOrigin angle,
        logo2Hpgl math_Cos math_Sin b s xOrigin angle <> Fails out_of_fuel)
  /\ (forall stack turtle s angle,
        calcXoffset math_Cos stack turtle s angle <> Fails out_of_fuel).
Proof.
  split; [|split].
  - intros lineColor b s xOrigin angle. unfold logo2Gnuplot.
    destruct (gnuplot_loop _ _ _ _ _ _) as [w|f] eqn:E; [discriminate|].
    apply gnuplot_loop_within_fuel in E; cbn; [|lia|lia].
    intros [= ->]. contradiction.
  - intros b s xOrigin angle. unfold logo2Hpgl.
    destruct (hpgl_loop _ _ _ _ _) as [w|f] eqn:E; [discriminate|].
    apply hpgl_loop_within_fuel in E.
    + intros [= ->]. contradiction.
    + unfold hpgl_start. destruct (convert2Hpgl _ _ _ _). cbn. lia.
    + unfold hpgl_start. destruct (convert2Hpgl _ _ _ _). cbn. lia.
  - intros stack turtle s angle. unfold calcXoffset, calcXoffset_walk.
    destruct (offset_loop _ _ _ _) as [w|f] eqn:E; [discriminate|].
    apply offset_loop_within_fuel in E; cbn; [|lia|lia].
    intros [= ->]. contradiction.
Qed.

(** *** The two compilers walk alike *)

Lemma convert2Gnuplot_open lineColor polygon x y :
  exists r, convert2Gnuplot lineColor polygon (go "{") [x; y] = Returns r.
Proof.
  unfold convert2Gnuplot.
  destruct (decide (go "{" = go "{")) as [_|N]; [|contradiction].
  eexists. reflexivity.
Qed.

Lemma convert2Gnuplot_close lineColor polygon coords :
  convert2Gnuplot lineColor polygon (go "}") coords = Returns (polygon, []).
Proof.
  unfold convert2Gnuplot.
  destruct (decide (go "}" = go "{")) as [E|_]; [discriminate E|].
  destruct (decide (go "}" = go "}")) as [_|N]; [|contradiction].
  reflexivity.
Qed.

Lemma walks_step_agree lineColor angle wg wh c :
  gnuplot_trace wg = hpgl_trace wh ->
  gnuplot_trace <$> gnuplot_step math_Cos math_Sin lineColor angle wg c
  = hpgl_trace <$> hpgl_step math_Cos math_Sin angle wh c.
Proof.
  destruct wg as [cmds pos turtle stack b polygon plotCmds].
  destruct wh as [cmds' pos' turtle' stack' b' pen penCmds].
  unfold gnuplot_trace, hpgl_trace.
  cbn [gp_cmds gp_pos gp_turtle gp_stack gp_bounds
       hp_cmds hp_pos hp_turtle hp_stack hp_bounds].
  intros [= <- <- <- <- <-].
  destruct (symbol_cases c) as [Hp|[->|[Hp Hq]]].
  - apply plain_symbol_cases in Hp.
    destruct Hp as [H|[H|[H|[H|[H|[H|[H|[H|[H|H]]]]]]]]]; subst c;
      unfold gnuplot_step, hpgl_step; eval_byte_eqb; cbv iota;
      cbn [gp_cmds gp_pos gp_turtle gp_stack gp_bounds gp_polygon gp_plotCmds
           hp_cmds hp_pos hp_turtle hp_stack hp_bounds hp_penCmdPrev
           hp_plotCmds];
      try reflexivity.
    + destruct (forward math_Cos math_Sin turtle b) as [moved b1].
      destruct (convert2Gnuplot_move lineColor polygon ["F"%char]
                  (X turtle) (Y turtle) (X moved) (Y moved)) as [[cmd pol] ->].
      destruct (convert2Hpgl pen ["F"%char] (X moved) (Y moved)).
      reflexivity.
    + destruct (forward math_Cos math_Sin turtle b) as [moved b1].
      destruct (convert2Gnuplot_move lineColor polygon ["f"%char]
                  (X turtle) (Y turtle) (X moved) (Y moved)) as [[cmd pol] ->].
      destruct (convert2Hpgl pen ["f"%char] (X moved) (Y moved)).
      reflexivity.
    + destruct (pop stack) as [[restored stack1]|f]; [|reflexivity].
      rewrite !Returns_bind.
      destruct (convert2Hpgl pen (go "f") (X restored) (Y restored)).
      reflexivity.
  - unfold gnuplot_step, hpgl_step; eval_byte_eqb; cbv iota;
      cbn [gp_cmds gp_pos gp_turtle gp_stack gp_bounds gp_polygon gp_plotCmds
           hp_cmds hp_pos hp_turtle hp_stack hp_bounds hp_penCmdPrev
           hp_plotCmds].
    destruct (getHeading cmds pos) as [[heading p]|f]; reflexivity.
  - unfold gnuplot_step, hpgl_step.
    apply plain_symbol_false in Hp.
    destruct Hp as (-> & -> & -> & -> & -> & -> & -> & -> & -> & ->).
    rewrite Hq. cbn [orb]. cbv iota.
    cbn [gp_cmds gp_pos gp_turtle gp_stack gp_bounds gp_polygon gp_plotCmds
         hp_cmds hp_pos hp_turtle hp_stack hp_bounds hp_penCmdPrev
         hp_plotCmds].
    destruct (remove_variable (string_of_byte c) cmds); reflexivity.
Qed.

Lemma walks_loop_agree lineColor angle fuel : forall wg wh,
  gnuplot_trace wg = hpgl_trace wh ->
  gnuplot_trace <$> gnuplot_loop math_Cos math_Sin fuel lineColor angle wg
  = hpgl_trace <$> hpgl_loop math_Cos math_Sin fuel angle wh.
Proof.
  induction fuel as [|fuel IH]; intros wg wh H; [reflexivity|].
  cbn [gnuplot_loop hpgl_loop].
  pose proof H as H0. unfold gnuplot_trace, hpgl_trace in H0.
  injection H0 as Hc Hp _ _ _. rewrite <- Hc, <- Hp.
  destruct (gp_pos wg <? Z.of_nat (length (gp_cmds wg)));
    [|cbn [fmap outcome_fmap]; rewrite H; reflexivity].
  unfold gnuplot_turn, hpgl_turn. rewrite <- Hc, <- Hp.
  destruct (index (gp_cmds wg) (gp_pos wg)) as [c|f]; [|reflexivity].
  rewrite !Returns_bind.
  pose proof (walks_step_agree lineColor angle wg wh c H) as S1.
  destruct (gnuplot_step math_Cos math_Sin lineColor angle wg c) as [wg1|f1],
           (hpgl_step math_Cos math_Sin angle wh c) as [wh1|f2];
    try discriminate S1.
  - rewrite !Returns_bind. apply IH.
    cbn [fmap outcome_fmap] in S1. congruence.
  - exact S1.
Qed.

Lemma compilers_agree lineColor b turtleCmds xOrigin angle :
  bounds_and_text
    <$> logo2Gnuplot math_Cos math_Sin lineColor b turtleCmds xOrigin angle
  = bounds_and_text
      <$> logo2Hpgl math_Cos math_Sin b turtleCmds xOrigin angle.
Proof.
  unfold logo2Gnuplot, logo2Hpgl.
  set (cmds := remove_pointless_turns turtleCmds).
  pose proof (walks_loop_agree lineColor angle (S (length cmds))
                (gnuplot_start b cmds xOrigin) (hpgl_start b cmds xOrigin)) as L.
  unfold hpgl_start in *.
  destruct (convert2Hpgl [] (go "f") xOrigin 0) as [first pen].
  specialize (L eq_refl).
  destruct (gnuplot_loop _ _ _ _ _ _) as [wg|f1], (hpgl_loop _ _ _ _ _) as [wh|f2];
    try discriminate L.
  - cbn [fmap outcome_fmap] in L. unfold gnuplot_trace, hpgl_trace in L.
    injection L as Hc _ _ _ Hb. rewrite !Returns_bind.
    cbn [fmap outcome_fmap]. unfold bounds_and_text. cbn [fst snd].
    rewrite Hc, Hb. reflexivity.
  - cbn [fmap outcome_fmap] in L. injection L as <-. reflexivity.
Qed.

(** X10: the walk of [makeLogo2Gnuplot] and the walk of [makeLogo2Hpgl]
    go the same way.  Given the same closure bounds, text, origin and
    angle both return or both fail, with the same failure; when they
    return they give the same four bounds and leave the same text behind
    the pointer, whatever the line colour. *)
Theorem gnuplot_and_hpgl_walks_agree :
  forall lineColor b turtleCmds xOrigin angle,
    bounds_and_text
      <$> logo2Gnuplot math_Cos math_Sin lineColor b turtleCmds xOrigin angle
    = bounds_and_text
        <$> logo2Hpgl math_Cos math_Sin b turtleCmds xOrigin angle.
Proof. exact compilers_agree. Qed.

(** *** Texts every walk gets through *)

Lemma is_turn_pair_no_bracket x y :
  is_turn_pair x y = true ->
  byte_eqb x "[" = false /\ byte_eqb x "]" = false
  /\ byte_eqb y "[" = false /\ byte_eqb y "]" = false.
Proof.
  unfold is_turn_pair.
  intros [[Hx Hy]%andb_true_iff|[Hx Hy]%andb_true_iff]%orb_true_iff;
    apply byte_eqb_eq in Hx, Hy; subst x y; repeat split; reflexivity.
Qed.

Lemma remove_pointless_turns_balanced s : forall d,
  brackets_balanced_from d (remove_pointless_turns s)
  = brackets_balanced_from d s.
Proof.
  induction s as [|x|x y r IHr IHyr] using gostring_pair_ind; intro d.
  - reflexivity.
  - rewrite remove_pointless_turns_one. reflexivity.
  - rewrite remove_pointless_turns_two.
    destruct (is_turn_pair x y) eqn:E.
    + apply is_turn_pair_no_bracket in E as (Ex1 & Ex2 & Ey1 & Ey2).
      cbn [brackets_balanced_from]. rewrite Ex1, Ex2, Ey1, Ey2. apply IHr.
    + cbn [brackets_balanced_from].
      destruct (byte_eqb x "["); [apply IHyr|].
      destruct (byte_eqb x "]"); [destruct d; [reflexivity | apply IHyr]
                                 | apply IHyr].
Qed.

(** Turns that end with [pos] at the end of the text are the turns of
    the loop, or more. *)
Lemma gnuplot_turns_loop lineColor angle k : forall w w' fuel,
  gnuplot_turns math_Cos math_Sin k lineColor angle w = Returns w' ->
  0 <= gp_pos w ->
  ~ gp_pos w' < Z.of_nat (length (gp_cmds w')) ->
  Z.of_nat (length (gp_cmds w)) - gp_pos w <= Z.of_nat fuel ->
  exists w'',
    gnuplot_loop math_Cos math_Sin (S fuel) lineColor angle w = Returns w''.
Proof.
  induction k as [|k IH]; intros w w' fuel T Hpos Hend Hm;
    cbn [gnuplot_turns gnuplot_loop] in *.
  - injection T as <-.
    destruct (Z.ltb_spec (gp_pos w) (Z.of_nat (length (gp_cmds w))));
      [contradiction|]. eexists. reflexivity.
  - destruct (Z.ltb_spec (gp_pos w) (Z.of_nat (length (gp_cmds w))));
      [|eexists; reflexivity].
    apply bind_Returns in T as (w1 & T1 & T). rewrite T1, Returns_bind.
    unfold gnuplot_turn in T1. apply bind_Returns in T1 as (c & _ & T1).
    apply gnuplot_step_text, text_turn_measure in T1 as [Hp1 Hm1];
      [|exact Hpos].
    destruct fuel as [|fuel]; [lia|].
    apply (IH w1 w' fuel T Hp1 Hend). lia.
Qed.

Lemma logo2Gnuplot_returns lineColor b s xOrigin angle :
  forallb no_heading_symbol s = true ->
  brackets_balanced s = true ->
  exists drawCmds b',
    logo2Gnuplot math_Cos math_Sin lineColor b s xOrigin angle
    = Returns (drawCmds, b',
               List.filter plain_symbol (remove_pointless_turns s)).
Proof.
  intros Hs Hb. unfold logo2Gnuplot.
  set (cmds := remove_pointless_turns s).
  assert (Hn : forallb no_heading_symbol cmds = true)
    by (apply Replace_from_forallb; exact Hs).
  assert (Hc : brackets_balanced_from 0 cmds = true)
    by (unfold cmds; rewrite remove_pointless_turns_balanced; exact Hb).
  destruct (gnuplot_walk_nested lineColor angle (length cmds) cmds 0
              (gnuplot_start b cmds xOrigin) [] [] [] [])
    as (k & w' & keep & T & _ & C & P & _); auto.
  { unfold variables_apart. apply forallb_forall. intros x _.
    apply orb_true_r. }
  { cbn. rewrite app_nil_r. reflexivity. }
  cbn [app List.filter length Nat.add] in C, P. rewrite app_nil_r in C.
  destruct (gnuplot_turns_loop lineColor angle k
              (gnuplot_start b cmds xOrigin) w' (length cmds) T)
    as [w'' L]; cbn [gnuplot_start gp_pos gp_cmds]; try lia.
  { rewrite C, P. lia. }
  rewrite L, Returns_bind. exists (gp_plotCmds w''), (gp_bounds w'').
  rewrite (gnuplot_loop_text lineColor angle
             (List.filter plain_symbol cmds) _ _ _ L); [reflexivity|].
  apply walked_plain_start. exact Hs.
Qed.

Lemma logo2Hpgl_returns b s xOrigin angle :
  forallb no_heading_symbol s = true ->
  brackets_balanced s = true ->
  exists penCmds b',
    logo2Hpgl math_Cos math_Sin b s xOrigin angle
    = Returns (penCmds, b',
               List.filter plain_symbol (remove_pointless_turns s)).
Proof.
  intros Hs Hb.
  destruct (logo2Gnuplot_returns [] b s xOrigin angle Hs Hb)
    as (drawCmds & b' & G).
  pose proof (compilers_agree [] b s xOrigin angle) as A.
  rewrite G in A.
  destruct (logo2Hpgl math_Cos math_Sin b s xOrigin angle)
    as [[[penCmds b1] cmds]|f]; [|discriminate A].
  cbn in A. injection A as <- <-. eexists _, _. reflexivity.
Qed.


(** *** From [HogewegHesper] to the plot *)

Lemma supported_no_heading_symbol s :
  forallb HogewegHesper_symbol_supported s = true ->
  forallb no_heading_symbol s = true.
Proof.
  rewrite !forallb_forall. intros H c Hc. apply H in Hc.
  supported_cases c Hc; reflexivity.
Qed.


(** *** The dry run of [calcXoffset] *)

Lemma pop_heading_and_X (s1 s2 : _turtleHistory) :
  List.map heading_and_X s1 = List.map heading_and_X s2 ->
  (fun r => (heading_and_X r.1, List.map heading_and_X r.2)) <$> pop s1
  = (fun r => (heading_and_X r.1, List.map heading_and_X r.2)) <$> pop s2.
Proof.
  intro H.
  destruct (Nat.eq_dec (length s1) 0%nat) as [E|E].
  - destruct s1; [|discriminate E]. destruct s2; [|discriminate H].
    reflexivity.
  - assert (L : length s2 = length s1).
    { apply (f_equal (@length _)) in H. rewrite !length_map in H. lia. }
    destruct (list_snoc_cases s1 (Nat.pred (length s1))) as (a1 & t1 & -> & _);
      [lia|].
    destruct (list_snoc_cases s2 (Nat.pred (length s2))) as (a2 & t2 & -> & _);
      [lia|].
    rewrite !List.map_app in H. apply app_inj_tail in H as [Ha Ht].
    assert (Ht' : heading_and_X t1 = heading_and_X t2)
      by (cbn [List.map] in Ht; congruence).
    change (a1 ++ [t1]) with (push a1 t1). change (a2 ++ [t2]) with (push a2 t2).
    rewrite !pop_push. cbn [fmap outcome_fmap fst snd]. rewrite Ha, Ht'.
    reflexivity.
Qed.

Lemma dry_run_step_agree lineColor angle wo wg c :
  offset_trace wo = gnuplot_offset_trace wg ->
  offset_trace <$> offset_step math_Cos angle wo c
  = gnuplot_offset_trace
      <$> gnuplot_step math_Cos math_Sin lineColor angle wg c.
Proof.
  destruct wo as [cmds pos [h x y'] stack' xmin].
  destruct wg as [cmds' pos' [h' x' y] stack [xmin' xmax ymin ymax] polygon
                  plotCmds].
  unfold offset_trace, gnuplot_offset_trace, heading_and_X.
  cbn [gp_cmds gp_pos gp_turtle gp_stack gp_bounds ox_cmds ox_pos ox_turtle
       ox_stack ox_xMin HEADING X xMin].
  intros [= <- <- <- <- Hst <-].
  destruct (symbol_cases c) as [Hp|[->|[Hp Hq]]].
  - apply plain_symbol_cases in Hp.
    destruct Hp as [H|[H|[H|[H|[H|[H|[H|[H|[H|H]]]]]]]]]; subst c;
      unfold offset_step, gnuplot_step; eval_byte_eqb; cbv iota;
      cbn [gp_cmds gp_pos gp_turtle gp_stack gp_bounds gp_polygon gp_plotCmds
           ox_cmds ox_pos ox_turtle ox_stack ox_xMin HEADING X Y];
      try (cbn [fmap outcome_fmap set_heading HEADING X Y gp_cmds gp_pos
                gp_turtle gp_stack gp_bounds ox_cmds ox_pos ox_turtle
                ox_stack ox_xMin xMin];
           rewrite ?Hst; reflexivity).
    + unfold forward. cbn [HEADING X Y xMin xMax yMin yMax].
      repeat match goal with
             | |- context [if ?t then _ else _] => destruct t
             end;
        match goal with
        | |- context [convert2Gnuplot ?a ?b ?c [?x0; ?y0; ?x1; ?y1]] =>
            destruct (convert2Gnuplot_move a b c x0 y0 x1 y1) as [[cmd pol] ->]
        end;
        cbn [fmap outcome_fmap mbind outcome_bind gp_cmds gp_pos gp_turtle
             gp_stack gp_bounds ox_cmds ox_pos ox_turtle ox_stack ox_xMin
             HEADING X xMin];
        rewrite ?Hst; reflexivity.
    + unfold forward. cbn [HEADING X Y xMin xMax yMin yMax].
      repeat match goal with
             | |- context [if ?t then _ else _] => destruct t
             end;
        match goal with
        | |- context [convert2Gnuplot ?a ?b ?c [?x0; ?y0; ?x1; ?y1]] =>
            destruct (convert2Gnuplot_move a b c x0 y0 x1 y1) as [[cmd pol] ->]
        end;
        cbn [fmap outcome_fmap mbind outcome_bind gp_cmds gp_pos gp_turtle
             gp_stack gp_bounds ox_cmds ox_pos ox_turtle ox_stack ox_xMin
             HEADING X xMin];
        rewrite ?Hst; reflexivity.
    + cbn [fmap outcome_fmap gp_cmds gp_pos gp_turtle gp_stack gp_bounds
           ox_cmds ox_pos ox_turtle ox_stack ox_xMin xMin HEADING X].
      unfold push. rewrite !List.map_app, Hst. reflexivity.
    + pose proof (pop_heading_and_X stack' stack Hst) as P.
      unfold heading_and_X in P.
      destruct (pop stack') as [[t1 s1]|f1], (pop stack) as [[t2 s2]|f2];
        try discriminate P;
        [|cbn [fmap outcome_fmap] in P; injection P as <-; reflexivity].
      cbn [fmap outcome_fmap fst snd] in P. injection P as Hh Hx Hs.
      cbn [fmap outcome_fmap mbind outcome_bind gp_cmds gp_pos gp_turtle
           gp_stack gp_bounds ox_cmds ox_pos ox_turtle ox_stack ox_xMin xMin].
      rewrite Hh, Hx, Hs. reflexivity.
  - unfold offset_step, gnuplot_step; eval_byte_eqb; cbv iota;
      cbn [gp_cmds gp_pos gp_turtle gp_stack gp_bounds gp_polygon gp_plotCmds
           ox_cmds ox_pos ox_turtle ox_stack ox_xMin].
    destruct (getHeading cmds pos) as [[heading p]|f]; [|reflexivity].
    cbn [fmap outcome_fmap mbind outcome_bind set_heading HEADING X Y gp_cmds
         gp_pos gp_turtle gp_stack gp_bounds ox_cmds ox_pos ox_turtle
         ox_stack ox_xMin xMin].
    rewrite Hst. reflexivity.
  - unfold offset_step, gnuplot_step.
    apply plain_symbol_false in Hp.
    destruct Hp as (-> & -> & -> & -> & -> & -> & -> & -> & -> & ->).
    rewrite Hq. cbn [orb]. cbv iota.
    cbn [gp_cmds gp_pos gp_turtle gp_stack gp_bounds gp_polygon gp_plotCmds
         ox_cmds ox_pos ox_turtle ox_stack ox_xMin].
    destruct (remove_variable (string_of_byte c) cmds); [|reflexivity].
    cbn [fmap outcome_fmap mbind outcome_bind gp_cmds gp_pos gp_turtle
         gp_stack gp_bounds ox_cmds ox_pos ox_turtle ox_stack ox_xMin xMin
         HEADING X].
    rewrite Hst. reflexivity.
Qed.

Lemma dry_run_loop_agree lineColor angle fuel : forall wo wg,
  offset_trace wo = gnuplot_offset_trace wg ->
  offset_trace <$> offset_loop math_Cos fuel angle wo
  = gnuplot_offset_trace
      <$> gnuplot_loop math_Cos math_Sin fuel lineColor angle wg.
Proof.
  induction fuel as [|fuel IH]; intros wo wg H; [reflexivity|].
  cbn [offset_loop gnuplot_loop].
  pose proof H as H0. unfold offset_trace, gnuplot_offset_trace in H0.
  injection H0 as Hc Hp _ _ _ _. rewrite Hc, Hp.
  destruct (gp_pos wg <? Z.of_nat (length (gp_cmds wg)));
    [|cbn [fmap outcome_fmap]; rewrite H; reflexivity].
  unfold offset_turn, gnuplot_turn. rewrite Hc, Hp.
  destruct (index (gp_cmds wg) (gp_pos wg)) as [c|f]; [|reflexivity].
  rewrite !Returns_bind.
  pose proof (dry_run_step_agree lineColor angle wo wg c H) as S1.
  destruct (offset_step math_Cos angle wo c) as [wo1|f1],
           (gnuplot_step math_Cos math_Sin lineColor angle wg c) as [wg1|f2];
    try discriminate S1.
  - rewrite !Returns_bind. apply IH.
    cbn [fmap outcome_fmap] in S1. congruence.
  - exact S1.
Qed.


End TurtleProperties.

(** ** Closed instances *)

(** C3, the claim as stated fails: [Plot] and [HpglPlot] on the text
    ["FX"] leave ["F"] in the exported [TurtleCmds]. *)
Lemma Plot_and_HpglPlot_rewrite_TurtleCmds :
  (fun r => TurtleCmds r.1)
    <$> Plot off_axis_unused off_axis_unused 90 (go "set terminal png")
          (go "set output") (go "FX") (go "#ff0000")
          (set_TurtleCmds (go "FX") package0)
  = Returns (go "F")
  /\ (fun r => TurtleCmds r.1)
       <$> HpglPlot off_axis_unused off_axis_unused 90 (go "FX") 0.5
             (go "FX.plt") (set_TurtleCmds (go "FX") package0)
     = Returns (go "F")
  /\ go "F" <> go "FX".
Proof. vm_compute. split; [reflexivity|]. split; [reflexivity | discriminate]. Qed.

Lemma compilers_rewrite_TurtleCmds_not_the_slice_witness :
  (fun r => TurtleCmds r.1)
    <$> Plot off_axis_unused off_axis_unused 90 (go "set terminal png")
          (go "set output") (go "XF+-Y)F") (go "#ff0000")
          (set_TurtleCmds (go "XF+-Y)F") package0)
  = Returns (go "FF").
Proof.
  destruct (Plot off_axis_unused off_axis_unused 90 (go "set terminal png")
              (go "set output") (go "XF+-Y)F") (go "#ff0000")
              (set_TurtleCmds (go "XF+-Y)F") package0))
    as [[p' plotCmds]|f] eqn:E; [|vm_compute in E; discriminate E].
  cbn [fmap outcome_fmap fst].
  rewrite (proj1 (compilers_rewrite_TurtleCmds_not_the_slice
                    off_axis_unused off_axis_unused) _ _ _ _ _ _ _ _ E);
    reflexivity.
Defined.

(** C6, the claim as stated fails.  In ["[(180)0[F]F]"] the brackets are
    nested.  The declaration takes the walk to the [0], a variable; its
    removal deletes the [0] of the declaration as well, the text slides
    under [pos], and the inner ['['] is never interpreted.  The first
    [']'] therefore brings back the state saved at the outer ['[']
    (heading 0, not the heading 180 the turtle had where the inner
    bracket stands), and the last [']'] finds nothing saved: [Plot]
    ends in the run-time failure. *)
Lemma a_variable_in_a_declaration_unpairs_the_brackets :
  brackets_balanced (go "[(180)0[F]F]") = true
  /\ map (fun n =>
            (fun w => (gp_cmds w, gp_pos w, gp_turtle w, length (gp_stack w)))
              <$> gnuplot_turns off_axis_unused off_axis_unused n
                    (go "#ff0000") 90
                    (gnuplot_start bounds0 (go "[(180)0[F]F]") 0))
         [2; 3; 5]%nat
     = map Returns
         [(go "[(180)0[F]F]", 6, {| HEADING := 180; X := 0; Y := 0 |}, 1%nat);
          (go "[(18)[F]F]", 6, {| HEADING := 180; X := 0; Y := 0 |}, 1%nat);
          (go "[(18)[F]F]", 8, {| HEADING := 0; X := 0; Y := 0 |}, 0%nat)]
  /\ Plot off_axis_unused off_axis_unused 90 (go "set terminal png")
       (go "set output") [] (go "#ff0000")
       (set_TurtleCmds (go "[(180)0[F]F]") package0)
     = Fails index_out_of_range.
Proof. vm_compute. auto. Qed.

Lemma branches_restore_last_in_first_out_witness :
  exists k w',
    gnuplot_turns off_axis_unused off_axis_unused k (go "#ff0000") 90
      {| gp_cmds := go "(18)[+XF]XF"; gp_pos := 4;
         gp_turtle := {| HEADING := 18; X := 0; Y := 0 |};
         gp_stack := []; gp_bounds := bounds0; gp_polygon := [];
         gp_plotCmds := [] |} = Returns w'
    /\ gp_turtle w' = {| HEADING := 18; X := 0; Y := 0 |}
    /\ gp_stack w' = []
    /\ gp_pos w' = 8.
Proof.
  destruct (proj1 (proj2 (proj2 (proj2 (branches_restore_last_in_first_out
                                          off_axis_unused off_axis_unused))))
              (go "#ff0000") 90%float
              {| gp_cmds := go "(18)[+XF]XF"; gp_pos := 4;
                 gp_turtle := {| HEADING := 18; X := 0; Y := 0 |};
                 gp_stack := []; gp_bounds := bounds0; gp_polygon := [];
                 gp_plotCmds := [] |}
              (go "(18)") (go "+XF") (go "XF") eq_refl eq_refl eq_refl eq_refl
              eq_refl)
    as (k & w' & post' & T & Ht & Hs & _ & Hp).
  exists k, w'. split; [exact T|]. split; [exact Ht|]. split; [exact Hs|].
  exact Hp.
Defined.

Lemma three_F_make_one_PD_run_witness :
  exists w3,
    hpgl_turns off_axis_unused off_axis_unused 3 90
      (hpgl_start bounds0 (go "FFF") 0) = Returns w3
    /\ hp_plotCmds w3
       = go "PU0.000000,0.000000;" ++ newline
           ++ go "PD1.000000,0.000000,2.000000,0.000000,3.000000,0.000000".
Proof.
  destruct (proj1 (three_F_make_one_PD_run off_axis_unused off_axis_unused)
              90%float (hpgl_start bounds0 (go "FFF") 0) [] [] eq_refl eq_refl)
    as (w1 & w2 & w3 & T1 & T2 & T3 & _ & _ & _ & O).
  exists w3. split; [exact T3|].
  rewrite O. vm_compute in T1. injection T1 as <-.
  vm_compute in T2. injection T2 as <-.
  vm_compute in T3. injection T3 as <-.
  vm_compute. reflexivity.
Defined.

(** C8, the code at the failing inputs.  The bounds of the compiler are
    seeded at 0 once for the whole multi-plot and not at the origin of a
    subplot, and a move straight up, straight down or to the left does
    not raise [xMax]; so the [xMax] the loop of [MultiPlot] adds the gap
    to is the greatest abscissa any move to the right has reached so
    far, not the right edge of the subplot just compiled.  Three stems
    ["$FF"]: the second and the third are both drawn at x = 2.  The
    texts ["FF"], ["|FF"], ["FF"]: the second is drawn from 6 back to 4
    and the third from 4 to 6, on top of it.  Two texts ["FF"], where
    every move raises [xMax], are laid out as the claim says: the second
    at 4, two units to the right of the first. *)
Theorem MultiPlot_draws_subplots_on_top_of_each_other :
  labels_and_arrows <$> (mv_plotCmds <$>
    MultiPlot off_axis_unused off_axis_unused [go "$FF"; go "$FF"; go "$FF"]
      [90; 90; 90]%float (go "set terminal png") (go "set output") []
      [go "a"; go "b"; go "c"] (go "#ff0000") package0)
  = Returns
      [label_cmd (go "a") 0 (go "#ff0000");
       go "set arrow as 1 from 0.000000,0.000000 to 0.000000,1.000000";
       go "set arrow as 1 from 0.000000,1.000000 to 0.000000,2.000000";
       label_cmd (go "b") 2 (go "#ff0000");
       go "set arrow as 1 from 2.000000,0.000000 to 2.000000,1.000000";
       go "set arrow as 1 from 2.000000,1.000000 to 2.000000,2.000000";
       label_cmd (go "c") 2 (go "#ff0000");
       go "set arrow as 1 from 2.000000,0.000000 to 2.000000,1.000000";
       go "set arrow as 1 from 2.000000,1.000000 to 2.000000,2.000000"]
  /\ labels_and_arrows <$> (mv_plotCmds <$>
       MultiPlot off_axis_unused off_axis_unused [go "FF"; go "|FF"; go "FF"]
         [90; 90; 90]%float (go "set terminal png") (go "set output") []
         [go "a"; go "b"; go "c"] (go "#ff0000") package0)
     = Returns
         [label_cmd (go "a") 0 (go "#ff0000");
          go "set arrow as 1 from 0.000000,0.000000 to 1.000000,0.000000";
          go "set arrow as 1 from 1.000000,0.000000 to 2.000000,0.000000";
          label_cmd (go "b") 6 (go "#ff0000");
          go "set arrow as 1 from 6.000000,0.000000 to 5.000000,0.000000";
          go "set arrow as 1 from 5.000000,0.000000 to 4.000000,0.000000";
          label_cmd (go "c") 4 (go "#ff0000");
          go "set arrow as 1 from 4.000000,0.000000 to 5.000000,0.000000";
          go "set arrow as 1 from 5.000000,0.000000 to 6.000000,0.000000"]
  /\ labels_and_arrows <$> (mv_plotCmds <$>
       MultiPlot off_axis_unused off_axis_unused [go "FF"; go "FF"]
         [90; 90]%float (go "set terminal png") (go "set output") []
         [go "a"; go "b"] (go "#ff0000") package0)
     = Returns
         [label_cmd (go "a") 0 (go "#ff0000");
          go "set arrow as 1 from 0.000000,0.000000 to 1.000000,0.000000";
          go "set arrow as 1 from 1.000000,0.000000 to 2.000000,0.000000";
          label_cmd (go "b") 4 (go "#ff0000");
          go "set arrow as 1 from 4.000000,0.000000 to 5.000000,0.000000";
          go "set arrow as 1 from 5.000000,0.000000 to 6.000000,0.000000"].
Proof. vm_compute. auto. Qed.


